(** * Beacon: the reconciliation and scheduling engine

    A shallow embedding of the TypeScript services of the Beacon dynamic-DNS
    updater and the properties of its specification.

    - [src/services/storage.ts]     -> [Module StorageService]
    - [src/services/cloudflare.ts]  -> [Module CloudflareService],
                                       [Module SecurityService]
    - [src/services/ipDetector.ts]  -> [Module IpDetector]
    - the four-source detector      -> [Module IpDetectorMulti]
    - [src/services/logger.ts]      -> [Module IpMonitor] (the engine),
                                       [Module Logger]

    JavaScript code that throws, mutates files and talks to the network is
    written in a state-and-exception monad [M] over a [World]; a thrown
    exception keeps every effect performed before it, as in JavaScript.
    Logging ([Logger], [console]) never throws and touches neither the engine
    nor the persisted state; the services are modelled without their logging
    calls, and the logger on its own, over its two files. *)

From stdpp Require Import base option list strings pretty gmap.
From Stdlib Require Import ZArith Bool Lia.
From Stdlib Require Ascii String.

Local Open Scope Z_scope.

(** ** JavaScript strings *)

(** [haystack.includes(needle)] *)
Fixpoint includes (needle haystack : string) : bool :=
  if String.prefix needle haystack then true
  else match haystack with
       | EmptyString => false
       | String _ rest => includes needle rest
       end.

(** A JavaScript string is written as the bytes of its UTF-8 encoding.  An
    ASCII character is one byte and no byte of a longer character is an
    ASCII one, so looking for ASCII text ([includes], [split], [===]) is the
    same on the bytes as on the characters.

    [String.prototype.trim] removes WhiteSpace and LineTerminator: U+0009
    to U+000D and U+0020 (one byte each), U+00A0 (two bytes), and U+1680,
    U+2000 to U+200A, U+2028, U+2029, U+202F, U+205F, U+3000 and U+FEFF
    (three bytes each). *)
Definition is_white_space (c : Ascii.ascii) : bool :=
  match Ascii.nat_of_ascii c with
  | 9%nat | 10%nat | 11%nat | 12%nat | 13%nat | 32%nat => true
  | _ => false
  end.

Definition is_white_space2 (c1 c2 : Ascii.ascii) : bool :=
  (Ascii.nat_of_ascii c1 =? 194)%nat && (Ascii.nat_of_ascii c2 =? 160)%nat.

Definition is_white_space3 (c1 c2 c3 : Ascii.ascii) : bool :=
  let b1 := Ascii.nat_of_ascii c1 in
  let b2 := Ascii.nat_of_ascii c2 in
  let b3 := Ascii.nat_of_ascii c3 in
  (* U+1680 *)
  (b1 =? 225)%nat && (b2 =? 154)%nat && (b3 =? 128)%nat
  (* U+2000 to U+200A, U+2028, U+2029, U+202F *)
  || (b1 =? 226)%nat && (b2 =? 128)%nat
     && ((128 <=? b3)%nat && (b3 <=? 138)%nat
         || (b3 =? 168)%nat || (b3 =? 169)%nat || (b3 =? 175)%nat)
  (* U+205F *)
  || (b1 =? 226)%nat && (b2 =? 129)%nat && (b3 =? 159)%nat
  (* U+3000 *)
  || (b1 =? 227)%nat && (b2 =? 128)%nat && (b3 =? 128)%nat
  (* U+FEFF *)
  || (b1 =? 239)%nat && (b2 =? 187)%nat && (b3 =? 191)%nat.

(** White space removed from the front of [s]; with [backwards], [s] is a
    string read from its end, the bytes of each character the other way
    round. *)
Fixpoint strip (backwards : bool) (s : string) : string :=
  match s with
  | EmptyString => EmptyString
  | String c1 rest1 =>
      if is_white_space c1 then strip backwards rest1
      else
        match rest1 with
        | EmptyString => s
        | String c2 rest2 =>
            if (if backwards then is_white_space2 c2 c1
                else is_white_space2 c1 c2)
            then strip backwards rest2
            else
              match rest2 with
              | EmptyString => s
              | String c3 rest3 =>
                  if (if backwards then is_white_space3 c3 c2 c1
                      else is_white_space3 c1 c2 c3)
                  then strip backwards rest3
                  else s
              end
        end
  end.

Definition trimStart (s : string) : string := strip false s.

Definition reverse_string (s : string) : string :=
  String.string_of_list_ascii (rev (String.list_ascii_of_string s)).

Definition trimEnd (s : string) : string :=
  reverse_string (strip true (reverse_string s)).

Definition trim (s : string) : string := trimEnd (trimStart s).

(** Truthiness of a [string | null | undefined] value. *)
Definition truthy (v : option string) : bool :=
  match v with
  | Some s => negb (String.eqb s "")
  | None => false
  end.

(** [a || b] on [string | null] values. *)
Definition js_or (a b : option string) : option string :=
  if truthy a then a else b.

(** [a !== b] on [string | null] values. *)
Definition strict_neq (a b : option string) : bool :=
  match a, b with
  | Some x, Some y => negb (String.eqb x y)
  | None, None => false
  | _, _ => true
  end.

(** A template placeholder [${v}] for an environment variable that may be
    undefined. *)
Definition template (v : option string) : string :=
  match v with
  | Some s => s
  | None => "undefined"
  end.

(** ** Thrown values *)

Inductive Thrown : Type :=
| JsError (message : string)              (* new Error(message) *)
| JsNativeError (name message : string)   (* SyntaxError, TypeError, ... *)
| JsUndefined.                            (* an unassigned variable, thrown *)

(** [`${error}`] *)
Definition thrown_to_string (e : Thrown) : string :=
  match e with
  | JsError m => "Error: " +:+ m
  | JsNativeError n m => n +:+ ": " +:+ m
  | JsUndefined => "undefined"
  end.

(** [error instanceof Error ? error.message : fallback] *)
Definition message_or (fallback : string) (e : Thrown) : string :=
  match e with
  | JsError m => m
  | JsNativeError _ m => m
  | JsUndefined => fallback
  end.

(** ** Data model ([src/types/index.ts], [cloudflare.ts]) *)

Inductive Theme : Type := light | dark.

(** Timestamps are clock readings; their ISO rendering plays no role. *)
Definition Timestamp : Type := nat.

Record Config : Type := mkConfig {
  checkIntervalMinutes : Z;
  theme : Theme;
  lastKnownIp : option string;
  createdAt : Timestamp;
  updatedAt : Timestamp;
  lastForceUpdateTime : option Timestamp
}.

Inductive EntryStatus : Type := success_status | failed_status.

Record UpdateEntry : Type := mkUpdateEntry {
  id : nat;                       (* randomUUID(): a fresh identifier *)
  timestamp : Timestamp;
  oldIp : option string;
  newIp : string;
  status : EntryStatus;
  dnsRecordUpdated : bool
}.

Record UpdateHistory : Type := mkUpdateHistory {
  updates : list UpdateEntry
}.

Record CloudflareRecord : Type := mkCloudflareRecord {
  rec_id : string;
  rec_type : string;
  rec_name : string;
  rec_content : string;
  rec_ttl : Z;
  rec_proxied : option bool       (* proxied?: boolean *)
}.

Record CloudflareError : Type := mkCloudflareError {
  code : Z;
  error_json : string             (* its JSON rendering *)
}.

Record CloudflareApiResponse : Type := mkCloudflareApiResponse {
  success : bool;
  errors : list CloudflareError;
  result : option (list CloudflareRecord)   (* None: null or missing *)
}.

(** The body of the PUT request built by [updateRecord]. *)
Record Payload : Type := mkPayload {
  p_type : string;
  p_name : string;
  p_content : string;
  p_ttl : Z;
  p_proxied : bool
}.

Inductive Method : Type := GET | PUT.

Record CfRequest : Type := mkCfRequest {
  req_url : string;
  req_method : Method;
  req_data : option Payload
}.

(** How a request to the provider ends: the promise of [makeRequest]
    resolves with the parsed body or rejects (timeout, socket error,
    unparsable body). *)
Inductive CfOutcome : Type :=
| CfResolve (response : CloudflareApiResponse)
| CfReject (message : string).

(** What [JSON.parse(data)[field]?.trim()] has to work with: a string, no
    such field, or an exception ([JSON.parse] fails, the field has no
    [trim]). *)
Inductive JsonField : Type :=
| FieldString (s : string)
| FieldMissing
| FieldThrows (e : Thrown).

(** The body of an answer of an IP service: the raw text and its reading as
    JSON. *)
Record HttpBody : Type := mkHttpBody {
  data : string;
  json_field : string -> JsonField
}.

Inductive HttpOutcome : Type :=
| HttpTimeout
| HttpSocketError (message : string)
| HttpResponse (statusCode : Z) (statusMessage : string) (body : HttpBody).

(** ** The engine's fields and the world around it *)

Inductive Status : Type := active | checking | error.

Record Monitor : Type := mkMonitor {
  interval : option nat;          (* the handle of the last timer armed *)
  isChecking : bool;
  mon_status : Status
}.

Record Env : Type := mkEnv {
  CLOUDFLARE_API_TOKEN : option string;
  CLOUDFLARE_ZONE_ID : option string;
  DNS_RECORD_NAME : option string
}.

(** What the program does to the outside, in order; the last is what the
    runtime is told when a rejected promise has no handler. *)
Inductive Event : Type :=
| EvHttpGet (url : string)
| EvSleep (ms : Z)
| EvCfRequest (request : CfRequest)
| EvWriteConfig (config : Config)
| EvWriteHistory (history : UpdateHistory)
| EvUnhandledRejection (reason : Thrown).

Record World : Type := mkWorld {
  monitor : Monitor;
  env : Env;
  (* data/config.json and data/history.json; None: missing or unparsable *)
  config_file : option Config;
  config_writable : bool;
  history_file : option UpdateHistory;
  history_writable : bool;
  (* the network: the answer to the n-th request of each kind *)
  ip_net : nat -> string -> HttpOutcome;
  ip_requests : nat;
  cf_net : nat -> CfRequest -> CfOutcome;
  cf_requests : nat;
  (* the runtime: clock, identifier source, armed one-shot timers *)
  clock : Timestamp;
  uuids : nat;
  timers : gmap nat Z;
  next_timer : nat;
  trace : list Event
}.

Definition with_monitor (m : Monitor) (w : World) : World :=
  mkWorld m (env w) (config_file w) (config_writable w) (history_file w)
    (history_writable w) (ip_net w) (ip_requests w) (cf_net w) (cf_requests w)
    (clock w) (uuids w) (timers w) (next_timer w) (trace w).

Definition with_config_file (c : option Config) (w : World) : World :=
  mkWorld (monitor w) (env w) c (config_writable w) (history_file w)
    (history_writable w) (ip_net w) (ip_requests w) (cf_net w) (cf_requests w)
    (clock w) (uuids w) (timers w) (next_timer w) (trace w).

Definition with_history_file (h : option UpdateHistory) (w : World) : World :=
  mkWorld (monitor w) (env w) (config_file w) (config_writable w) h
    (history_writable w) (ip_net w) (ip_requests w) (cf_net w) (cf_requests w)
    (clock w) (uuids w) (timers w) (next_timer w) (trace w).

Definition with_ip_requests (n : nat) (w : World) : World :=
  mkWorld (monitor w) (env w) (config_file w) (config_writable w)
    (history_file w) (history_writable w) (ip_net w) n (cf_net w)
    (cf_requests w) (clock w) (uuids w) (timers w) (next_timer w) (trace w).

Definition with_cf_requests (n : nat) (w : World) : World :=
  mkWorld (monitor w) (env w) (config_file w) (config_writable w)
    (history_file w) (history_writable w) (ip_net w) (ip_requests w) (cf_net w)
    n (clock w) (uuids w) (timers w) (next_timer w) (trace w).

Definition with_uuids (n : nat) (w : World) : World :=
  mkWorld (monitor w) (env w) (config_file w) (config_writable w)
    (history_file w) (history_writable w) (ip_net w) (ip_requests w) (cf_net w)
    (cf_requests w) (clock w) n (timers w) (next_timer w) (trace w).

Definition with_timers (t : gmap nat Z) (n : nat) (w : World) : World :=
  mkWorld (monitor w) (env w) (config_file w) (config_writable w)
    (history_file w) (history_writable w) (ip_net w) (ip_requests w) (cf_net w)
    (cf_requests w) (clock w) (uuids w) t n (trace w).

Definition with_trace (t : list Event) (w : World) : World :=
  mkWorld (monitor w) (env w) (config_file w) (config_writable w)
    (history_file w) (history_writable w) (ip_net w) (ip_requests w) (cf_net w)
    (cf_requests w) (clock w) (uuids w) (timers w) (next_timer w) t.

Definition emit (e : Event) (w : World) : World :=
  with_trace (trace w ++ [e]) w.

(** ** The monad of JavaScript computations *)

Inductive Completion (A : Type) : Type :=
| Normal (value : A)
| Throw (thrown : Thrown).
Arguments Normal {A} value.
Arguments Throw {A} thrown.

Definition M (A : Type) : Type := World -> Completion A * World.

Definition ret {A} (a : A) : M A := fun w => (Normal a, w).

Definition throw {A} (e : Thrown) : M A := fun w => (Throw e, w).

Definition bind {A B} (c : M A) (k : A -> M B) : M B :=
  fun w =>
    match c w with
    | (Normal a, w') => k a w'
    | (Throw e, w') => (Throw e, w')
    end.

#[global] Instance M_ret : MRet M := @ret.
#[global] Instance M_bind : MBind M := fun A B k c => bind c k.

(** [try { c } catch (e) { handler e }] *)
Definition try_catch {A} (c : M A) (handler : Thrown -> M A) : M A :=
  fun w =>
    match c w with
    | (Normal a, w') => (Normal a, w')
    | (Throw e, w') => handler e w'
    end.

(** [try { c } finally { f }], for a finaliser that is plain assignments. *)
Definition try_finally {A} (c : M A) (f : World -> World) : M A :=
  fun w => let (r, w') := c w in (r, f w').

Definition gets {A} (f : World -> A) : M A := fun w => (Normal (f w), w).

Definition modify (f : World -> World) : M unit := fun w => (Normal tt, f w).

(** A computation that only completes, and [try]/[catch] around one. *)
Definition complete {A} (r : Completion A) : M A := fun w => (r, w).

Definition catch_completion {A} (r : Completion A)
    (handler : Thrown -> Completion A) : Completion A :=
  match r with
  | Normal a => Normal a
  | Throw e => handler e
  end.

(** [new Date()] and [randomUUID()] *)
Definition now : M Timestamp := gets clock.

Definition randomUUID : M nat :=
  fun w => (Normal (uuids w), with_uuids (S (uuids w)) w).

(** [await this.sleep(ms)] *)
Definition sleep (ms : Z) : M unit := modify (emit (EvSleep ms)).

(** ** [src/services/storage.ts] *)

Module StorageService.

Definition readConfig : M Config :=
  fun w =>
    match config_file w with
    | Some c => (Normal c, w)
    | None => (Throw (JsError "Failed to read configuration"), w)
    end.

Definition writeConfig (config : Config) : M unit :=
  fun w =>
    let config' :=
      mkConfig (checkIntervalMinutes config) (theme config)
        (lastKnownIp config) (createdAt config) (clock w)
        (lastForceUpdateTime config) in
    if config_writable w
    then (Normal tt, emit (EvWriteConfig config') (with_config_file (Some config') w))
    else (Throw (JsError "Failed to write configuration"), w).

Definition readHistory : M UpdateHistory :=
  fun w =>
    match history_file w with
    | Some h => (Normal h, w)
    | None => (Throw (JsError "Failed to read update history"), w)
    end.

Definition writeHistory (history : UpdateHistory) : M unit :=
  fun w =>
    if history_writable w
    then (Normal tt, emit (EvWriteHistory history) (with_history_file (Some history) w))
    else (Throw (JsError "Failed to write update history"), w).

Definition addUpdateEntry (entry : UpdateEntry) : M unit :=
  try_catch
    (history ← readHistory;
     (* history.updates.unshift(entry) *)
     let updates1 := entry :: updates history in
     (* keep only the last 10 entries *)
     let updates2 :=
       if (10 <? Z.of_nat (length updates1))%Z then take 10 updates1
       else updates1 in
     writeHistory (mkUpdateHistory updates2))
    (fun _ => throw (JsError "Failed to add update entry")).

Definition updateLastKnownIp (ip : string) : M unit :=
  try_catch
    (config ← readConfig;
     writeConfig
       (mkConfig (checkIntervalMinutes config) (theme config) (Some ip)
          (createdAt config) (updatedAt config) (lastForceUpdateTime config)))
    (fun _ => throw (JsError "Failed to update last known IP")).

End StorageService.

(** ** [src/services/cloudflare.ts] *)

Module CloudflareService.

Definition BASE_URL : string := "https://api.cloudflare.com/client/v4".
Definition TIMEOUT : Z := 5000.

(** One HTTPS round trip.  The request is put on the wire and the world
    answers: a parsed body, or a rejection (timeout after [TIMEOUT] ms,
    socket error, invalid JSON). *)
Definition makeRequest (url : string) (method : Method)
    (payload : option Payload) : M CloudflareApiResponse :=
  fun w =>
    let request := mkCfRequest url method payload in
    let w' :=
      emit (EvCfRequest request) (with_cf_requests (S (cf_requests w)) w) in
    match cf_net w (cf_requests w) request with
    | CfResolve response => (Normal response, w')
    | CfReject message => (Throw (JsError message), w')
    end.

(** [JSON.stringify(response.errors)] *)
Definition stringify_errors (es : list CloudflareError) : string :=
  "[" +:+ String.concat "," (map error_json es) +:+ "]".

Definition getDnsRecord : M (option CloudflareRecord) :=
  try_catch
    (e ← gets env;
     let url :=
       BASE_URL +:+ "/zones/" +:+ template (CLOUDFLARE_ZONE_ID e)
         +:+ "/dns_records?name=" +:+ template (DNS_RECORD_NAME e)
         +:+ "&type=A" in
     response ← makeRequest url GET None;
     if negb (success response) then
       (* an auth error, as opposed to a missing record *)
       match errors response with
       | err :: _ =>
           if code err =? 10001 then
             throw (JsError "Invalid Cloudflare API credentials")
           else if code err =? 7003 then
             throw (JsError "Invalid Zone ID or API access denied")
           else ret None
       | [] => ret None
       end
     else
       match result response with
       | None | Some [] => ret None
       | Some (record :: _) => ret (Some record)
       end)
    (fun error => throw error).

Definition updateRecord (recordId newIp : string)
    (existingRecord : CloudflareRecord) : M unit :=
  e ← gets env;
  let url :=
    BASE_URL +:+ "/zones/" +:+ template (CLOUDFLARE_ZONE_ID e)
      +:+ "/dns_records/" +:+ recordId in
  (* preserve existing settings, only change the IP *)
  let payload :=
    {| p_type := rec_type existingRecord;
       p_name := rec_name existingRecord;
       p_content := newIp;
       p_ttl := rec_ttl existingRecord;
       p_proxied := default false (rec_proxied existingRecord) |} in
  response ← makeRequest url PUT (Some payload);
  if negb (success response) then
    throw (JsError ("Cloudflare API error: "
                      +:+ stringify_errors (errors response)))
  else ret tt.

Definition updateDnsRecord (newIp : string) : M bool :=
  try_catch
    (record ← getDnsRecord;
     match record with
     | None => throw (JsError "DNS record not found")
     | Some record =>
         updateRecord (rec_id record) newIp record;;
         ret true
     end)
    (fun _ => ret false).

End CloudflareService.

(** ** [src/services/ipDetector.ts] and its four-source variant *)

(** [retryOperation] is the same text in both detectors; the constants
    differ. *)
Section Retry.

Variable MAX_RETRIES : nat.
Variable RETRY_DELAYS : list Z.

(** The [for] loop of [retryOperation], entered with [iterations] values of
    [attempt] still to run.  An index outside [RETRY_DELAYS] is
    [undefined], a pause of 1 ms. *)
Fixpoint retry_loop (operation : M string) (iterations attempt : nat)
    (lastError : Thrown) : M string :=
  match iterations with
  | O => throw lastError
  | S iterations' =>
      try_catch operation
        (fun error =>
           (if (attempt <? MAX_RETRIES)%nat
            then sleep (default 1 (RETRY_DELAYS !! attempt))
            else ret tt);;
           retry_loop operation iterations' (S attempt) error)
  end.

(** [for (let attempt = 0; attempt <= MAX_RETRIES; attempt++)] *)
Definition retryOperation_with (operation : M string) : M string :=
  retry_loop operation (S MAX_RETRIES) 0%nat JsUndefined.

End Retry.

(** The arrival of an answer in [httpRequest]: one request leaves, and the
    world's answer comes back. *)
Definition http_get (url : string) : M HttpOutcome :=
  fun w =>
    (Normal (ip_net w (ip_requests w) url),
     emit (EvHttpGet url) (with_ip_requests (S (ip_requests w)) w)).

Module IpDetector.

Definition TIMEOUT : Z := 5000.
Definition MAX_RETRIES : nat := 3.
Definition RETRY_DELAYS : list Z := [1000; 2000; 4000].

(** The callbacks of [httpRequest]: whether the promise resolves or
    rejects is decided by the answer alone. *)
Definition settle_response (url : string) (outcome : HttpOutcome)
    : Completion string :=
  match outcome with
  | HttpTimeout =>
      Throw (JsError ("Request timeout after " +:+ pretty TIMEOUT +:+ "ms"))
  | HttpSocketError message => Throw (JsError message)
  | HttpResponse statusCode statusMessage body =>
      if negb (statusCode =? 200) then
        Throw (JsError ("HTTP " +:+ pretty statusCode +:+ ": "
                          +:+ statusMessage))
      else
        catch_completion
          (if includes "ipify" url then
             match json_field body "ip" with
             | FieldThrows e => Throw e
             | FieldMissing => Throw (JsError "No IP in response")
             | FieldString s =>
                 let ip := trim s in
                 if truthy (Some ip) then Normal ip
                 else Throw (JsError "No IP in response")
             end
           else
             (* icanhazip returns plain text *)
             let ip := trim (data body) in
             if truthy (Some ip) then Normal ip
             else Throw (JsError "Empty response"))
          (fun error =>
             Throw (JsError ("Invalid response format: "
                               +:+ thrown_to_string error)))
  end.

Definition httpRequest (url : string) : M string :=
  outcome ← http_get url;
  complete (settle_response url outcome).

Definition retryOperation : M string -> M string :=
  retryOperation_with MAX_RETRIES RETRY_DELAYS.

Definition ipify_url : string := "https://api.ipify.org?format=json".
Definition icanhazip_url : string := "https://icanhazip.com".

Definition fetchFromIpify : M string := retryOperation (httpRequest ipify_url).

Definition fetchFromIcanhazip : M string :=
  retryOperation (httpRequest icanhazip_url).

(** The primary service first; when its [try] block throws, the fallback;
    when that throws too, a new error. *)
Definition getCurrentIp : M string :=
  try_catch fetchFromIpify
    (fun _ =>
       try_catch fetchFromIcanhazip
         (fun _ => throw (JsError "Failed to detect IP address"))).

End IpDetector.

Module IpDetectorMulti.

Definition TIMEOUT : Z := 10000.
Definition MAX_RETRIES : nat := 3.
Definition RETRY_DELAYS : list Z := [2000; 5000; 10000].

Definition settle_response (url : string) (outcome : HttpOutcome)
    : Completion string :=
  match outcome with
  | HttpTimeout =>
      Throw (JsError ("Request timeout after " +:+ pretty TIMEOUT +:+ "ms"))
  | HttpSocketError message => Throw (JsError message)
  | HttpResponse statusCode statusMessage body =>
      if negb (statusCode =? 200) then
        Throw (JsError ("HTTP " +:+ pretty statusCode +:+ ": "
                          +:+ statusMessage))
      else
        catch_completion
          (if includes "ipify" url then
             match json_field body "ip" with
             | FieldThrows e => Throw e
             | FieldMissing => Throw (JsError "No IP in response")
             | FieldString s =>
                 let ip := trim s in
                 if truthy (Some ip) then Normal ip
                 else Throw (JsError "No IP in response")
             end
           else if includes "httpbin" url then
             match json_field body "origin" with
             | FieldThrows e => Throw e
             | FieldMissing => Throw (JsError "No IP in response")
             | FieldString s =>
                 let ip := trim s in
                 if truthy (Some ip) then Normal ip
                 else Throw (JsError "No IP in response")
             end
           else
             (* icanhazip, ifconfig.me return plain text *)
             let ip := trim (data body) in
             if truthy (Some ip) then Normal ip
             else Throw (JsError "Empty response"))
          (fun error =>
             Throw (JsError ("Invalid response format: "
                               +:+ thrown_to_string error)))
  end.

Definition httpRequest (url : string) : M string :=
  outcome ← http_get url;
  complete (settle_response url outcome).

Definition retryOperation : M string -> M string :=
  retryOperation_with MAX_RETRIES RETRY_DELAYS.

Definition ipify_url : string := "https://api.ipify.org?format=json".
Definition icanhazip_url : string := "https://icanhazip.com".
Definition httpbin_url : string := "https://httpbin.org/ip".
Definition ifconfig_url : string := "https://ifconfig.me/ip".

Definition fetchFromIpify : M string := retryOperation (httpRequest ipify_url).
Definition fetchFromIcanhazip : M string :=
  retryOperation (httpRequest icanhazip_url).
Definition fetchFromHttpbin : M string :=
  retryOperation (httpRequest httpbin_url).
Definition fetchFromIfconfig : M string :=
  retryOperation (httpRequest ifconfig_url).

Record Service : Type := mkService {
  service_name : string;
  func : M string
}.

Definition services : list Service :=
  [ mkService "ipify" fetchFromIpify;
    mkService "icanhazip" fetchFromIcanhazip;
    mkService "httpbin" fetchFromHttpbin;
    mkService "ifconfig.me" fetchFromIfconfig ].

(** [for (const service of services)], from position [index] on, in a list
    of [total] services; after the loop the detector throws. *)
Fixpoint try_services (remaining : list Service) (index total : nat)
    : M string :=
  match remaining with
  | [] => throw (JsError "Failed to detect IP address from all services")
  | service :: rest =>
      try_catch (func service)
        (fun _ =>
           (* a pause between services, not after the last one *)
           (if (Z.of_nat index <? Z.of_nat total - 1)
            then sleep 1000 else ret tt);;
           try_services rest (S index) total)
  end.

Definition getCurrentIp : M string :=
  try_services services 0%nat (length services).

End IpDetectorMulti.

(** ** One-shot timers of the runtime *)

(** [setTimeout(callback, ms)]: a delay above 2^31-1 or below 1 is set to 1.
    The callback is the engine's only one (see [IpMonitor]); the table keeps
    the delay of each armed timer. *)
Definition TIMEOUT_MAX : Z := 2147483647.

Definition setTimeout (ms : Z) : M nat :=
  fun w =>
    let handle := next_timer w in
    let delay := if (ms <? 1) || (TIMEOUT_MAX <? ms) then 1 else ms in
    (Normal handle, with_timers (<[handle := delay]> (timers w)) (S handle) w).

Definition clearTimeout (handle : nat) : M unit :=
  modify (fun w => with_timers (delete handle (timers w)) (next_timer w) w).

(** ** The engine: [class IpMonitor] *)

Module IpMonitor.

Record CheckResult : Type := mkCheckResult {
  ipChanged : bool;
  currentIp : string
}.

Record ForceResult : Type := mkForceResult {
  fr_success : bool;
  fr_ipChanged : bool;
  fr_currentIp : option string;
  fr_message : string
}.

Definition set_interval (i : option nat) : M unit :=
  modify (fun w =>
    with_monitor
      (mkMonitor i (isChecking (monitor w)) (mon_status (monitor w))) w).

Definition set_isChecking (b : bool) (w : World) : World :=
  with_monitor (mkMonitor (interval (monitor w)) b (mon_status (monitor w))) w.

Definition set_status (s : Status) : M unit :=
  modify (fun w =>
    with_monitor (mkMonitor (interval (monitor w)) (isChecking (monitor w)) s) w).

Definition stop : M unit :=
  this_interval ← gets (fun w => interval (monitor w));
  match this_interval with
  | Some handle => clearTimeout handle;; set_interval None
  | None => ret tt
  end.

Definition getStatus : M Status := gets (fun w => mon_status (monitor w)).

(** Arms the timer whose callback is the next cycle. *)
Definition scheduleNextCheck : M unit :=
  config ← StorageService.readConfig;
  let intervalMs := checkIntervalMinutes config * 60 * 1000 in
  handle ← setTimeout intervalMs;
  set_interval (Some handle).

(** [process.env.X?.includes('test_')] *)
Definition includes_test (v : option string) : bool :=
  match v with
  | Some s => includes "test_" s
  | None => false
  end.

(** The [try] block of [performIpCheck]. *)
Definition check_body : M CheckResult :=
  currentIp ← IpDetector.getCurrentIp;
  config ← StorageService.readConfig;
  (* let dnsRecordIp = null; let dnsRecordAccessible = true; *)
  dnsRead ←
    try_catch
      (dnsRecord ← CloudflareService.getDnsRecord;
       ret (js_or (rec_content <$> dnsRecord) None, true))
      (fun _ => ret (None, false));
  let '(dnsRecordIp, dnsRecordAccessible) :=
    (dnsRead : option string * bool) in
  let ipChangedFromStored := strict_neq (lastKnownIp config) (Some currentIp) in
  let ipChangedFromDns :=
    dnsRecordAccessible && strict_neq dnsRecordIp (Some currentIp) in
  let ipChanged := ipChangedFromStored || ipChangedFromDns in
  (if ipChanged then
     (* always update the stored IP first *)
     StorageService.updateLastKnownIp currentIp;;
     dnsUpdate ←
       try_catch
         (ok ← CloudflareService.updateDnsRecord currentIp; ret (ok, ""))
         (fun err => ret (false, message_or "Unknown DNS error" err));
     let '(dnsUpdateSuccess, dnsError) := (dnsUpdate : bool * string) in
     entryId ← randomUUID;
     stamp ← now;
     let updateEntry :=
       {| id := entryId;
          timestamp := stamp;
          oldIp := js_or dnsRecordIp (lastKnownIp config);
          newIp := currentIp;
          status := if dnsUpdateSuccess then success_status else failed_status;
          dnsRecordUpdated := dnsUpdateSuccess |} in
     StorageService.addUpdateEntry updateEntry;;
     e ← gets env;
     let isTestMode :=
       includes_test (CLOUDFLARE_API_TOKEN e)
       || includes_test (CLOUDFLARE_ZONE_ID e)
       || negb dnsRecordAccessible in
     if isTestMode then set_status active
     else
       set_status (if dnsUpdateSuccess then active else error);;
       if negb dnsUpdateSuccess
       then throw (JsError ("DNS update failed: " +:+ dnsError))
       else ret tt
   else set_status active);;
  ret (mkCheckResult ipChanged currentIp).

(** The [catch] block of [performIpCheck]. *)
Definition check_failed (err : Thrown) : M CheckResult :=
  set_status error;;
  entryId ← randomUUID;
  stamp ← now;
  let updateEntry :=
    {| id := entryId;
       timestamp := stamp;
       oldIp := None;
       newIp := "check_failed";
       status := failed_status;
       dnsRecordUpdated := false |} in
  try_catch (StorageService.addUpdateEntry updateEntry) (fun _ => ret tt);;
  throw err.

(** [performIpCheck] up to its first suspension: the two assignments before
    [try]. *)
Definition performIpCheck_enter : M unit :=
  modify (set_isChecking true);;
  set_status checking.

(** ... and from there to the end: [try], [catch], [finally]. *)
Definition performIpCheck_settle : M CheckResult :=
  try_finally (try_catch check_body check_failed) (set_isChecking false).

Definition performIpCheck : M CheckResult :=
  performIpCheck_enter;;
  performIpCheck_settle.

Definition busy_reply : ForceResult :=
  mkForceResult false false None "Check already in progress".

Definition forceCheck : M ForceResult :=
  this_isChecking ← gets (fun w => isChecking (monitor w));
  if (this_isChecking : bool) then ret busy_reply
  else
    try_catch
      (result ← performIpCheck;
       ret (mkForceResult true (ipChanged result) (Some (currentIp result))
              (if ipChanged result then "IP address updated"
               else "No change detected")))
      (fun err =>
         ret (mkForceResult false false None
                ("Check failed: " +:+ thrown_to_string err))).

(** What [forceCheck] returns once the cycle it awaits has settled. *)
Definition force_reply (r : Completion CheckResult) : ForceResult :=
  match r with
  | Normal result =>
      mkForceResult true (ipChanged result) (Some (currentIp result))
        (if ipChanged result then "IP address updated"
         else "No change detected")
  | Throw err =>
      mkForceResult false false None
        ("Check failed: " +:+ thrown_to_string err)
  end.

(** The two handlers chained on the promise of a cycle, in [start] and in
    the timer callback: [.then(() => scheduleNextCheck())] and
    [.catch(() => scheduleNextCheck())], the second also catching what the
    first throws. *)
Definition reschedule (r : Completion CheckResult) : M unit :=
  match r with
  | Normal _ => try_catch scheduleNextCheck (fun _ => scheduleNextCheck)
  | Throw _ => scheduleNextCheck
  end.

End IpMonitor.

(** ** The event loop

    A cycle is asynchronous: it begins (the assignments before [try] run at
    once) and settles later, after its awaits.  Calls of the public methods
    and timer callbacks run in between.  The loop keeps the cycles that have
    begun and not settled, each with what is chained on its promise; the
    body of a cycle is run in one piece when it settles. *)

(** The end of a promise chain.  What its last handler throws rejects a
    promise nothing handles: an unhandled rejection, reported to the runtime.
    The server installs no handler for it, and Node's default then ends the
    process.  The event is put on the trace; the loop goes on stepping after
    it, which is what the code does where the runtime is told to keep the
    process alive ([--unhandled-rejections=warn]), so that a statement about
    every run also covers the runs that end at the event. *)
Definition unhandled {A} (settled : Completion A * World) : World :=
  match settled with
  | (Normal _, w) => w
  | (Throw reason, w) => emit (EvUnhandledRejection reason) w
  end.

Inductive Origin : Type :=
| FromStart    (* start(): then/catch reschedule *)
| FromTimer    (* the timer callback: then/catch reschedule *)
| FromForce.   (* forceCheck(): the reply is built from the outcome *)

Record Loop : Type := mkLoop {
  world : World;
  inflight : list Origin;
  replies : list IpMonitor.ForceResult   (* what forceCheck calls returned *)
}.

Inductive Task : Type :=
| CallStart
| CallStop
| CallForceCheck
| TimerFires (handle : nat)
| CycleSettles (k : nat).   (* the k-th cycle in flight settles *)

Definition begin_cycle (o : Origin) (l : Loop) : Loop :=
  mkLoop (IpMonitor.performIpCheck_enter (world l)).2 (inflight l ++ [o])
    (replies l).

Definition step (l : Loop) (t : Task) : Loop :=
  match t with
  | CallStart => begin_cycle FromStart l
  | CallStop => mkLoop (IpMonitor.stop (world l)).2 (inflight l) (replies l)
  | CallForceCheck =>
      if isChecking (monitor (world l))
      then mkLoop (world l) (inflight l) (replies l ++ [IpMonitor.busy_reply])
      else begin_cycle FromForce l
  | TimerFires handle =>
      match timers (world l) !! handle with
      | Some _ =>
          (* a timer that fires is no longer armed *)
          let w := with_timers (delete handle (timers (world l)))
                     (next_timer (world l)) (world l) in
          begin_cycle FromTimer (mkLoop w (inflight l) (replies l))
      | None => l
      end
  | CycleSettles k =>
      match inflight l !! k with
      | Some o =>
          let (r, w) := IpMonitor.performIpCheck_settle (world l) in
          let rest := delete k (inflight l) in
          match o with
          | FromForce => mkLoop w rest (replies l ++ [IpMonitor.force_reply r])
          | FromStart | FromTimer =>
              mkLoop (unhandled (IpMonitor.reschedule r w)) rest (replies l)
          end
      | None => l
      end
  end.

Definition run (l : Loop) (tasks : list Task) : Loop := foldl step l tasks.

(** ** More of JavaScript's strings and values *)

(** The characters the services look for: [.], [:] and the line feed. *)
Definition dot : Ascii.ascii := Ascii.ascii_of_nat 46.
Definition colon : Ascii.ascii := Ascii.ascii_of_nat 58.
Definition line_feed : Ascii.ascii := Ascii.ascii_of_nat 10.

(** [s.split(sep)] for a separator of one character: never empty, one part
    more than there are separators. *)
Fixpoint split (sep : Ascii.ascii) (s : string) : list string :=
  match s with
  | EmptyString => [EmptyString]
  | String c rest =>
      if Ascii.eqb c sep then EmptyString :: split sep rest
      else match split sep rest with
           | part :: parts => String c part :: parts
           | [] => [String c EmptyString]
           end
  end.

(** [parts.join(sep)] *)
Definition join (sep : string) (parts : list string) : string :=
  String.concat sep parts.

(** [list.slice(start)]: a negative [start] counts from the end. *)
Definition slice {A} (start : Z) (l : list A) : list A :=
  if start <? 0 then drop (Z.to_nat (Z.max (Z.of_nat (length l) + start) 0)) l
  else drop (Z.to_nat start) l.

(** [s.toLowerCase()], [s.lastIndexOf(c)] and [s.substring(start)] on ASCII
    strings: the letters [A] to [Z] are lowered, and the bytes of a character
    outside ASCII, which Unicode's case mapping could change, are left as
    they are. *)
Definition lower_ascii (c : Ascii.ascii) : Ascii.ascii :=
  let n := Ascii.nat_of_ascii c in
  if (65 <=? n)%nat && (n <=? 90)%nat then Ascii.ascii_of_nat (n + 32) else c.

Fixpoint toLowerCase (s : string) : string :=
  match s with
  | EmptyString => EmptyString
  | String c rest => String (lower_ascii c) (toLowerCase rest)
  end.

Fixpoint lastIndexOf (c : Ascii.ascii) (s : string) : Z :=
  match s with
  | EmptyString => -1
  | String c' rest =>
      let found := lastIndexOf c rest in
      if 0 <=? found then found + 1
      else if Ascii.eqb c' c then 0 else -1
  end.

Fixpoint drop_string (n : nat) (s : string) : string :=
  match n, s with
  | O, _ => s
  | S n', String _ rest => drop_string n' rest
  | S _, EmptyString => EmptyString
  end.

Definition substring (start : Z) (s : string) : string :=
  drop_string (Z.to_nat (Z.max start 0)) s.

(** A value as [JSON.parse] gives it to a request handler. *)
#[warnings="-register-all"]
Inductive JsValue : Type :=
| JsUndefinedValue
| JsNull
| JsBoolean (b : bool)
| JsNumber (n : Z)
| JsString (s : string)
| JsArray (items : list JsValue)
| JsObject (properties : list (string * JsValue)).

Definition typeof (v : JsValue) : string :=
  match v with
  | JsUndefinedValue => "undefined"
  | JsNull | JsArray _ | JsObject _ => "object"
  | JsBoolean _ => "boolean"
  | JsNumber _ => "number"
  | JsString _ => "string"
  end.

(** [Object.keys(v)] for a value that is an object: the indices of an
    array, the names of an object's properties. *)
Definition object_keys (v : JsValue) : list string :=
  match v with
  | JsArray items => (fun i : nat => pretty i) <$> seq 0 (length items)
  | JsObject properties => properties.*1
  | _ => []
  end.

(** [v.name] for a name that is no index and not [length]. *)
Definition property (v : JsValue) (name : string) : JsValue :=
  match v with
  | JsObject properties =>
      match List.find (fun kv => String.eqb kv.1 name) properties with
      | Some kv => kv.2
      | None => JsUndefinedValue
      end
  | _ => JsUndefinedValue
  end.

(** ** [class SecurityService] ([src/services/cloudflare.ts]) *)

Module SecurityService.

Definition obfuscateIp (ip : option string) : string :=
  if negb (truthy ip) || negb (strict_neq ip (Some "check_failed")) then
    template (js_or ip (Some "Unknown"))
  else
    let ip := default "" ip in
    (* handle IPv4 *)
    let ipv4 :=
      if includes "." ip then
        let parts := split dot ip in
        if (length parts =? 4)%nat then
          Some (template (parts !! 0%nat) +:+ ".xxx.xxx."
                  +:+ template (parts !! 3%nat))
        else None
      else None in
    match ipv4 with
    | Some obfuscated => obfuscated
    | None =>
        (* handle IPv6 (basic obfuscation) *)
        let ipv6 :=
          if includes ":" ip then
            let parts := split colon ip in
            if (2 <=? length parts)%nat then
              Some (template (parts !! 0%nat)
                      +:+ ":xxxx:xxxx:xxxx:xxxx:xxxx:xxxx:"
                      +:+ template (parts !! (length parts - 1)%nat))
            else None
          else None in
        match ipv6 with
        | Some obfuscated => obfuscated
        | None => "xxx.xxx.xxx.xxx"
        end
    end.

(** The rate limiter: its store, what it looks at in a request, and how it
    answers. *)
Record RateEntry : Type := mkRateEntry {
  count : Z;
  resetTime : Z
}.

Record Request : Type := mkRequest {
  req_ip : option string;               (* req.ip *)
  remoteAddress : option string         (* req.connection.remoteAddress *)
}.

Inductive Answer : Type :=
| next                                  (* next() *)
| status_429 (retryAfter : Z).          (* res.status(429).json(...) *)

Definition windowMs : Z := 15 * 60 * 1000.

Definition maxRequests (production : bool) : Z :=
  if production then 100 else 1000.

(** [Math.ceil(a / b)] for integers, [b] positive. *)
Definition ceil_div (a b : Z) : Z := - ((- a) / b).

Definition clientIp (req : Request) : string :=
  template (js_or (js_or (req_ip req) (remoteAddress req)) (Some "unknown")).

(** The middleware [createRateLimiter] returns, called at time [now]. *)
Definition rateLimiter (production : bool) (now : Z) (req : Request)
    (rateLimitStore : gmap string RateEntry)
    : Answer * gmap string RateEntry :=
  (* clean expired entries *)
  let store :=
    filter (fun kv : string * RateEntry => ~ (resetTime kv.2 < now))
      rateLimitStore in
  match store !! clientIp req with
  | None =>
      (next, <[clientIp req := mkRateEntry 1 (now + windowMs)]> store)
  | Some clientData =>
      if resetTime clientData <? now then
        (* new window *)
        (next, <[clientIp req := mkRateEntry 1 (now + windowMs)]> store)
      else if maxRequests production <=? count clientData then
        (status_429 (ceil_div (resetTime clientData - now) 1000), store)
      else
        (next,
         <[clientIp req :=
             mkRateEntry (count clientData + 1) (resetTime clientData)]> store)
  end.

(** The [for] loop over [Object.keys(body)], left at the first unexpected
    key. *)
Definition allowedKeys : list string := ["checkIntervalMinutes"; "theme"].

Fixpoint has_unexpected_key (bodyKeys : list string) : bool :=
  match bodyKeys with
  | [] => false
  | key :: rest =>
      if negb (existsb (String.eqb key) allowedKeys) then true
      else has_unexpected_key rest
  end.

Definition is_undefined (v : JsValue) : bool :=
  match v with
  | JsUndefinedValue => true
  | _ => false
  end.

Definition validateSettingsInput (body : JsValue) : bool :=
  if negb (String.eqb (typeof body) "object")
     || (match body with JsNull => true | _ => false end)
  then false
  else if has_unexpected_key (object_keys body) then false
  else if negb (is_undefined (property body "checkIntervalMinutes"))
          && negb (String.eqb (typeof (property body "checkIntervalMinutes"))
                     "number")
  then false
  else if negb (is_undefined (property body "theme"))
          && negb (String.eqb (typeof (property body "theme")) "string")
  then false
  else true.

Definition allowedExtensions : list string :=
  [".html"; ".css"; ".js"; ".png"; ".jpg"; ".jpeg"; ".gif"; ".svg"; ".ico"].

Definition isValidFilePath (filePath : string) : bool :=
  if includes ".." filePath || includes "~" filePath then false
  else
    let extension :=
      substring (lastIndexOf dot filePath) (toLowerCase filePath) in
    existsb (String.eqb extension) allowedExtensions.

End SecurityService.

(** ** [class Logger] ([src/services/logger.ts]) *)

Module Logger.

Inductive LogLevel : Type := ERROR | WARN | INFO | DEBUG.

Definition level_name (level : LogLevel) : string :=
  match level with
  | ERROR => "ERROR"
  | WARN => "WARN"
  | INFO => "INFO"
  | DEBUG => "DEBUG"
  end.

(** An [Error] as the logger reads it. *)
Record ErrorObject : Type := mkErrorObject {
  error_message : string;
  error_stack : string
}.

(** A log file: its text ([None] while the file does not exist), whether
    [appendFileSync] succeeds on it, and what [readFileSync] throws if it
    throws. *)
Record LogFile : Type := mkLogFile {
  text : option string;
  appendable : bool;
  read_error : option Thrown
}.

Record LogFiles : Type := mkLogFiles {
  errorLog : LogFile;
  appLog : LogFile
}.

Inductive LogPath : Type := errorLogPath | appLogPath.

Definition line_break : string := String line_feed EmptyString.

(** [timestamp] is [new Date().toISOString()], [context] the text
    [JSON.stringify] gives for a context that is there. *)
Definition formatMessage (timestamp : string) (level : LogLevel)
    (message : string) (err : option ErrorObject) (context : option string)
    : string :=
  let contextStr :=
    match context with
    | Some json => " | Context: " +:+ json
    | None => ""
    end in
  let errorStr :=
    match err with
    | Some e =>
        " | Error: " +:+ error_message e +:+ " | Stack: " +:+ error_stack e
    | None => ""
    end in
  "[" +:+ timestamp +:+ "] " +:+ level_name level +:+ ": " +:+ message
    +:+ contextStr +:+ errorStr +:+ line_break.

(** [fs.appendFileSync] creates the file if need be; what it throws is
    caught and goes to the console. *)
Definition appendFileSync (message : string) (file : LogFile) : LogFile :=
  if appendable file
  then mkLogFile (Some (default "" (text file) +:+ message)) (appendable file)
         (read_error file)
  else file.

Definition writeToFile (filePath : LogPath) (message : string)
    (files : LogFiles) : LogFiles :=
  match filePath with
  | errorLogPath =>
      mkLogFiles (appendFileSync message (errorLog files)) (appLog files)
  | appLogPath =>
      mkLogFiles (errorLog files) (appendFileSync message (appLog files))
  end.

Definition error (timestamp message : string) (err : option ErrorObject)
    (context : option string) (files : LogFiles) : LogFiles :=
  let logMessage := formatMessage timestamp ERROR message err context in
  (* write to error log, also write to app log *)
  writeToFile appLogPath logMessage (writeToFile errorLogPath logMessage files).

Definition warn (timestamp message : string) (context : option string)
    (files : LogFiles) : LogFiles :=
  writeToFile appLogPath (formatMessage timestamp WARN message None context)
    files.

Definition info (timestamp message : string) (context : option string)
    (files : LogFiles) : LogFiles :=
  writeToFile appLogPath (formatMessage timestamp INFO message None context)
    files.

Definition debug (timestamp message : string) (context : option string)
    (files : LogFiles) : LogFiles :=
  writeToFile appLogPath (formatMessage timestamp DEBUG message None context)
    files.

(** The body the two readers share: the last [lines] lines that are not
    blank. *)
Definition recentLines (content : string) (lines : Z) : string :=
  let allLines :=
    List.filter (fun line => truthy (Some (trim line)))
      (split line_feed content) in
  join line_break (slice (- lines) allLines).

Definition getLogContent (missing failed : string) (file : LogFile)
    (lines : Z) : string :=
  match text file with
  | None => missing
  | Some content =>
      match read_error file with
      | Some thrown => failed +:+ thrown_to_string thrown
      | None => recentLines content lines
      end
  end.

(** [lines] is [None] when the caller leaves it out. *)
Definition getErrorLogContent (lines : option Z) (files : LogFiles) : string :=
  getLogContent "No error log file found" "Failed to read error log: "
    (errorLog files) (default 50 lines).

Definition getAppLogContent (lines : option Z) (files : LogFiles) : string :=
  getLogContent "No app log file found" "Failed to read app log: "
    (appLog files) (default 100 lines).

End Logger.

(** * Observations

    What the properties are stated with: frames, the worlds a cycle goes
    through, what is read off a trace, the scenarios of the
    specification. *)

(** ** Frames: what a computation leaves as it is

    [stays R c]: every run of [c] takes a world to an [R]-related one,
    whether it returns or throws. *)
Definition stays (R : relation World) {A} (c : M A) : Prop :=
  forall w, R w (c w).2.

(** Detection touches the request counter of the IP services and the trace,
    where it leaves requests and pauses. *)
Definition detection_event (e : Event) : Prop :=
  match e with
  | EvHttpGet _ | EvSleep _ => True
  | _ => False
  end.

Definition besides_detection (w : World) : World :=
  with_trace [] (with_ip_requests 0 w).

Definition detection_frame : relation World :=
  fun w w' =>
    besides_detection w' = besides_detection w /\
    exists evs, trace w' = trace w ++ evs /\ Forall detection_event evs.

(** The provider touches its request counter and the trace, where it leaves
    requests. *)
Definition provider_event (e : Event) : Prop :=
  match e with
  | EvCfRequest _ => True
  | _ => False
  end.

Definition besides_provider (w : World) : World :=
  with_trace [] (with_cf_requests 0 w).

Definition provider_frame : relation World :=
  fun w w' =>
    besides_provider w' = besides_provider w /\
    exists evs, trace w' = trace w ++ evs /\ Forall provider_event evs.

(** What a frame keeps, field by field. *)
Record same_engine_and_storage (w w' : World) : Prop := {
  same_monitor : monitor w' = monitor w;
  same_env : env w' = env w;
  same_config_file : config_file w' = config_file w;
  same_config_writable : config_writable w' = config_writable w;
  same_history_file : history_file w' = history_file w;
  same_history_writable : history_writable w' = history_writable w;
  same_clock : clock w' = clock w;
  same_uuids : uuids w' = uuids w;
  same_timers : timers w' = timers w;
  same_next_timer : next_timer w' = next_timer w
}.

(** The history file after [addUpdateEntry], and the config file after
    [updateLastKnownIp]. *)
Definition history_after (entry : UpdateEntry) (h : UpdateHistory)
    : UpdateHistory :=
  mkUpdateHistory (take 10 (entry :: updates h)).

Definition config_with_ip (ip : string) (now : Timestamp) (c : Config)
    : Config :=
  mkConfig (checkIntervalMinutes c) (theme c) (Some ip) (createdAt c) now
    (lastForceUpdateTime c).

(** What the cycle keeps of the DNS read: the record's content when the read
    returned a record with one, and whether the read returned at all. *)
Definition dns_read_ip (rd : Completion (option CloudflareRecord))
    : option string :=
  match rd with
  | Normal record => js_or (rec_content <$> record) None
  | Throw _ => None
  end.

Definition dns_read_accessible (rd : Completion (option CloudflareRecord))
    : bool :=
  match rd with
  | Normal _ => true
  | Throw _ => false
  end.

(** [ipChanged], as [check_body] computes it. *)
Definition ip_changed (persisted : option string) (detected : string)
    (rd : Completion (option CloudflareRecord)) : bool :=
  strict_neq persisted (Some detected)
  || (dns_read_accessible rd && strict_neq (dns_read_ip rd) (Some detected)).

(** [isTestMode], as [check_body] computes it. *)
Definition is_test_mode (e : Env) (rd : Completion (option CloudflareRecord))
    : bool :=
  IpMonitor.includes_test (CLOUDFLARE_API_TOKEN e)
  || IpMonitor.includes_test (CLOUDFLARE_ZONE_ID e)
  || negb (dns_read_accessible rd).

Definition with_status (s : Status) (w : World) : World :=
  (IpMonitor.set_status s w).2.

(** The entry a changed cycle writes. *)
Definition change_entry (w : World) (cfg : Config) (detected : string)
    (rd : Completion (option CloudflareRecord)) (ok : bool) : UpdateEntry :=
  {| id := uuids w;
     timestamp := clock w;
     oldIp := js_or (dns_read_ip rd) (lastKnownIp cfg);
     newIp := detected;
     status := if ok then success_status else failed_status;
     dnsRecordUpdated := ok |}.

(** The entry the [catch] block writes. *)
Definition failure_entry (w : World) : UpdateEntry :=
  {| id := uuids w;
     timestamp := clock w;
     oldIp := None;
     newIp := "check_failed";
     status := failed_status;
     dnsRecordUpdated := false |}.

(** The world after a changed cycle has persisted the IP ([persisted]) and,
    once the provider write has returned in [w4], after it has appended its
    entry ([recorded]). *)
Definition persisted (ip : string) (cfg : Config) (w2 : World) : World :=
  emit (EvWriteConfig (config_with_ip ip (clock w2) cfg))
    (with_config_file (Some (config_with_ip ip (clock w2) cfg)) w2).

Definition recorded (entry : UpdateEntry) (h : UpdateHistory) (w4 : World)
    : World :=
  emit (EvWriteHistory (history_after entry h))
    (with_history_file (Some (history_after entry h))
       (with_uuids (S (uuids w4)) w4)).

(** The world the [catch] block leaves: status [error], and the failure
    entry when the history can be read and written. *)
Definition failure_recorded (w : World) : World :=
  let w1 := with_status error w in
  match history_file w, history_writable w with
  | Some h, true => recorded (failure_entry w) h w1
  | _, _ => with_uuids (S (uuids w)) w1
  end.

(** The world when the [try] block is entered. *)
Definition entered (w : World) : World := (IpMonitor.performIpCheck_enter w).2.

(** The world after one more request to the provider. *)
Definition requested (request : CfRequest) (w : World) : World :=
  emit (EvCfRequest request) (with_cf_requests (S (cf_requests w)) w).

(** The body [updateRecord] sends for [record]. *)
Definition payload_for (record : CloudflareRecord) (content : string)
    (p : Payload) : Prop :=
  p_type p = rec_type record /\
  p_name p = rec_name record /\
  p_ttl p = rec_ttl record /\
  p_proxied p = default false (rec_proxied record) /\
  p_content p = content.

(** Whether the provider answers a request with [success: true]. *)
Definition answered_success (w : World) (n : nat) (request : CfRequest)
    : bool :=
  match cf_net w n request with
  | CfResolve response => success response
  | CfReject _ => false
  end.

(** The URLs requested by a stretch of the trace, in order. *)
Definition urls_requested (evs : list Event) : list string :=
  omap (fun e => match e with EvHttpGet url => Some url | _ => None end) evs.

Definition request (settle : string -> HttpOutcome -> Completion string)
    (url : string) : M string :=
  outcome ← http_get url;
  complete (settle url outcome).

(** What the [i]-th request from [w] on gets, if it goes to [url]. *)
Definition answer (settle : string -> HttpOutcome -> Completion string)
    (w : World) (i : nat) (url : string) : Completion string :=
  settle url (ip_net w (ip_requests w + i) url).

(** The first request of a schedule that yields an address, with the number
    of failed requests before it. *)
Fixpoint first_success (settle : string -> HttpOutcome -> Completion string)
    (w : World) (urls : list string) (i : nat) : option (nat * string) :=
  match urls with
  | [] => None
  | url :: rest =>
      match answer settle w i url with
      | Normal ip => Some (0%nat, ip)
      | Throw _ =>
          match first_success settle w rest (S i) with
          | Some (k, ip) => Some (S k, ip)
          | None => None
          end
      end
  end.

(** What a stretch of detection does, seen from the world [base] in which
    the detection started: [i0] requests were made before the stretch, it
    works through [urls], and ends in [r] and [w']. *)
Definition scans (settle : string -> HttpOutcome -> Completion string)
    (base : World) (i0 : nat) (urls : list string)
    (w : World) (r : Completion string) (w' : World) : Prop :=
  exists evs,
    trace w' = trace w ++ evs /\
    ip_net w' = ip_net base /\
    match first_success settle base urls i0 with
    | Some (k, ip) =>
        r = Normal ip /\
        urls_requested evs = take (S k) urls /\
        ip_requests w' = (ip_requests base + i0 + S k)%nat
    | None =>
        (exists e, r = Throw e) /\
        urls_requested evs = urls /\
        ip_requests w' = (ip_requests base + i0 + length urls)%nat
    end.

(** The world after one more request, and after the pause that follows a
    failed attempt. *)
Definition asked (url : string) (w : World) : World :=
  emit (EvHttpGet url) (with_ip_requests (S (ip_requests w)) w).

Definition paused (MAX_RETRIES : nat) (RETRY_DELAYS : list Z)
    (attempt : nat) (w : World) : World :=
  if (attempt <? MAX_RETRIES)%nat
  then emit (EvSleep (default 1 (RETRY_DELAYS !! attempt))) w
  else w.

(** The requests [IpDetector.getCurrentIp] makes when every one of them
    fails: the primary service, then the fallback, each [MAX_RETRIES + 1]
    times. *)
Definition IpDetector_schedule : list string :=
  replicate (S IpDetector.MAX_RETRIES) IpDetector.ipify_url
  ++ replicate (S IpDetector.MAX_RETRIES) IpDetector.icanhazip_url.

(** How often a stretch of the trace asks [url]. *)
Definition attempts_against (url : string) (evs : list Event) : nat :=
  length (List.filter (String.eqb url) (urls_requested evs)).

(** The scenarios of the specification. *)
Module Scenario.

(** A plain-text body: no JSON to be read off it. *)
Definition text_body (s : string) : HttpBody :=
  mkHttpBody s
    (fun _ => FieldThrows (JsNativeError "SyntaxError" "Unexpected token")).

Definition newline : string := String (Ascii.ascii_of_nat 10) EmptyString.

Definition idle : Monitor := mkMonitor None false active.

Definition real_env : Env :=
  mkEnv (Some "8f3c0a1d5b7e") (Some "a1b2c3d4e5f6") (Some "home.example.org").

Definition config_with (ip : option string) (minutes : Z) : Config :=
  mkConfig minutes light ip 0%nat 0%nat None.

Definition record_with (content : string) : CloudflareRecord :=
  mkCloudflareRecord "rec-1" "A" "home.example.org" content 300 (Some true).

Definition found (content : string) : CfOutcome :=
  CfResolve (mkCloudflareApiResponse true [] (Some [record_with content])).

Definition world_of (persistedIp : option string)
    (ips : nat -> string -> HttpOutcome)
    (provider : nat -> CfRequest -> CfOutcome) : World :=
  mkWorld idle real_env (Some (config_with persistedIp 5)) true
    (Some (mkUpdateHistory [])) true ips 0 provider 0 1000%nat 0 ∅ 0 [].

(** Source A (ipify) always times out; source B (icanhazip) answers
    203.0.113.7. *)
Definition fallback_net (n : nat) (url : string) : HttpOutcome :=
  if String.eqb url IpDetector.ipify_url then HttpTimeout
  else HttpResponse 200 "OK" (text_body ("203.0.113.7" +:+ newline)).

Definition fallback_world : World :=
  world_of None fallback_net (fun _ _ => CfReject "unreachable").

(** Every IP service answers [ip]. *)
Definition detects (ip : string) (n : nat) (url : string) : HttpOutcome :=
  HttpResponse 200 "OK" (mkHttpBody ip (fun _ => FieldString ip)).

(** The record reads 198.51.100.1; updates are accepted. *)
Definition provider_accepts (n : nat) (request : CfRequest) : CfOutcome :=
  match req_method request with
  | GET => found "198.51.100.1"
  | PUT => CfResolve (mkCloudflareApiResponse true [] None)
  end.

(** The record reads 198.51.100.1; updates die on the wire. *)
Definition provider_drops_writes (n : nat) (request : CfRequest)
    : CfOutcome :=
  match req_method request with
  | GET => found "198.51.100.1"
  | PUT => CfReject "socket hang up"
  end.

(** Persisted 198.51.100.1, DNS 198.51.100.1, detected 198.51.100.2. *)
Definition update_world : World :=
  world_of (Some "198.51.100.1") (detects "198.51.100.2") provider_accepts.

(** The same, with a provider write that fails under real credentials. *)
Definition write_failure_world : World :=
  world_of (Some "198.51.100.1") (detects "198.51.100.2")
    provider_drops_writes.

(** Persisted, DNS and detected IP all 198.51.100.1. *)
Definition steady_world : World :=
  world_of (Some "198.51.100.1") (detects "198.51.100.1") provider_accepts.

End Scenario.

(** The decision of the specification, in its words. *)
Definition spec_changed (persistedLastIp : option string) (detectedIp : string)
    (dnsReadAccessible : bool) (dnsRecordIp : option string) : Prop :=
  persistedLastIp <> Some detectedIp \/
  (dnsReadAccessible = true /\ dnsRecordIp <> Some detectedIp).

(** The entry the [catch] block adds on top when a changed cycle throws
    after it has recorded [entry]. *)
Definition failure_on_top (w : World) (entry : UpdateEntry) (h : UpdateHistory)
    : UpdateHistory :=
  history_after
    {| id := S (uuids w);
       timestamp := clock w;
       oldIp := None;
       newIp := "check_failed";
       status := failed_status;
       dnsRecordUpdated := false |}
    (history_after entry h).

(** Whenever no cycle is in flight, the flag is clear. *)
Definition idle_means_clear (l : Loop) : Prop :=
  inflight l = [] -> isChecking (monitor (world l)) = false.

(** Tasks that are no call of [start] or [forceCheck]. *)
Definition no_new_call (t : Task) : Prop :=
  match t with
  | CallStart | CallForceCheck => False
  | _ => True
  end.

(** The history as a log.  [entries_added evs]: the entries a stretch of the
    trace puts into the history, the first entry of each history written,
    the newest first.  [log_after new old]: the log [old] with [new] put in
    front and the whole cut to the ten newest. *)
Definition entries_added (evs : list Event) : list UpdateEntry :=
  rev (omap (fun e => match e with
                      | EvWriteHistory h => head (updates h)
                      | _ => None
                      end) evs).

Definition log_after (new old : list UpdateEntry) : list UpdateEntry :=
  match new with
  | [] => old
  | _ :: _ => take 10 (new ++ old)
  end.

(** The history file [h] after the stretch [evs] of the trace: the log
    after the entries of [evs]; no file, no entries. *)
Definition log_step (evs : list Event) (h h' : option UpdateHistory) : Prop :=
  match h with
  | Some old =>
      (updates <$> h') = Some (log_after (entries_added evs) (updates old))
  | None => h' = None /\ entries_added evs = []
  end.

Definition history_frame : relation World :=
  fun w w' =>
    exists evs,
      trace w' = trace w ++ evs /\
      log_step evs (history_file w) (history_file w').

(** The services of the four-source detector, in order. *)
Definition IpDetectorMulti_urls : list string :=
  [ IpDetectorMulti.ipify_url; IpDetectorMulti.icanhazip_url;
    IpDetectorMulti.httpbin_url; IpDetectorMulti.ifconfig_url ].

(** Its schedule: each service [MAX_RETRIES + 1] times, in order. *)
Definition schedule_of (urls : list string) : list string :=
  flat_map (replicate (S IpDetectorMulti.MAX_RETRIES)) urls.

(** A frame that keeps one observation of the world. *)
Definition keeps {B} (f : World -> B) : relation World :=
  fun w w' => f w' = f w.

(** The settings of a configuration, as opposed to what the engine records
    in it ([lastKnownIp], [updatedAt]). *)
Definition settings (c : Config) : Z * Theme * Timestamp * option Timestamp :=
  (checkIntervalMinutes c, theme c, createdAt c, lastForceUpdateTime c).

(** The config file under the engine: whether it can be read and written
    stays, and so do its settings. *)
Definition settings_frame : relation World :=
  fun w w' =>
    config_writable w' = config_writable w /\
    (settings <$> config_file w') = (settings <$> config_file w).

(** The chains of scheduled cycles alive in the loop: the timers armed and
    the cycles in flight that reschedule when they settle. *)
Definition reschedules (o : Origin) : bool :=
  match o with
  | FromStart | FromTimer => true
  | FromForce => false
  end.

Definition chains (l : Loop) : nat :=
  size (timers (world l)) + length (List.filter reschedules (inflight l)).

Definition is_start (t : Task) : bool :=
  match t with
  | CallStart => true
  | _ => false
  end.

(** Tasks of the runtime alone: timers firing and cycles settling. *)
Definition no_call (t : Task) : Prop :=
  match t with
  | TimerFires _ | CycleSettles _ => True
  | _ => False
  end.

(** Nothing to remove at the front. *)
Definition starts_clean (backwards : bool) (s : string) : Prop :=
  strip backwards s = s.

(** What the scheduler holds: the handle the engine remembers and the timer
    table of the runtime. *)
Definition armed (w : World) : option nat * gmap nat Z * nat :=
  (interval (monitor w), timers w, next_timer w).

(** Scenarios in which detection or the persisted state fails; the persisted
    IP and the DNS record read 198.51.100.1, the services (when they answer)
    198.51.100.2. *)
Module Faults.

Definition storage (cfg : option Config) (cfg_writable : bool)
    (h : option UpdateHistory) (h_writable : bool) (w : World) : World :=
  mkWorld (monitor w) (env w) cfg cfg_writable h h_writable (ip_net w)
    (ip_requests w) (cf_net w) (cf_requests w) (clock w) (uuids w) (timers w)
    (next_timer w) (trace w).

Definition stored : Config := Scenario.config_with (Some "198.51.100.1") 5.

(** Every IP service times out. *)
Definition silent_world : World :=
  Scenario.world_of (Some "198.51.100.1") (fun _ _ => HttpTimeout)
    Scenario.provider_accepts.

(** data/config.json is missing or unparsable. *)
Definition unreadable_config_world : World :=
  storage None true (Some (mkUpdateHistory [])) true Scenario.update_world.

(** data/config.json cannot be written. *)
Definition read_only_config_world : World :=
  storage (Some stored) false (Some (mkUpdateHistory [])) true
    Scenario.update_world.

(** data/history.json cannot be written. *)
Definition read_only_history_world : World :=
  storage (Some stored) true (Some (mkUpdateHistory [])) false
    Scenario.update_world.

End Faults.

(** The writes a stretch of the trace sends to the provider. *)
Definition provider_writes (evs : list Event) : list CfRequest :=
  omap (fun e => match e with
                 | EvCfRequest request =>
                     match req_method request with
                     | PUT => Some request
                     | GET => None
                     end
                 | _ => None
                 end) evs.

(** The history file after the [catch] block has run in [w]. *)
Definition failure_logged (w : World) : option UpdateHistory :=
  match history_file w, history_writable w with
  | Some h, true => Some (history_after (failure_entry w) h)
  | other, _ => other
  end.

(** What [retryOperation] leaves on the trace when every attempt fails:
    [iterations] requests from [attempt] on, a pause after each attempt that
    has a retry left. *)
Fixpoint backoff (MAX_RETRIES : nat) (RETRY_DELAYS : list Z) (url : string)
    (iterations attempt : nat) : list Event :=
  match iterations with
  | O => []
  | S iterations' =>
      EvHttpGet url
      :: (if (attempt <? MAX_RETRIES)%nat
          then [EvSleep (default 1 (RETRY_DELAYS !! attempt))]
          else [])
      ++ backoff MAX_RETRIES RETRY_DELAYS url iterations' (S attempt)
  end.

(** The provider has no record of the name: the read succeeds with an empty
    result, whatever is asked.  The persisted IP and the detected one are
    both 198.51.100.1. *)
Definition provider_without_record (n : nat) (request : CfRequest)
    : CfOutcome :=
  CfResolve (mkCloudflareApiResponse true [] (Some [])).

Definition recordless_world : World :=
  Scenario.world_of (Some "198.51.100.1") (Scenario.detects "198.51.100.1")
    provider_without_record.

(** ** The rate limiter over a sequence of requests *)

(** Requests served one after the other, each at its time, with who asked
    and how each was answered. *)
Fixpoint serve (production : bool) (requests : list (Z * SecurityService.Request))
    (store : gmap string SecurityService.RateEntry)
    : list (string * SecurityService.Answer)
      * gmap string SecurityService.RateEntry :=
  match requests with
  | [] => ([], store)
  | (now, req) :: rest =>
      let (answer, store') :=
        SecurityService.rateLimiter production now req store in
      let (answers, store'') := serve production rest store' in
      ((SecurityService.clientIp req, answer) :: answers, store'')
  end.

Definition let_through (client : string)
    (answered : string * SecurityService.Answer) : bool :=
  String.eqb answered.1 client
  && match answered.2 with
     | SecurityService.next => true
     | SecurityService.status_429 _ => false
     end.

(** How many requests of [client] were let through. *)
Definition admitted (client : string)
    (answers : list (string * SecurityService.Answer)) : nat :=
  length (List.filter (let_through client) answers).

(** Every count in the store is between 1 and the limit. *)
Definition counts_bounded (production : bool)
    (store : gmap string SecurityService.RateEntry) : Prop :=
  map_Forall
    (fun _ entry =>
       1 <= SecurityService.count entry <= SecurityService.maxRequests production)
    store.

(** What the limiter knows of [client] after [n] of its requests were let
    through in a span of time that began at [t0]. *)
Definition window_state (production : bool) (t0 : Z) (client : string)
    (n : nat) (store : gmap string SecurityService.RateEntry) : Prop :=
  match store !! client with
  | None => n = 0%nat
  | Some entry =>
      SecurityService.count entry = Z.of_nat n /\
      Z.of_nat n <= SecurityService.maxRequests production /\
      t0 + SecurityService.windowMs <= SecurityService.resetTime entry
  end.

(** ** Calls of the logger, one after the other *)

Inductive LogCall : Type :=
| LogError (timestamp message : string) (err : option Logger.ErrorObject)
    (context : option string)
| LogWarn (timestamp message : string) (context : option string)
| LogInfo (timestamp message : string) (context : option string)
| LogDebug (timestamp message : string) (context : option string).

Definition log_call (files : Logger.LogFiles) (call : LogCall)
    : Logger.LogFiles :=
  match call with
  | LogError timestamp message err context =>
      Logger.error timestamp message err context files
  | LogWarn timestamp message context =>
      Logger.warn timestamp message context files
  | LogInfo timestamp message context =>
      Logger.info timestamp message context files
  | LogDebug timestamp message context =>
      Logger.debug timestamp message context files
  end.

(** The line a call writes. *)
Definition line_of (call : LogCall) : string :=
  match call with
  | LogError timestamp message err context =>
      Logger.formatMessage timestamp Logger.ERROR message err context
  | LogWarn timestamp message context =>
      Logger.formatMessage timestamp Logger.WARN message None context
  | LogInfo timestamp message context =>
      Logger.formatMessage timestamp Logger.INFO message None context
  | LogDebug timestamp message context =>
      Logger.formatMessage timestamp Logger.DEBUG message None context
  end.

Definition is_error_call (call : LogCall) : bool :=
  match call with
  | LogError _ _ _ _ => true
  | _ => false
  end.

(** The text of a log file, empty while there is none. *)
Definition text_of (file : Logger.LogFile) : string :=
  default "" (Logger.text file).

(** A line that is not blank, and the lines of a text. *)
Definition not_blank (line : string) : bool := truthy (Some (trim line)).

Definition lines_of (s : string) : list string := split line_feed s.

(** A history that is full: ten entries, numbered from the newest.  The
    persisted IP and the DNS record read 198.51.100.1, the services answer
    198.51.100.2. *)
Definition logged_entry (n : nat) : UpdateEntry :=
  mkUpdateEntry (100 + n) n None "198.51.100.1" success_status true.

Definition full_history_world : World :=
  Faults.storage (Some Faults.stored) true
    (Some (mkUpdateHistory (logged_entry <$> seq 0 10))) true
    Scenario.update_world.

(** What [httpRequest] reads the address from: the [ip] field of the parsed
    body for a URL with [ipify] in it, the body as it is for any other. *)
Definition answer_text (url : string) (body : HttpBody) : option string :=
  if includes "ipify" url then
    match json_field body "ip" with
    | FieldString s => Some s
    | _ => None
    end
  else Some (data body).

(** "A syntactically valid address string", in the words of the
    specification: read here as the least that the text of an IPv4 or IPv6
    address satisfies, not empty and nothing in it but hexadecimal digits,
    dots and colons. *)
Definition spec_address_characters (s : string) : bool :=
  negb (String.eqb s "")
  && forallb
       (fun c =>
          let n := Ascii.nat_of_ascii c in
          ((48 <=? n)%nat && (n <=? 57)%nat)        (* 0-9 *)
          || ((65 <=? n)%nat && (n <=? 70)%nat)     (* A-F *)
          || ((97 <=? n)%nat && (n <=? 102)%nat)    (* a-f *)
          || (n =? 46)%nat || (n =? 58)%nat)        (* . : *)
       (String.list_ascii_of_string s).

(** Source A (ipify) answers 200 with text that is no address; source B
    (icanhazip) answers 203.0.113.7. *)
Definition garbled_net (n : nat) (url : string) : HttpOutcome :=
  if String.eqb url IpDetector.ipify_url
  then Scenario.detects "not an address" n url
  else HttpResponse 200 "OK"
         (Scenario.text_body ("203.0.113.7" +:+ Scenario.newline)).

Definition garbled_world : World :=
  Scenario.world_of None garbled_net (fun _ _ => CfReject "unreachable").

(** White space that is not ASCII: U+00A0 and U+FEFF as they come on the
    wire, and services that answer 203.0.113.7 wrapped in them. *)
Definition no_break_space : string :=
  String (Ascii.ascii_of_nat 194) (String (Ascii.ascii_of_nat 160) "").

Definition byte_order_mark : string :=
  String (Ascii.ascii_of_nat 239)
    (String (Ascii.ascii_of_nat 187) (String (Ascii.ascii_of_nat 191) "")).

Definition padded_world : World :=
  Scenario.world_of None
    (Scenario.detects
       (byte_order_mark +:+ "203.0.113.7" +:+ no_break_space
          +:+ Scenario.newline))
    (fun _ _ => CfReject "unreachable").

(** * Reasoning about computations *)

(** ** The string helpers on small inputs *)

Example trim_strips_both_ends :
  trim ("  203.0.113.7" +:+ Scenario.newline) = "203.0.113.7".
Proof. reflexivity. Qed.

Example trim_of_blank_is_empty : trim "   " = "".
Proof. reflexivity. Qed.

Example trim_strips_unicode_white_space :
  trim (byte_order_mark +:+ " 203.0.113.7" +:+ no_break_space
          +:+ Scenario.newline) = "203.0.113.7" /\
  trim (no_break_space +:+ byte_order_mark) = "".
Proof. split; reflexivity. Qed.

Example includes_finds_infix :
  includes "test_" "cf_test_token" = true /\ includes "test_" "testing" = false.
Proof. split; reflexivity. Qed.

Example js_or_skips_empty_string :
  js_or (Some "") (Some "198.51.100.1") = Some "198.51.100.1" /\
  js_or None None = None /\
  js_or (Some "203.0.113.7") (Some "198.51.100.1") = Some "203.0.113.7".
Proof. repeat split. Qed.

Example strict_neq_null_differs_from_string :
  strict_neq None (Some "203.0.113.7") = true /\
  strict_neq (Some "203.0.113.7") (Some "203.0.113.7") = false.
Proof. split; reflexivity. Qed.

Example addUpdateEntry_keeps_ten :
  let entry n := mkUpdateEntry n 0%nat None "203.0.113.7" success_status true in
  let full := mkUpdateHistory (map entry (seq 1 10)) in
  let w := with_history_file (Some full) Scenario.steady_world in
  (updates <$> history_file (StorageService.addUpdateEntry (entry 0%nat) w).2)
    = Some (map entry (seq 0 10)).
Proof. reflexivity. Qed.

Lemma bind_normal {A B} (c : M A) (k : A -> M B) w a w' :
  c w = (Normal a, w') -> (c ≫= k) w = k a w'.
Proof. intros H. unfold mbind, M_bind, bind. now rewrite H. Qed.

Lemma bind_throw {A B} (c : M A) (k : A -> M B) w e w' :
  c w = (Throw e, w') -> (c ≫= k) w = (Throw e, w').
Proof. intros H. unfold mbind, M_bind, bind. now rewrite H. Qed.

Lemma unhandled_same {A} (settled : Completion A * World) :
  same_engine_and_storage settled.2 (unhandled settled).
Proof. destruct settled as [[a|e] w]; split; reflexivity. Qed.

Lemma unhandled_monitor {A} (settled : Completion A * World) :
  monitor (unhandled settled) = monitor settled.2.
Proof. apply unhandled_same. Qed.

Lemma unhandled_timers {A} (settled : Completion A * World) :
  timers (unhandled settled) = timers settled.2.
Proof. apply unhandled_same. Qed.

Lemma unhandled_config_file {A} (settled : Completion A * World) :
  config_file (unhandled settled) = config_file settled.2.
Proof. apply unhandled_same. Qed.

Lemma unhandled_config_writable {A} (settled : Completion A * World) :
  config_writable (unhandled settled) = config_writable settled.2.
Proof. apply unhandled_same. Qed.

Lemma unhandled_history_file {A} (settled : Completion A * World) :
  history_file (unhandled settled) = history_file settled.2.
Proof. apply unhandled_same. Qed.

Section Framing.

Variable R : relation World.
Context `{!PreOrder R}.

Lemma stays_ret {A} (a : A) : stays R (mret a).
Proof. intros w. reflexivity. Qed.

Lemma stays_throw {A} (e : Thrown) : stays R (@throw A e).
Proof. intros w. reflexivity. Qed.

Lemma stays_gets {A} (f : World -> A) : stays R (gets f).
Proof. intros w. reflexivity. Qed.

Lemma stays_bind {A B} (c : M A) (k : A -> M B) :
  stays R c -> (forall a, stays R (k a)) -> stays R (c ≫= k).
Proof.
  intros Hc Hk w. unfold mbind, M_bind, bind.
  specialize (Hc w). destruct (c w) as [[a|e] w1]; simpl in *.
  - etransitivity; [exact Hc | apply Hk].
  - exact Hc.
Qed.

Lemma stays_try_catch {A} (c : M A) (h : Thrown -> M A) :
  stays R c -> (forall e, stays R (h e)) -> stays R (try_catch c h).
Proof.
  intros Hc Hh w. unfold try_catch.
  specialize (Hc w). destruct (c w) as [[a|e] w1]; simpl in *.
  - exact Hc.
  - etransitivity; [exact Hc | apply Hh].
Qed.

Lemma stays_modify (f : World -> World) :
  (forall w, R w (f w)) -> stays R (modify f).
Proof. intros Hf w. apply Hf. Qed.

Lemma stays_try_finally {A} (c : M A) (f : World -> World) :
  stays R c -> (forall w, R w (f w)) -> stays R (try_finally c f).
Proof.
  intros Hc Hf w. unfold try_finally.
  specialize (Hc w). destruct (c w) as [r w1]; simpl in *.
  etransitivity; [exact Hc | apply Hf].
Qed.

Lemma stays_if {A} (b : bool) (c1 c2 : M A) :
  stays R c1 -> stays R c2 -> stays R (if b then c1 else c2).
Proof. destruct b; auto. Qed.

End Framing.

Create HintDb frame.
#[export] Hint Resolve stays_ret stays_throw stays_gets stays_bind
  stays_try_catch stays_modify stays_try_finally stays_if : frame.

#[export] Instance detection_frame_preorder : PreOrder detection_frame.
Proof.
  split.
  - intros w. split; [reflexivity|]. exists []. rewrite app_nil_r. auto.
  - intros w1 w2 w3 [E1 (evs1 & T1 & F1)] [E2 (evs2 & T2 & F2)]. split.
    + congruence.
    + exists (evs1 ++ evs2). rewrite T2, T1, app_assoc. split; [reflexivity|].
      apply Forall_app; auto.
Qed.

#[export] Instance provider_frame_preorder : PreOrder provider_frame.
Proof.
  split.
  - intros w. split; [reflexivity|]. exists []. rewrite app_nil_r. auto.
  - intros w1 w2 w3 [E1 (evs1 & T1 & F1)] [E2 (evs2 & T2 & F2)]. split.
    + congruence.
    + exists (evs1 ++ evs2). rewrite T2, T1, app_assoc. split; [reflexivity|].
      apply Forall_app; auto.
Qed.

#[export] Hint Resolve detection_frame_preorder provider_frame_preorder : frame.

Lemma http_get_frame url : stays detection_frame (http_get url).
Proof.
  intros w. split; [reflexivity|].
  exists [EvHttpGet url]. split; [reflexivity|]. repeat constructor.
Qed.

Lemma sleep_frame ms : stays detection_frame (sleep ms).
Proof.
  intros w. split; [reflexivity|].
  exists [EvSleep ms]. split; [reflexivity|]. repeat constructor.
Qed.

#[export] Hint Resolve http_get_frame sleep_frame : frame.

Lemma retry_loop_frame max delays operation :
  stays detection_frame operation ->
  forall iterations attempt lastError,
    stays detection_frame
      (retry_loop max delays operation iterations attempt lastError).
Proof.
  intros Hop. induction iterations as [|n IH]; intros attempt lastError; simpl.
  - auto with frame.
  - apply stays_try_catch; [apply _ | exact Hop |].
    intros e. apply stays_bind; [apply _ | | intros; apply IH].
    destruct (attempt <? max)%nat; auto with frame.
Qed.

Lemma complete_stays R `{!PreOrder R} {A} (r : Completion A) :
  stays R (complete r).
Proof. intros w. reflexivity. Qed.

#[export] Hint Resolve complete_stays : frame.

Lemma IpDetector_httpRequest_frame url :
  stays detection_frame (IpDetector.httpRequest url).
Proof. unfold IpDetector.httpRequest. auto with frame. Qed.

Lemma IpDetector_getCurrentIp_frame :
  stays detection_frame IpDetector.getCurrentIp.
Proof.
  unfold IpDetector.getCurrentIp, IpDetector.fetchFromIpify,
    IpDetector.fetchFromIcanhazip, IpDetector.retryOperation,
    retryOperation_with.
  apply stays_try_catch; [apply _ | |].
  - apply retry_loop_frame, IpDetector_httpRequest_frame.
  - intros _. apply stays_try_catch; [apply _ | | auto with frame].
    apply retry_loop_frame, IpDetector_httpRequest_frame.
Qed.

Lemma makeRequest_frame url method payload :
  stays provider_frame (CloudflareService.makeRequest url method payload).
Proof.
  intros w. unfold CloudflareService.makeRequest.
  destruct (cf_net w (cf_requests w) _); simpl;
    (split; [reflexivity|]); eexists; (split; [reflexivity|]);
    repeat constructor.
Qed.

#[export] Hint Resolve makeRequest_frame : frame.

Lemma getDnsRecord_frame : stays provider_frame CloudflareService.getDnsRecord.
Proof.
  unfold CloudflareService.getDnsRecord.
  apply stays_try_catch; [apply _ | | auto with frame].
  apply stays_bind; [apply _ | auto with frame |]. intros e.
  apply stays_bind; [apply _ | auto with frame |]. intros response.
  apply stays_if; try apply _.
  - destruct (errors response); auto 6 with frame.
  - destruct (result response) as [[|record rest]|]; auto with frame.
Qed.

Lemma updateRecord_frame recordId newIp existingRecord :
  stays provider_frame
    (CloudflareService.updateRecord recordId newIp existingRecord).
Proof. unfold CloudflareService.updateRecord. auto 7 with frame. Qed.

Lemma updateDnsRecord_frame newIp :
  stays provider_frame (CloudflareService.updateDnsRecord newIp).
Proof.
  unfold CloudflareService.updateDnsRecord.
  apply stays_try_catch; [apply _ | | auto with frame].
  apply stays_bind; [apply _ | apply getDnsRecord_frame |].
  intros [record|]; auto with frame.
  apply stays_bind; [apply _ | apply updateRecord_frame | auto with frame].
Qed.

#[export] Hint Resolve getDnsRecord_frame updateRecord_frame
  updateDnsRecord_frame IpDetector_getCurrentIp_frame : frame.

Lemma detection_frame_same w w' :
  detection_frame w w' ->
  same_engine_and_storage w w' /\
  cf_net w' = cf_net w /\ cf_requests w' = cf_requests w /\
  ip_net w' = ip_net w.
Proof.
  intros [E _]. unfold besides_detection in E.
  repeat split.
  - exact (f_equal monitor E).
  - exact (f_equal env E).
  - exact (f_equal config_file E).
  - exact (f_equal config_writable E).
  - exact (f_equal history_file E).
  - exact (f_equal history_writable E).
  - exact (f_equal clock E).
  - exact (f_equal uuids E).
  - exact (f_equal timers E).
  - exact (f_equal next_timer E).
  - exact (f_equal cf_net E).
  - exact (f_equal cf_requests E).
  - exact (f_equal ip_net E).
Qed.

Lemma provider_frame_same w w' :
  provider_frame w w' ->
  same_engine_and_storage w w' /\
  cf_net w' = cf_net w /\ ip_net w' = ip_net w /\
  ip_requests w' = ip_requests w.
Proof.
  intros [E _]. unfold besides_provider in E.
  repeat split.
  - exact (f_equal monitor E).
  - exact (f_equal env E).
  - exact (f_equal config_file E).
  - exact (f_equal config_writable E).
  - exact (f_equal history_file E).
  - exact (f_equal history_writable E).
  - exact (f_equal clock E).
  - exact (f_equal uuids E).
  - exact (f_equal timers E).
  - exact (f_equal next_timer E).
  - exact (f_equal cf_net E).
  - exact (f_equal ip_net E).
  - exact (f_equal ip_requests E).
Qed.

(** ** The storage service, step by step *)

Lemma keep_last_10 {A} (l : list A) :
  (if 10 <? Z.of_nat (length l) then take 10 l else l) = take 10 l.
Proof.
  destruct (Z.ltb_spec 10 (Z.of_nat (length l))); [reflexivity|].
  symmetry. apply take_ge. lia.
Qed.

Lemma addUpdateEntry_ok entry w h :
  history_file w = Some h -> history_writable w = true ->
  StorageService.addUpdateEntry entry w =
    (Normal tt,
     emit (EvWriteHistory (history_after entry h))
       (with_history_file (Some (history_after entry h)) w)).
Proof.
  intros Hh Hw.
  unfold StorageService.addUpdateEntry, try_catch, mbind, M_bind, bind,
    StorageService.readHistory, StorageService.writeHistory.
  rewrite Hh, Hw, keep_last_10. reflexivity.
Qed.

Lemma addUpdateEntry_fails entry w :
  history_file w = None \/ history_writable w = false ->
  StorageService.addUpdateEntry entry w =
    (Throw (JsError "Failed to add update entry"), w).
Proof.
  intros H.
  unfold StorageService.addUpdateEntry, try_catch, mbind, M_bind, bind,
    StorageService.readHistory, StorageService.writeHistory.
  destruct (history_file w) as [h|]; [|reflexivity].
  destruct H as [H|H]; [discriminate|]. now rewrite H.
Qed.

Lemma updateLastKnownIp_ok ip w c :
  config_file w = Some c -> config_writable w = true ->
  StorageService.updateLastKnownIp ip w =
    (Normal tt,
     emit (EvWriteConfig (config_with_ip ip (clock w) c))
       (with_config_file (Some (config_with_ip ip (clock w) c)) w)).
Proof.
  intros Hc Hw.
  unfold StorageService.updateLastKnownIp, try_catch, mbind, M_bind, bind,
    StorageService.readConfig, StorageService.writeConfig.
  rewrite Hc, Hw. reflexivity.
Qed.

Lemma updateLastKnownIp_fails ip w :
  config_file w = None \/ config_writable w = false ->
  StorageService.updateLastKnownIp ip w =
    (Throw (JsError "Failed to update last known IP"), w).
Proof.
  intros H.
  unfold StorageService.updateLastKnownIp, try_catch, mbind, M_bind, bind,
    StorageService.readConfig, StorageService.writeConfig.
  destruct (config_file w) as [c|]; [|reflexivity].
  destruct H as [H|H]; [discriminate|]. now rewrite H.
Qed.

(** ** The provider service, step by step *)

(** [updateDnsRecord] never throws: every failure inside is its [false]. *)
Lemma updateDnsRecord_returns newIp w :
  exists ok w', CloudflareService.updateDnsRecord newIp w = (Normal ok, w').
Proof.
  unfold CloudflareService.updateDnsRecord, try_catch.
  match goal with |- context [match ?c with _ => _ end] => destruct c as [[ok|e] w'] end;
    eauto.
Qed.

(** ** One cycle, step by step *)

Lemma dns_read_step w1 rd w2 :
  CloudflareService.getDnsRecord w1 = (rd, w2) ->
  try_catch
    (dnsRecord ← CloudflareService.getDnsRecord;
     mret (js_or (rec_content <$> dnsRecord) None, true))
    (fun _ => mret (None, false)) w1
  = (Normal (dns_read_ip rd, dns_read_accessible rd), w2).
Proof.
  intros H. unfold try_catch, mbind, M_bind, bind. rewrite H.
  destruct rd; reflexivity.
Qed.

Lemma check_body_no_change w0 ip w1 cfg rd w2 :
  IpDetector.getCurrentIp w0 = (Normal ip, w1) ->
  config_file w1 = Some cfg ->
  CloudflareService.getDnsRecord w1 = (rd, w2) ->
  ip_changed (lastKnownIp cfg) ip rd = false ->
  IpMonitor.check_body w0 =
    (Normal (IpMonitor.mkCheckResult false ip), with_status active w2).
Proof.
  intros Hdet Hcfg Hdns Hch.
  unfold IpMonitor.check_body.
  rewrite (bind_normal _ _ _ _ _ Hdet).
  assert (Hrc : StorageService.readConfig w1 = (Normal cfg, w1))
    by (unfold StorageService.readConfig; now rewrite Hcfg).
  rewrite (bind_normal _ _ _ _ _ Hrc).
  rewrite (bind_normal _ _ _ _ _ (dns_read_step _ _ _ Hdns)).
  unfold ip_changed in Hch. rewrite Hch.
  reflexivity.
Qed.

Lemma check_body_change w0 ip w1 cfg rd w2 ok w4 h :
  IpDetector.getCurrentIp w0 = (Normal ip, w1) ->
  config_file w1 = Some cfg ->
  CloudflareService.getDnsRecord w1 = (rd, w2) ->
  ip_changed (lastKnownIp cfg) ip rd = true ->
  config_file w2 = Some cfg -> config_writable w2 = true ->
  CloudflareService.updateDnsRecord ip (persisted ip cfg w2) = (Normal ok, w4) ->
  history_file w4 = Some h -> history_writable w4 = true ->
  let w5 := recorded (change_entry w4 cfg ip rd ok) h w4 in
  IpMonitor.check_body w0 =
    if is_test_mode (env w4) rd || ok
    then (Normal (IpMonitor.mkCheckResult true ip), with_status active w5)
    else (Throw (JsError "DNS update failed: "), with_status error w5).
Proof.
  intros Hdet Hcfg Hdns Hch Hcfg2 Hcw Hupd Hh Hhw w5.
  unfold IpMonitor.check_body.
  rewrite (bind_normal _ _ _ _ _ Hdet).
  assert (Hrc : StorageService.readConfig w1 = (Normal cfg, w1))
    by (unfold StorageService.readConfig; now rewrite Hcfg).
  rewrite (bind_normal _ _ _ _ _ Hrc).
  rewrite (bind_normal _ _ _ _ _ (dns_read_step _ _ _ Hdns)).
  unfold ip_changed in Hch. rewrite Hch.
  unfold mbind, M_bind, bind, try_catch.
  rewrite (updateLastKnownIp_ok ip w2 cfg Hcfg2 Hcw).
  unfold persisted in Hupd. rewrite Hupd.
  cbv beta iota zeta delta [randomUUID now gets mret M_ret ret].
  rewrite (addUpdateEntry_ok _ _ h) by (simpl; assumption).
  subst w5. unfold is_test_mode, recorded, change_entry, with_status. simpl.
  destruct (IpMonitor.includes_test (CLOUDFLARE_API_TOKEN (env w4))
            || IpMonitor.includes_test (CLOUDFLARE_ZONE_ID (env w4))
            || negb (dns_read_accessible rd)); simpl; [reflexivity|].
  destruct ok; reflexivity.
Qed.

Lemma performIpCheck_settle_normal w0 r w' :
  IpMonitor.check_body w0 = (Normal r, w') ->
  IpMonitor.performIpCheck_settle w0 =
    (Normal r, IpMonitor.set_isChecking false w').
Proof.
  intros H. unfold IpMonitor.performIpCheck_settle, try_finally, try_catch.
  now rewrite H.
Qed.

Lemma check_failed_throws e w :
  IpMonitor.check_failed e w = (Throw e, failure_recorded w).
Proof.
  unfold IpMonitor.check_failed, failure_recorded.
  unfold mbind, M_bind, bind, try_catch.
  cbv beta iota zeta delta [randomUUID now gets mret M_ret ret throw
    IpMonitor.set_status modify].
  destruct (history_file w) as [h|] eqn:Hh.
  - destruct (history_writable w) eqn:Hw.
    + rewrite (addUpdateEntry_ok _ _ h) by (simpl; assumption). reflexivity.
    + rewrite addUpdateEntry_fails by (right; simpl; assumption). reflexivity.
  - rewrite addUpdateEntry_fails by (left; simpl; assumption). reflexivity.
Qed.

Lemma performIpCheck_settle_throw w0 e w' :
  IpMonitor.check_body w0 = (Throw e, w') ->
  IpMonitor.performIpCheck_settle w0 =
    (Throw e, IpMonitor.set_isChecking false (failure_recorded w')).
Proof.
  intros H. unfold IpMonitor.performIpCheck_settle, try_finally, try_catch.
  now rewrite H, check_failed_throws.
Qed.

Lemma performIpCheck_from_entered w :
  IpMonitor.performIpCheck w = IpMonitor.performIpCheck_settle (entered w).
Proof. reflexivity. Qed.

(** ** The provider write *)

Lemma getDnsRecord_one_request w :
  exists url,
    let request := mkCfRequest url GET None in
    (CloudflareService.getDnsRecord w).2 = requested request w /\
    forall record,
      (CloudflareService.getDnsRecord w).1 = Normal (Some record) ->
      exists response rest,
        cf_net w (cf_requests w) request = CfResolve response /\
        success response = true /\
        result response = Some (record :: rest).
Proof.
  exists (CloudflareService.BASE_URL +:+ "/zones/"
            +:+ template (CLOUDFLARE_ZONE_ID (env w))
            +:+ "/dns_records?name=" +:+ template (DNS_RECORD_NAME (env w))
            +:+ "&type=A").
  unfold CloudflareService.getDnsRecord, try_catch, mbind, M_bind, bind,
    CloudflareService.makeRequest, gets, requested.
  cbv zeta.
  destruct (cf_net w (cf_requests w) _) as [response|message];
    [|split; [reflexivity|discriminate]].
  destruct (success response) eqn:Hs; simpl.
  - destruct (result response) as [[|record rest]|] eqn:Hr;
      (split; [reflexivity|]); try discriminate.
    intros record' [= <-]. eauto.
  - destruct (errors response) as [|err rest];
      [split; [reflexivity|discriminate]|].
    destruct (code err =? 10001); [split; [reflexivity|discriminate]|].
    destruct (code err =? 7003); split; try reflexivity; discriminate.
Qed.

Lemma updateRecord_one_request recordId newIp record w :
  exists url payload,
    payload_for record newIp payload /\
    let request := mkCfRequest url PUT (Some payload) in
    (CloudflareService.updateRecord recordId newIp record w).2 =
      requested request w /\
    (answered_success w (cf_requests w) request = true ->
     (CloudflareService.updateRecord recordId newIp record w).1 = Normal tt) /\
    (answered_success w (cf_requests w) request = false ->
     exists e,
       (CloudflareService.updateRecord recordId newIp record w).1 = Throw e).
Proof.
  exists (CloudflareService.BASE_URL +:+ "/zones/"
            +:+ template (CLOUDFLARE_ZONE_ID (env w))
            +:+ "/dns_records/" +:+ recordId).
  exists (mkPayload (rec_type record) (rec_name record) newIp (rec_ttl record)
            (default false (rec_proxied record))).
  split; [repeat split|].
  unfold CloudflareService.updateRecord, mbind, M_bind, bind,
    CloudflareService.makeRequest, gets, requested, answered_success.
  cbv zeta.
  match goal with
  | |- context [cf_net w (cf_requests w) ?r] =>
      destruct (cf_net w (cf_requests w) r) as [response|message]
  end; simpl.
  - destruct (success response); simpl; repeat split; intros;
      try discriminate; eauto.
  - repeat split; intros; try discriminate; eauto.
Qed.

Lemma answered_read w request record :
  (exists response rest,
     cf_net w (cf_requests w) request = CfResolve response /\
     success response = true /\
     result response = Some (record :: rest)) ->
  answered_success w (cf_requests w) request = true.
Proof.
  intros (response & rest & H & Hs & _). unfold answered_success.
  now rewrite H.
Qed.

(** C9.  Every provider write, [CloudflareService.updateDnsRecord], returns a
    boolean and never throws.  When its read of the base record yields a
    record, it issues exactly one update call (one PUT after the GET), whose
    body carries the record's type, name, ttl and proxied flag (false when the
    record has none) with the content replaced by the new IP, and it returns
    true exactly when the provider answers that call with success; a
    rejected call (transport error) or a non-success answer gives false.
    When the read yields no record, or fails, no update call is issued and the
    result is false.  A record is read only from an answer with success. *)
Theorem updateDnsRecord_single_preserving_write (newIp : string) (w : World) :
  exists ok w' read_url,
    CloudflareService.updateDnsRecord newIp w = (Normal ok, w') /\
    let w1 := requested (mkCfRequest read_url GET None) w in
    match (CloudflareService.getDnsRecord w).1 with
    | Normal (Some record) =>
        exists url payload,
          let request := mkCfRequest url PUT (Some payload) in
          answered_success w (cf_requests w) (mkCfRequest read_url GET None)
            = true /\
          payload_for record newIp payload /\
          w' = requested request w1 /\
          ok = answered_success w1 (cf_requests w1) request
    | _ => w' = w1 /\ ok = false
    end.
Proof.
  destruct (getDnsRecord_one_request w) as (read_url & Hread & Hsome).
  unfold CloudflareService.updateDnsRecord, try_catch, mbind, M_bind.
  unfold bind at 1.
  destruct (CloudflareService.getDnsRecord w) as [[[record|]|e] w1] eqn:Hget;
    simpl in Hread; subst w1; simpl.
  - destruct (updateRecord_one_request (rec_id record) newIp record
                (requested (mkCfRequest read_url GET None) w))
      as (url & payload & Hpay & Hw & Hok & Hfail).
    cbv zeta in Hw, Hok, Hfail.
    unfold bind.
    destruct (CloudflareService.updateRecord _ _ _ _) as [[[]|e] w2] eqn:Hupd;
      simpl in Hw; subst w2.
    + exists true. do 2 eexists. split; [reflexivity|].
      exists url, payload. split; [apply (answered_read _ _ record), Hsome; reflexivity|].
      repeat split; try apply Hpay.
      destruct (answered_success _ _ _) eqn:Ha; [reflexivity|].
      destruct (Hfail eq_refl) as [e He]. discriminate.
    + exists false. do 2 eexists. split; [reflexivity|].
      exists url, payload. split; [apply (answered_read _ _ record), Hsome; reflexivity|].
      repeat split; try apply Hpay.
      destruct (answered_success _ _ _) eqn:Ha; [|reflexivity].
      specialize (Hok eq_refl). discriminate.
  - exists false. do 2 eexists. split; [reflexivity|]. simpl. auto.
  - exists false. do 2 eexists. split; [reflexivity|]. simpl. auto.
Qed.

(** ** Detection: retries and fallback

    A detector works through a schedule of requests, one URL after the
    other; what it returns is decided by the answers to them.  The section
    is shared by the two detectors, which differ in [settle] and in the
    pauses. *)

Lemma urls_requested_app evs1 evs2 :
  urls_requested (evs1 ++ evs2) = urls_requested evs1 ++ urls_requested evs2.
Proof. apply omap_app. Qed.

Section Detection.

Variable settle : string -> HttpOutcome -> Completion string.
Variable MAX_RETRIES : nat.
Variable RETRY_DELAYS : list Z.

Lemma first_success_lt w urls : forall i k ip,
  first_success settle w urls i = Some (k, ip) -> (k < length urls)%nat.
Proof.
  induction urls as [|url rest IH]; intros i k ip; simpl; [discriminate|].
  destruct (answer settle w i url); [intros [= <- _]; lia|].
  destruct (first_success settle w rest (S i)) as [[k' ip']|] eqn:E; [|discriminate].
  intros [= <- _]. apply IH in E. lia.
Qed.

Lemma first_success_app w urls1 urls2 : forall i,
  first_success settle w (urls1 ++ urls2) i =
    match first_success settle w urls1 i with
    | Some found => Some found
    | None =>
        match first_success settle w urls2 (i + length urls1) with
        | Some (k, ip) => Some ((length urls1 + k)%nat, ip)
        | None => None
        end
    end.
Proof.
  induction urls1 as [|url rest IH]; intros i; simpl.
  - rewrite Nat.add_0_r. destruct (first_success settle w urls2 i) as [[k ip]|];
      reflexivity.
  - destruct (answer settle w i url); [reflexivity|].
    rewrite IH. destruct (first_success settle w rest (S i)) as [[k ip]|];
      [reflexivity|].
    replace (S i + length rest)%nat with (i + S (length rest))%nat by lia.
    destruct (first_success settle w urls2 _) as [[k ip]|]; reflexivity.
Qed.

Lemma retry_loop_step url iterations attempt lastError w :
  retry_loop MAX_RETRIES RETRY_DELAYS (request settle url) (S iterations) attempt
    lastError w =
  match settle url (ip_net w (ip_requests w) url) with
  | Normal ip => (Normal ip, asked url w)
  | Throw e =>
      retry_loop MAX_RETRIES RETRY_DELAYS (request settle url) iterations
        (S attempt) e (paused MAX_RETRIES RETRY_DELAYS attempt (asked url w))
  end.
Proof.
  simpl. unfold try_catch, request at 1, mbind at 1, M_bind at 1, bind at 1,
    http_get, complete, asked, paused.
  destruct (settle url (ip_net w (ip_requests w) url)); [reflexivity|].
  unfold mbind, M_bind, bind.
  destruct (attempt <? MAX_RETRIES)%nat; reflexivity.
Qed.

Lemma paused_trace attempt w :
  exists evs,
    trace (paused MAX_RETRIES RETRY_DELAYS attempt w) = trace w ++ evs /\ urls_requested evs = [] /\
    ip_net (paused MAX_RETRIES RETRY_DELAYS attempt w) = ip_net w /\
    ip_requests (paused MAX_RETRIES RETRY_DELAYS attempt w) = ip_requests w.
Proof.
  unfold paused. destruct (attempt <? MAX_RETRIES)%nat.
  - eexists [_]. repeat split.
  - exists []. rewrite app_nil_r. repeat split.
Qed.

Lemma retry_loop_scans url base : forall iterations attempt lastError w i0,
  ip_net w = ip_net base ->
  ip_requests w = (ip_requests base + i0)%nat ->
  (0 < iterations)%nat ->
  let run :=
    retry_loop MAX_RETRIES RETRY_DELAYS (request settle url) iterations attempt
      lastError w in
  scans settle base i0 (replicate iterations url) w run.1 run.2.
Proof.
  induction iterations as [|n IH]; intros attempt lastError w i0 Hnet Hreq Hpos;
    [lia|].
  cbv zeta. rewrite retry_loop_step.
  unfold scans. cbn [replicate first_success].
  unfold answer at 1. rewrite <- Hreq, <- Hnet.
  destruct (settle url (ip_net w (ip_requests w) url)) as [ip|e] eqn:Hans.
  - exists [EvHttpGet url]. simpl. repeat split; auto. lia.
  - destruct (paused_trace attempt (asked url w))
      as (evs1 & Ht1 & Hu1 & Hn1 & Hq1).
    destruct n as [|n].
    + (* that was the last attempt *)
      simpl. exists ([EvHttpGet url] ++ evs1). rewrite Ht1. simpl.
      rewrite <- app_assoc. repeat split; eauto.
      * now rewrite Hu1.
      * rewrite Hq1. simpl. lia.
    + specialize (IH (S attempt) e (paused MAX_RETRIES RETRY_DELAYS attempt (asked url w)) (S i0)).
      destruct IH as (evs & Ht & Hn & Hm);
        [now rewrite Hn1 | rewrite Hq1; simpl; lia | lia |].
      exists ([EvHttpGet url] ++ evs1 ++ evs).
      split; [rewrite Ht, Ht1; simpl; now rewrite <- !app_assoc|].
      split; [congruence|].
      destruct (first_success settle base (replicate (S n) url) (S i0))
        as [[k ip]|]; destruct Hm as (Hr & Hu & Hq).
      * split; [exact Hr|]. split.
        -- rewrite !urls_requested_app, Hu1, Hu. reflexivity.
        -- rewrite Hq, Hreq. lia.
      * split; [exact Hr|]. split.
        -- rewrite !urls_requested_app, Hu1, Hu. reflexivity.
        -- rewrite Hq, Hreq. simpl. lia.
Qed.

End Detection.

Lemma IpDetector_getCurrentIp_scans w :
  let run := IpDetector.getCurrentIp w in
  scans IpDetector.settle_response w 0 IpDetector_schedule w run.1 run.2 /\
  (first_success IpDetector.settle_response w IpDetector_schedule 0 = None ->
   run.1 = Throw (JsError "Failed to detect IP address")).
Proof.
  cbv zeta.
  destruct (IpDetector.getCurrentIp w) as [r w'] eqn:Hrun. cbn [fst snd].
  unfold IpDetector.getCurrentIp, IpDetector.fetchFromIpify,
    IpDetector.fetchFromIcanhazip, IpDetector.retryOperation,
    retryOperation_with, try_catch in Hrun.
  unfold IpDetector_schedule, scans.
  set (n := S IpDetector.MAX_RETRIES) in *.
  pose proof (retry_loop_scans IpDetector.settle_response
                IpDetector.MAX_RETRIES IpDetector.RETRY_DELAYS
                IpDetector.ipify_url w n 0%nat JsUndefined w 0%nat
                eq_refl (eq_sym (Nat.add_0_r _)) (Nat.lt_0_succ _)) as H1.
  cbv zeta in H1. unfold scans in H1.
  change (request IpDetector.settle_response) with IpDetector.httpRequest in H1.
  rewrite first_success_app, length_replicate.
  destruct (retry_loop _ _ (IpDetector.httpRequest IpDetector.ipify_url) n 0%nat
              JsUndefined w) as [r1 w1].
  cbn [fst snd] in H1. destruct H1 as (evs1 & Ht1 & Hn1 & Hm1).
  destruct (first_success _ w (replicate n IpDetector.ipify_url) 0)
    as [[k ip]|] eqn:Hf1.
  - destruct Hm1 as (-> & Hu1 & Hq1). injection Hrun as <- <-.
    split; [|intros Hnone; cbv beta iota in Hnone; discriminate].
    exists evs1. repeat split; auto.
    rewrite Hu1. symmetry. apply take_app_le.
    apply first_success_lt in Hf1. lia.
  - destruct Hm1 as ([e1 ->] & Hu1 & Hq1).
    rewrite length_replicate, Nat.add_0_r in Hq1.
    pose proof (retry_loop_scans IpDetector.settle_response
                  IpDetector.MAX_RETRIES IpDetector.RETRY_DELAYS
                  IpDetector.icanhazip_url w n 0%nat JsUndefined w1 n
                  Hn1 Hq1 (Nat.lt_0_succ _)) as H2.
    cbv zeta in H2. unfold scans in H2.
    change (request IpDetector.settle_response) with IpDetector.httpRequest
      in H2.
    destruct (retry_loop _ _ (IpDetector.httpRequest IpDetector.icanhazip_url)
                n 0%nat JsUndefined w1) as [r2 w2].
    cbn [fst snd] in H2. destruct H2 as (evs2 & Ht2 & Hn2 & Hm2).
    rewrite Nat.add_0_l.
    destruct (first_success _ w (replicate n IpDetector.icanhazip_url) _)
      as [[k ip]|] eqn:Hf2.
    + destruct Hm2 as (-> & Hu2 & Hq2). injection Hrun as <- <-.
      split; [|intros Hnone; cbv beta iota in Hnone; discriminate].
      exists (evs1 ++ evs2). rewrite Ht2, Ht1, app_assoc.
      repeat split; auto.
      * rewrite urls_requested_app, Hu1, Hu2.
        rewrite take_app_ge by (rewrite length_replicate; lia).
        rewrite length_replicate.
        replace (S (n + k) - n)%nat with (S k) by lia. reflexivity.
      * lia.
    + destruct Hm2 as ([e2 ->] & Hu2 & Hq2). injection Hrun as <- <-.
      split; [|reflexivity].
      exists (evs1 ++ evs2). rewrite Ht2, Ht1, app_assoc.
      repeat split; eauto.
      * now rewrite urls_requested_app, Hu1, Hu2.
      * rewrite length_app, !length_replicate in *. lia.
Qed.

Lemma attempts_of_urls url urls evs :
  urls_requested evs = urls ->
  attempts_against url evs = length (List.filter (String.eqb url) urls).
Proof. intros <-. reflexivity. Qed.

(** C5, as stated, fails, in two ways.  Source A always times out and
    source B returns 203.0.113.7: detection returns 203.0.113.7, and source
    A has been asked four times, which is not its configured retry count
    [MAX_RETRIES] = 3.  Source A answers 200 with the text [not an address]
    and source B would return 203.0.113.7: detection returns [not an
    address] after its first request, the answer of the first source, which
    is no address string, and not that of the first source that yields
    one. *)
Lemma detection_counts_four_and_checks_no_syntax :
  (let run := IpDetector.getCurrentIp Scenario.fallback_world in
   (forall n,
      ip_net Scenario.fallback_world n IpDetector.ipify_url = HttpTimeout) /\
   (forall n,
      IpDetector.settle_response IpDetector.icanhazip_url
        (ip_net Scenario.fallback_world n IpDetector.icanhazip_url)
      = Normal "203.0.113.7") /\
   run.1 = Normal "203.0.113.7" /\
   attempts_against IpDetector.ipify_url (trace run.2) = 4%nat /\
   attempts_against IpDetector.ipify_url (trace run.2)
     <> IpDetector.MAX_RETRIES) /\
  (let run := IpDetector.getCurrentIp garbled_world in
   spec_address_characters "not an address" = false /\
   spec_address_characters "203.0.113.7" = true /\
   (forall n,
      IpDetector.settle_response IpDetector.icanhazip_url
        (ip_net garbled_world n IpDetector.icanhazip_url)
      = Normal "203.0.113.7") /\
   run.1 = Normal "not an address" /\
   urls_requested (trace run.2) = [IpDetector.ipify_url]).
Proof. vm_compute. repeat split; intros; discriminate. Qed.

Lemma first_success_all_fail settle w url n : forall i,
  (forall k, exists e, settle url (ip_net w k url) = Throw e) ->
  first_success settle w (replicate n url) i = None.
Proof.
  induction n as [|n IH]; intros i Hfail; [reflexivity|].
  simpl. unfold answer. destruct (Hfail (ip_requests w + i)%nat) as [e ->].
  now rewrite IH.
Qed.

(** A schedule yields nothing exactly when each of its requests fails. *)
Lemma first_success_none_iff settle w urls : forall i,
  first_success settle w urls i = None <->
  forall k url, urls !! k = Some url ->
    exists e, answer settle w (i + k) url = Throw e.
Proof.
  induction urls as [|u rest IH]; intros i; simpl.
  - split; [intros _ k url Hk; rewrite lookup_nil in Hk; discriminate | auto].
  - split.
    + intros H k url Hk.
      destruct (answer settle w i u) as [ip|e] eqn:Ha; [discriminate|].
      destruct (first_success settle w rest (S i)) as [[k' ip]|] eqn:Hf;
        [discriminate|].
      destruct k as [|k]; simpl in Hk.
      * injection Hk as <-. rewrite Nat.add_0_r. eauto.
      * replace (i + S k)%nat with (S i + k)%nat by lia.
        now apply (proj1 (IH (S i)) Hf).
    + intros H.
      destruct (H 0%nat u eq_refl) as [e He]. rewrite Nat.add_0_r in He.
      rewrite He.
      rewrite (proj2 (IH (S i))); [reflexivity|].
      intros k url Hk. replace (S i + k)%nat with (i + S k)%nat by lia.
      now apply H.
Qed.

(** The answers [httpRequest] resolves: status 200 and, where the address
    is read from, a string that is not empty once trimmed.  Nothing else is
    asked of the string. *)
Lemma IpDetector_settle_response_iff url outcome ip :
  IpDetector.settle_response url outcome = Normal ip <->
  exists statusMessage body text,
    outcome = HttpResponse 200 statusMessage body /\
    answer_text url body = Some text /\
    ip = trim text /\ ip <> "".
Proof.
  unfold answer_text. split.
  - destruct outcome as [| m | statusCode statusMessage body];
      cbn [IpDetector.settle_response]; try discriminate.
    destruct (statusCode =? 200) eqn:Hcode; cbv beta iota delta [negb];
      [|discriminate].
    apply Z.eqb_eq in Hcode as ->.
    intros H. exists statusMessage, body.
    destruct (includes "ipify" url).
    + destruct (json_field body "ip") as [s| |e];
        cbv beta iota delta [catch_completion] in H; try discriminate.
      destruct (truthy (Some (trim s))) eqn:Ht; [|discriminate].
      injection H as <-. exists s. repeat split.
      intros E. rewrite E in Ht. discriminate.
    + destruct (truthy (Some (trim (data body)))) eqn:Ht;
        cbv beta iota delta [catch_completion] in H; [|discriminate].
      injection H as <-. exists (data body). repeat split.
      intros E. rewrite E in Ht. discriminate.
  - intros (statusMessage & body & text & -> & Htext & -> & Hne).
    cbn [IpDetector.settle_response]. cbn [Z.eqb Pos.eqb negb].
    assert (Ht : truthy (Some (trim text)) = true).
    { unfold truthy.
      destruct (String.eqb_spec (trim text) ""); [contradiction | reflexivity]. }
    destruct (includes "ipify" url).
    + destruct (json_field body "ip") as [s| |e]; try discriminate.
      injection Htext as ->. now rewrite Ht.
    + injection Htext as ->. now rewrite Ht.
Qed.

(** C5, amended.  [IpDetector.getCurrentIp] works through its schedule, the
    primary service [MAX_RETRIES + 1] times and then the fallback as often,
    and stops at the first request that [httpRequest] resolves (status 200
    and a string that is not empty once trimmed; the string is not looked at
    any further): it returns that string and asks nothing more.  It throws
    its detection error only when every request of the schedule has failed.
    When the primary always fails and the fallback answers [ip], it returns
    [ip], and the primary has been asked [MAX_RETRIES + 1] times: the first
    attempt and [MAX_RETRIES] retries. *)
Theorem detection_first_success_and_fallback (w : World) :
  let run := IpDetector.getCurrentIp w in
  (forall url outcome ip,
     IpDetector.settle_response url outcome = Normal ip <->
     exists statusMessage body text,
       outcome = HttpResponse 200 statusMessage body /\
       answer_text url body = Some text /\
       ip = trim text /\ ip <> "") /\
  exists evs,
    trace run.2 = trace w ++ evs /\
    match first_success IpDetector.settle_response w IpDetector_schedule 0 with
    | Some (failed, ip) =>
        run.1 = Normal ip /\
        urls_requested evs = take (S failed) IpDetector_schedule
    | None =>
        run.1 = Throw (JsError "Failed to detect IP address") /\
        urls_requested evs = IpDetector_schedule
    end /\
    forall ip,
      (forall n, exists e,
         IpDetector.settle_response IpDetector.ipify_url
           (ip_net w n IpDetector.ipify_url) = Throw e) ->
      (forall n,
         IpDetector.settle_response IpDetector.icanhazip_url
           (ip_net w n IpDetector.icanhazip_url) = Normal ip) ->
      run.1 = Normal ip /\
      urls_requested evs =
        replicate (S IpDetector.MAX_RETRIES) IpDetector.ipify_url
        ++ [IpDetector.icanhazip_url] /\
      attempts_against IpDetector.ipify_url evs = S IpDetector.MAX_RETRIES.
Proof.
  cbv zeta. split; [exact IpDetector_settle_response_iff|].
  destruct (IpDetector_getCurrentIp_scans w) as [(evs & Ht & _ & Hm) Hnone].
  exists evs. split; [exact Ht|]. split.
  - destruct (first_success _ w IpDetector_schedule 0) as [[k ip]|].
    + destruct Hm as (Hr & Hu & _). auto.
    + destruct Hm as (_ & Hu & _). auto.
  - intros ip Hfail Hok.
    assert (Hf : first_success IpDetector.settle_response w
                   IpDetector_schedule 0 = Some (4%nat, ip)).
    { unfold IpDetector_schedule. rewrite first_success_app.
      rewrite (first_success_all_fail _ _ _ _ _ Hfail).
      rewrite length_replicate. simpl. unfold answer. now rewrite Hok. }
    rewrite Hf in Hm. destruct Hm as (Hr & Hu & _).
    split; [exact Hr|]. split; [exact Hu|].
    rewrite (attempts_of_urls _ _ _ Hu). reflexivity.
Qed.

Lemma detection_first_success_and_fallback_witness :
  let run := IpDetector.getCurrentIp Scenario.fallback_world in
  run.1 = Normal "203.0.113.7" /\
  exists evs,
    trace run.2 = trace Scenario.fallback_world ++ evs /\
    attempts_against IpDetector.ipify_url evs = 4%nat.
Proof.
  cbv zeta.
  destruct (detection_first_success_and_fallback Scenario.fallback_world)
    as (_ & evs & Ht & _ & Hfallback).
  destruct (Hfallback "203.0.113.7") as (Hr & _ & Ha).
  - intros n. eexists. reflexivity.
  - intros n. reflexivity.
  - split; [exact Hr|]. exists evs. split; [exact Ht | exact Ha].
Defined.

(** ** The cycle as a whole *)

(** The stretch of a cycle up to the comparison: detection, then the read of
    the DNS record, leave the engine's fields and the persisted state as the
    prologue left them. *)
Lemma cycle_reads_frame w r1 w1 rd w2 :
  IpDetector.getCurrentIp (entered w) = (r1, w1) ->
  CloudflareService.getDnsRecord w1 = (rd, w2) ->
  same_engine_and_storage (entered w) w1 /\
  same_engine_and_storage (entered w) w2 /\
  exists evs1 evs2,
    trace w1 = trace w ++ evs1 /\ Forall detection_event evs1 /\
    trace w2 = trace w1 ++ evs2 /\ Forall provider_event evs2.
Proof.
  intros Hdet Hdns.
  pose proof (IpDetector_getCurrentIp_frame (entered w)) as F1.
  rewrite Hdet in F1. simpl in F1.
  pose proof (getDnsRecord_frame w1) as F2. rewrite Hdns in F2. simpl in F2.
  destruct (detection_frame_same _ _ F1) as (S1 & _).
  destruct (provider_frame_same _ _ F2) as (S2 & _).
  destruct F1 as [_ (evs1 & T1 & E1)]. destruct F2 as [_ (evs2 & T2 & E2)].
  split; [exact S1|]. split.
  - destruct S1, S2. split; congruence.
  - exists evs1, evs2. auto.
Qed.

Lemma changed_cycle_run w ip w1 cfg rd w2 h :
  IpDetector.getCurrentIp (entered w) = (Normal ip, w1) ->
  config_file w = Some cfg -> config_writable w = true ->
  history_file w = Some h -> history_writable w = true ->
  CloudflareService.getDnsRecord w1 = (rd, w2) ->
  ip_changed (lastKnownIp cfg) ip rd = true ->
  exists ok w4,
    CloudflareService.updateDnsRecord ip (persisted ip cfg w2) = (Normal ok, w4)
    /\ provider_frame (persisted ip cfg w2) w4
    /\ clock w2 = clock w
    /\ let w5 := recorded (change_entry w cfg ip rd ok) h w4 in
       IpMonitor.performIpCheck w =
         if is_test_mode (env w) rd || ok
         then (Normal (IpMonitor.mkCheckResult true ip),
               IpMonitor.set_isChecking false (with_status active w5))
         else (Throw (JsError "DNS update failed: "),
               IpMonitor.set_isChecking false
                 (failure_recorded (with_status error w5))).
Proof.
  intros Hdet Hcfg Hcw Hh Hhw Hdns Hch.
  destruct (cycle_reads_frame _ _ _ _ _ Hdet Hdns) as (S1 & S2 & _).
  destruct (updateDnsRecord_returns ip (persisted ip cfg w2)) as (ok & w4 & Hupd).
  pose proof (updateDnsRecord_frame ip (persisted ip cfg w2)) as F4.
  rewrite Hupd in F4. simpl in F4.
  destruct (provider_frame_same _ _ F4) as (S4 & _).
  exists ok, w4. split; [exact Hupd|]. split; [exact F4|].
  destruct S1, S2, S4. simpl in *.
  split; [congruence|].
  assert (Hentry : change_entry w4 cfg ip rd ok = change_entry w cfg ip rd ok).
  { unfold change_entry. f_equal; congruence. }
  assert (Henv : env w4 = env w) by congruence.
  rewrite performIpCheck_from_entered.
  pose proof (check_body_change (entered w) ip w1 cfg rd w2 ok w4 h Hdet
                ltac:(congruence) Hdns Hch ltac:(congruence)
                ltac:(congruence) Hupd ltac:(congruence) ltac:(congruence))
    as Hbody.
  cbv zeta in Hbody. rewrite Hentry, Henv in Hbody.
  destruct (is_test_mode (env w) rd || ok).
  - now apply performIpCheck_settle_normal.
  - now apply performIpCheck_settle_throw.
Qed.

Lemma js_or_dns_read rd fallback :
  js_or (dns_read_ip rd) fallback = from_option Some fallback (dns_read_ip rd).
Proof.
  destruct rd as [[record|]|e]; try reflexivity.
  unfold dns_read_ip, js_or. simpl.
  destruct (negb (String.eqb (rec_content record) "")) eqn:E; simpl.
  - now rewrite E.
  - reflexivity.
Qed.

(** What is left of a changed cycle whose body has thrown after recording
    its entry: the failure entry on top. *)
Lemma failure_after_recorded entry h w4 :
  history_writable w4 = true ->
  let w5 := with_status error (recorded entry h w4) in
  failure_recorded w5 =
    recorded (failure_entry w5) (history_after entry h) w5.
Proof. intros Hw. unfold failure_recorded. simpl. now rewrite Hw. Qed.

(** C1.  In a cycle in which detection yields [ip], the DNS record read
    returns and [ip] differs from the persisted last-known IP (the persisted
    state being readable and writable): the engine first persists [ip] as
    the last-known IP; from that state it calls the provider write with
    [ip]; then it appends an entry whose [oldIp] is the IP read from DNS if
    there is one and the previous persisted IP otherwise, whose [newIp] is
    [ip], whose outcome is success exactly when the write succeeded and
    whose [dnsRecordUpdated] is the write's flag.  The trace shows the
    order: the config write, the provider's requests, the history write.
    When the write succeeds the cycle returns with status [active]. *)
Theorem changed_cycle_persists_then_writes
    (w w1 w2 : World) (ip : string) (cfg : Config) (h : UpdateHistory)
    (record : option CloudflareRecord) :
  IpDetector.getCurrentIp (entered w) = (Normal ip, w1) ->
  config_file w = Some cfg -> config_writable w = true ->
  history_file w = Some h -> history_writable w = true ->
  CloudflareService.getDnsRecord w1 = (Normal record, w2) ->
  lastKnownIp cfg <> Some ip ->
  let rd := Normal record in
  let cfg' := config_with_ip ip (clock w) cfg in
  let run := IpMonitor.performIpCheck w in
  exists ok w4 evs_write evs_tail,
    config_file (persisted ip cfg w2) = Some cfg' /\
    lastKnownIp cfg' = Some ip /\
    CloudflareService.updateDnsRecord ip (persisted ip cfg w2) = (Normal ok, w4)
    /\
    let entry := change_entry w cfg ip rd ok in
    oldIp entry = from_option Some (lastKnownIp cfg) (dns_read_ip rd) /\
    newIp entry = ip /\
    (status entry = success_status <-> ok = true) /\
    dnsRecordUpdated entry = ok /\
    head (updates (history_after entry h)) = Some entry /\
    trace run.2 =
      trace w2 ++ EvWriteConfig cfg' :: evs_write
        ++ EvWriteHistory (history_after entry h) :: evs_tail /\
    Forall provider_event evs_write /\
    config_file run.2 = Some cfg' /\
    (ok = true ->
     run.1 = Normal (IpMonitor.mkCheckResult true ip) /\
     mon_status (monitor run.2) = active /\
     history_file run.2 = Some (history_after entry h) /\
     evs_tail = []).
Proof.
  intros Hdet Hcfg Hcw Hh Hhw Hdns Hneq rd cfg' run.
  assert (Hch : ip_changed (lastKnownIp cfg) ip rd = true).
  { unfold ip_changed. apply orb_true_iff. left.
    destruct (lastKnownIp cfg) as [s|]; simpl; [|reflexivity].
    apply negb_true_iff, String.eqb_neq. congruence. }
  destruct (changed_cycle_run w ip w1 cfg rd w2 h Hdet Hcfg Hcw Hh Hhw Hdns Hch)
    as (ok & w4 & Hupd & F4 & Hclock & Hrun).
  cbv zeta in Hrun.
  destruct (provider_frame_same _ _ F4) as (S4 & _).
  destruct F4 as [_ (evs_write & T4 & E4)].
  set (entry := change_entry w cfg ip rd ok) in *.
  assert (Hpersisted : config_file (persisted ip cfg w2) = Some cfg').
  { unfold persisted. simpl. subst cfg'. now rewrite Hclock. }
  assert (Hw4 : history_writable w4 = true).
  { destruct (cycle_reads_frame _ _ _ _ _ Hdet Hdns) as (_ & S2 & _).
    destruct S2, S4. simpl in *. congruence. }
  assert (Htrace4 : trace w4 = trace w2 ++ EvWriteConfig cfg' :: evs_write).
  { rewrite T4. unfold persisted. simpl. subst cfg'. rewrite Hclock.
    now rewrite <- app_assoc. }
  exists ok, w4, evs_write.
  exists (if is_test_mode (env w) rd || ok then []
          else [EvWriteHistory
                  (history_after
                     (failure_entry (with_status error (recorded entry h w4)))
                     (history_after entry h))]).
  split; [exact Hpersisted|]. split; [reflexivity|]. split; [exact Hupd|].
  cbv zeta.
  split; [apply js_or_dns_read|]. split; [reflexivity|].
  split; [simpl; destruct ok; split; congruence|].
  split; [reflexivity|]. split; [reflexivity|].
  subst run. rewrite Hrun.
  destruct (is_test_mode (env w) rd || ok) eqn:Hmode.
  - simpl. rewrite Htrace4, <- app_assoc. simpl.
    split; [reflexivity|]. split; [exact E4|].
    split; [destruct S4; congruence|].
    intros _. repeat split.
  - rewrite failure_after_recorded by exact Hw4. simpl.
    rewrite Htrace4, <- !app_assoc. simpl.
    split; [reflexivity|]. split; [exact E4|].
    split; [destruct S4; congruence|].
    intros ->. rewrite orb_true_r in Hmode. discriminate.
Qed.

Lemma changed_cycle_persists_then_writes_witness :
  let run := IpMonitor.performIpCheck Scenario.update_world in
  run.1 = Normal (IpMonitor.mkCheckResult true "198.51.100.2") /\
  mon_status (monitor run.2) = active /\
  (lastKnownIp <$> config_file run.2) = Some (Some "198.51.100.2") /\
  exists entry,
    (updates <$> history_file run.2) = Some [entry] /\
    oldIp entry = Some "198.51.100.1" /\
    newIp entry = "198.51.100.2" /\
    status entry = success_status /\
    dnsRecordUpdated entry = true.
Proof.
  set (w := Scenario.update_world).
  set (w1 := (IpDetector.getCurrentIp (entered w)).2).
  set (w2 := (CloudflareService.getDnsRecord w1).2).
  destruct (changed_cycle_persists_then_writes w w1 w2 "198.51.100.2"
              (Scenario.config_with (Some "198.51.100.1") 5)
              (mkUpdateHistory [])
              (Some (Scenario.record_with "198.51.100.1")))
    as (ok & w4 & evs_write & evs_tail & _ & _ & Hupd & Hold & Hnew & _ & Hflag
        & _ & _ & _ & Hconfig & Hok);
    try reflexivity.
  - discriminate.
  - vm_compute in Hupd. injection Hupd as <- _.
    destruct (Hok eq_refl) as (Hr & Hs & Hh & _).
    cbv zeta. split; [exact Hr|]. split; [exact Hs|].
    split; [now rewrite Hconfig|].
    eexists. rewrite Hh.
    split; [reflexivity|]. split; [exact Hold|]. split; [exact Hnew|].
    split; [reflexivity | exact Hflag].
Defined.

Lemma unchanged_cycle_run w ip w1 cfg rd w2 :
  IpDetector.getCurrentIp (entered w) = (Normal ip, w1) ->
  config_file w = Some cfg ->
  CloudflareService.getDnsRecord w1 = (rd, w2) ->
  ip_changed (lastKnownIp cfg) ip rd = false ->
  IpMonitor.performIpCheck w =
    (Normal (IpMonitor.mkCheckResult false ip),
     IpMonitor.set_isChecking false (with_status active w2)).
Proof.
  intros Hdet Hcfg Hdns Hch.
  destruct (cycle_reads_frame _ _ _ _ _ Hdet Hdns) as (S1 & _).
  rewrite performIpCheck_from_entered.
  apply performIpCheck_settle_normal.
  apply check_body_no_change with (w1 := w1) (cfg := cfg) (rd := rd); auto.
  destruct S1. simpl in *. congruence.
Qed.

(** A cycle whose detection fails: status [error], the [check_failed] entry
    when the history can be written, and the detection error thrown on. *)
Lemma failed_detection_cycle w e w1 :
  IpDetector.getCurrentIp (entered w) = (Throw e, w1) ->
  IpMonitor.performIpCheck w =
    (Throw e, IpMonitor.set_isChecking false (failure_recorded w1)).
Proof.
  intros Hdet. rewrite performIpCheck_from_entered.
  apply performIpCheck_settle_throw.
  unfold IpMonitor.check_body. now rewrite (bind_throw _ _ _ _ _ Hdet).
Qed.

(** A cycle that returns, returns what it detected and what it decided. *)
Lemma check_body_result w0 ip w1 cfg rd w2 result w' :
  IpDetector.getCurrentIp w0 = (Normal ip, w1) ->
  config_file w1 = Some cfg ->
  CloudflareService.getDnsRecord w1 = (rd, w2) ->
  IpMonitor.check_body w0 = (Normal result, w') ->
  result = IpMonitor.mkCheckResult (ip_changed (lastKnownIp cfg) ip rd) ip.
Proof.
  intros Hdet Hcfg Hdns.
  unfold IpMonitor.check_body.
  rewrite (bind_normal _ _ _ _ _ Hdet).
  assert (Hrc : StorageService.readConfig w1 = (Normal cfg, w1))
    by (unfold StorageService.readConfig; now rewrite Hcfg).
  rewrite (bind_normal _ _ _ _ _ Hrc).
  rewrite (bind_normal _ _ _ _ _ (dns_read_step _ _ _ Hdns)).
  fold (ip_changed (lastKnownIp cfg) ip rd).
  unfold mbind at 1, M_bind at 1, bind at 1.
  match goal with
  | |- context [match ?block w2 with _ => _ end] =>
      destruct (block w2) as [[[]|e] w3]
  end.
  - intros [= <- _]. reflexivity.
  - discriminate.
Qed.

Lemma strict_neq_true a b : strict_neq a b = true <-> a <> b.
Proof.
  destruct a as [x|], b as [y|]; simpl; try (split; congruence).
  rewrite negb_true_iff, String.eqb_neq. split; congruence.
Qed.

Lemma ip_changed_spec persisted detected rd :
  ip_changed persisted detected rd = true <->
  spec_changed persisted detected (dns_read_accessible rd) (dns_read_ip rd).
Proof.
  unfold ip_changed, spec_changed.
  rewrite orb_true_iff, andb_true_iff, !strict_neq_true. reflexivity.
Qed.

(** What a changed cycle leaves behind, when the persisted state can be read
    and written. *)
Lemma changed_cycle_effects w ip w1 cfg rd w2 h :
  IpDetector.getCurrentIp (entered w) = (Normal ip, w1) ->
  config_file w = Some cfg -> config_writable w = true ->
  history_file w = Some h -> history_writable w = true ->
  CloudflareService.getDnsRecord w1 = (rd, w2) ->
  ip_changed (lastKnownIp cfg) ip rd = true ->
  let run := IpMonitor.performIpCheck w in
  exists ok,
    (CloudflareService.updateDnsRecord ip (persisted ip cfg w2)).1 = Normal ok /\
    let entry := change_entry w cfg ip rd ok in
    config_file run.2 = Some (config_with_ip ip (clock w) cfg) /\
    EvWriteHistory (history_after entry h) ∈ trace run.2 /\
    isChecking (monitor run.2) = false /\
    (is_test_mode (env w) rd || ok = true ->
     run.1 = Normal (IpMonitor.mkCheckResult true ip) /\
     mon_status (monitor run.2) = active /\
     history_file run.2 = Some (history_after entry h)) /\
    (is_test_mode (env w) rd || ok = false ->
     run.1 = Throw (JsError "DNS update failed: ") /\
     mon_status (monitor run.2) = error /\
     history_file run.2 = Some (failure_on_top w entry h)).
Proof.
  intros Hdet Hcfg Hcw Hh Hhw Hdns Hch run.
  destruct (changed_cycle_run w ip w1 cfg rd w2 h Hdet Hcfg Hcw Hh Hhw Hdns Hch)
    as (ok & w4 & Hupd & F4 & Hclock & Hrun).
  cbv zeta in Hrun.
  destruct (provider_frame_same _ _ F4) as (S4 & _).
  destruct (cycle_reads_frame _ _ _ _ _ Hdet Hdns) as (_ & S2 & _).
  assert (Hw4 : history_writable w4 = true)
    by (destruct S2, S4; simpl in *; congruence).
  assert (Hc4 : config_file w4 = Some (config_with_ip ip (clock w) cfg)).
  { destruct S4 as [_ _ -> _ _ _ _ _ _ _]. unfold persisted. simpl.
    now rewrite Hclock. }
  assert (Hu4 : uuids w4 = uuids w)
    by (destruct S2, S4; simpl in *; congruence).
  assert (Hk4 : clock w4 = clock w)
    by (destruct S2, S4; simpl in *; congruence).
  exists ok. rewrite Hupd. split; [reflexivity|].
  cbv zeta. subst run. rewrite Hrun.
  destruct (is_test_mode (env w) rd || ok) eqn:Hmode.
  - simpl. split; [exact Hc4|]. split; [set_solver|]. split; [reflexivity|].
    split; [auto | discriminate].
  - rewrite failure_after_recorded by exact Hw4. simpl.
    split; [exact Hc4|]. split; [set_solver|]. split; [reflexivity|].
    split; [discriminate|]. intros _.
    repeat split. unfold failure_on_top, failure_entry. simpl.
    now rewrite Hu4, Hk4.
Qed.

(** C4.  In a cycle whose detection yields [ip], the flag [ipChanged] the
    engine computes is the decision of the specification:
    (persisted <> detected) or (DNS read accessible and DNS IP <> detected);
    a cycle that returns reports that flag.  When the flag is set the update
    is made (the IP is persisted and an entry is written, the persisted
    state being readable and writable).  When it is not set, the cycle
    returns with status [active]; after the detection's requests the trace
    has the read of the DNS record and nothing else: no write call to the
    provider, no history or config write.  In particular this is so when
    detected, persisted and DNS IP are all the same. *)
Theorem changed_formula_and_idempotence
    (w w1 w2 : World) (ip : string) (cfg : Config)
    (rd : Completion (option CloudflareRecord)) :
  IpDetector.getCurrentIp (entered w) = (Normal ip, w1) ->
  config_file w = Some cfg ->
  CloudflareService.getDnsRecord w1 = (rd, w2) ->
  let changed := ip_changed (lastKnownIp cfg) ip rd in
  let run := IpMonitor.performIpCheck w in
  (changed = true <->
   spec_changed (lastKnownIp cfg) ip (dns_read_accessible rd) (dns_read_ip rd))
  /\
  (forall result,
     run.1 = Normal result ->
     IpMonitor.ipChanged result = changed /\ IpMonitor.currentIp result = ip)
  /\
  (changed = true ->
   forall h,
     config_writable w = true ->
     history_file w = Some h -> history_writable w = true ->
     (lastKnownIp <$> config_file run.2) = Some (Some ip) /\
     exists entry,
       newIp entry = ip /\
       EvWriteHistory (history_after entry h) ∈ trace run.2)
  /\
  (changed = false ->
   run.1 = Normal (IpMonitor.mkCheckResult false ip) /\
   mon_status (monitor run.2) = active /\
   history_file run.2 = history_file w /\
   config_file run.2 = config_file w /\
   exists evs url,
     Forall detection_event evs /\
     trace run.2 = trace w ++ evs ++ [EvCfRequest (mkCfRequest url GET None)])
  /\
  (lastKnownIp cfg = Some ip -> dns_read_ip rd = Some ip -> changed = false).
Proof.
  intros Hdet Hcfg Hdns changed run.
  destruct (cycle_reads_frame _ _ _ _ _ Hdet Hdns)
    as (S1 & S2 & evs1 & evs2 & T1 & E1 & T2 & E2).
  split; [apply ip_changed_spec|]. split; [|split; [|split]].
  - (* a cycle that returns *)
    intros result Hres. subst run.
    rewrite performIpCheck_from_entered in Hres.
    destruct (IpMonitor.check_body (entered w)) as [[r|e] w'] eqn:Hbody.
    + rewrite (performIpCheck_settle_normal _ _ _ Hbody) in Hres.
      injection Hres as <-.
      assert (Hcfg1 : config_file w1 = Some cfg)
        by (destruct S1; simpl in *; congruence).
      rewrite (check_body_result _ _ _ _ _ _ _ _ Hdet Hcfg1 Hdns Hbody).
      split; reflexivity.
    + rewrite (performIpCheck_settle_throw _ _ _ Hbody) in Hres. discriminate.
  - (* the update is made *)
    intros Hch h Hcw Hh Hhw.
    destruct (changed_cycle_effects w ip w1 cfg rd w2 h Hdet Hcfg Hcw Hh Hhw
                Hdns Hch) as (ok & _ & Hc & Hev & _).
    fold run in Hc, Hev. split; [now rewrite Hc|].
    eexists. split; [|exact Hev]. reflexivity.
  - (* nothing to do *)
    intros Hch. subst run.
    rewrite (unchanged_cycle_run w ip w1 cfg rd w2 Hdet Hcfg Hdns Hch). simpl.
    destruct S2. simpl in *.
    split; [reflexivity|]. split; [reflexivity|].
    split; [assumption|]. split; [assumption|].
    destruct (getDnsRecord_one_request w1) as (url & Hw2 & _).
    rewrite Hdns in Hw2. simpl in Hw2.
    exists evs1, url. split; [exact E1|].
    rewrite Hw2. simpl. now rewrite T1, <- app_assoc.
  - intros Hp Hd. subst changed. unfold ip_changed.
    rewrite Hp, Hd. simpl. rewrite String.eqb_refl. simpl.
    now rewrite andb_false_r.
Qed.

Lemma changed_formula_and_idempotence_witness :
  let run := IpMonitor.performIpCheck Scenario.steady_world in
  run.1 = Normal (IpMonitor.mkCheckResult false "198.51.100.1") /\
  mon_status (monitor run.2) = active /\
  history_file run.2 = history_file Scenario.steady_world /\
  Forall (fun e => match e with
                   | EvCfRequest request => req_method request = GET
                   | EvHttpGet _ | EvSleep _ => True
                   | _ => False
                   end) (trace run.2).
Proof.
  set (w := Scenario.steady_world).
  set (w1 := (IpDetector.getCurrentIp (entered w)).2).
  set (w2 := (CloudflareService.getDnsRecord w1).2).
  destruct (changed_formula_and_idempotence w w1 w2 "198.51.100.1"
              (Scenario.config_with (Some "198.51.100.1") 5)
              (Normal (Some (Scenario.record_with "198.51.100.1")))
              eq_refl eq_refl eq_refl)
    as (_ & _ & _ & Hsame & Hequal).
  destruct (Hsame (Hequal eq_refl eq_refl))
    as (Hr & Hs & Hh & _ & evs & url & Hevs & Ht).
  cbv zeta. split; [exact Hr|]. split; [exact Hs|]. split; [exact Hh|].
  rewrite Ht. simpl. apply Forall_app. split.
  - eapply Forall_impl; [exact Hevs|]. intros [] He; simpl in *; tauto.
  - repeat constructor.
Defined.

Lemma entry_kept_under_failure w entry h :
  entry ∈ updates (failure_on_top w entry h).
Proof.
  unfold failure_on_top, history_after. simpl. set_solver.
Qed.

Lemma is_test_mode_iff e rd :
  is_test_mode e rd = true <->
  (exists token, CLOUDFLARE_API_TOKEN e = Some token /\
                 includes "test_" token = true) \/
  (exists zone, CLOUDFLARE_ZONE_ID e = Some zone /\
                includes "test_" zone = true) \/
  (exists err, rd = Throw err).
Proof.
  unfold is_test_mode, IpMonitor.includes_test.
  rewrite !orb_true_iff, negb_true_iff.
  split.
  - intros [[H|H]|H].
    + left. destruct (CLOUDFLARE_API_TOKEN e); [eauto | discriminate].
    + right. left. destruct (CLOUDFLARE_ZONE_ID e); [eauto | discriminate].
    + right. right. destruct rd; [discriminate | eauto].
  - intros [(t & -> & H)|[(z & -> & H)|(err & ->)]]; auto.
Qed.

(** C6.  At the end of a changed cycle (the persisted state being readable
    and writable): when the provider write succeeded, or the deployment is
    recognised as degraded (the token or the zone id contains [test_], or the
    DNS read threw), the cycle returns and the status is [active].
    Otherwise, a failed write under real credentials, the cycle has written
    an entry with outcome failed and [dnsRecordUpdated] false, which is in
    the history, the status is [error] and the cycle throws the write
    failure. *)
Theorem changed_cycle_final_status
    (w w1 w2 : World) (ip : string) (cfg : Config) (h : UpdateHistory)
    (rd : Completion (option CloudflareRecord)) :
  IpDetector.getCurrentIp (entered w) = (Normal ip, w1) ->
  config_file w = Some cfg -> config_writable w = true ->
  history_file w = Some h -> history_writable w = true ->
  CloudflareService.getDnsRecord w1 = (rd, w2) ->
  ip_changed (lastKnownIp cfg) ip rd = true ->
  let run := IpMonitor.performIpCheck w in
  let degraded := is_test_mode (env w) rd in
  exists ok,
    (CloudflareService.updateDnsRecord ip (persisted ip cfg w2)).1 = Normal ok
    /\
    (ok = true \/ degraded = true ->
     run.1 = Normal (IpMonitor.mkCheckResult true ip) /\
     mon_status (monitor run.2) = active)
    /\
    (ok = false -> degraded = false ->
     run.1 = Throw (JsError "DNS update failed: ") /\
     mon_status (monitor run.2) = error /\
     exists entry h',
       newIp entry = ip /\
       status entry = failed_status /\
       dnsRecordUpdated entry = false /\
       EvWriteHistory (history_after entry h) ∈ trace run.2 /\
       history_file run.2 = Some h' /\
       entry ∈ updates h').
Proof.
  intros Hdet Hcfg Hcw Hh Hhw Hdns Hch run degraded.
  destruct (changed_cycle_effects w ip w1 cfg rd w2 h Hdet Hcfg Hcw Hh Hhw
              Hdns Hch) as (ok & Hupd & _ & Hev & _ & Hgood & Hbad).
  fold run degraded in Hev, Hgood, Hbad.
  exists ok. split; [exact Hupd|]. split.
  - intros Hor.
    destruct Hgood as (Hr & Hs & _); [|auto].
    apply orb_true_iff. tauto.
  - intros -> Hd.
    destruct Hbad as (Hr & Hs & Hfile); [now rewrite Hd|].
    split; [exact Hr|]. split; [exact Hs|].
    eexists. eexists. split; [|split; [|split; [|split; [exact Hev|]]]];
      try reflexivity.
    split; [exact Hfile | apply entry_kept_under_failure].
Qed.

Lemma changed_cycle_final_status_witness :
  let run := IpMonitor.performIpCheck Scenario.write_failure_world in
  run.1 = Throw (JsError "DNS update failed: ") /\
  mon_status (monitor run.2) = error /\
  exists entry h',
    status entry = failed_status /\
    dnsRecordUpdated entry = false /\
    history_file run.2 = Some h' /\
    entry ∈ updates h'.
Proof.
  set (w := Scenario.write_failure_world).
  set (w1 := (IpDetector.getCurrentIp (entered w)).2).
  set (w2 := (CloudflareService.getDnsRecord w1).2).
  destruct (changed_cycle_final_status w w1 w2 "198.51.100.2"
              (Scenario.config_with (Some "198.51.100.1") 5)
              (mkUpdateHistory [])
              (Normal (Some (Scenario.record_with "198.51.100.1")))
              eq_refl eq_refl eq_refl eq_refl eq_refl eq_refl eq_refl)
    as (ok & Hupd & _ & Hbad).
  vm_compute in Hupd. injection Hupd as <-.
  destruct (Hbad eq_refl eq_refl)
    as (Hr & Hs & entry & h' & _ & Hst & Hflag & _ & Hfile & Hin).
  cbv zeta. split; [exact Hr|]. split; [exact Hs|].
  exists entry, h'. auto.
Defined.

(** ** The force-check path and the single-flight flag *)

Lemma performIpCheck_settle_clears_flag w :
  isChecking (monitor (IpMonitor.performIpCheck_settle w).2) = false.
Proof.
  unfold IpMonitor.performIpCheck_settle, try_finally.
  destruct (try_catch _ _ w) as [r w']. reflexivity.
Qed.

Lemma performIpCheck_clears_flag w :
  isChecking (monitor (IpMonitor.performIpCheck w).2) = false.
Proof.
  rewrite performIpCheck_from_entered. apply performIpCheck_settle_clears_flag.
Qed.

(** [forceCheck], in one piece: the rejection, or the reply built from the
    cycle it awaits. *)
Lemma forceCheck_unfold w :
  IpMonitor.forceCheck w =
    if isChecking (monitor w) then (Normal IpMonitor.busy_reply, w)
    else (Normal (IpMonitor.force_reply (IpMonitor.performIpCheck w).1),
          (IpMonitor.performIpCheck w).2).
Proof.
  unfold IpMonitor.forceCheck, mbind at 1, M_bind at 1, bind at 1, gets.
  destruct (isChecking (monitor w)); [reflexivity|].
  unfold try_catch, mbind, M_bind. unfold bind at 1.
  destruct (IpMonitor.performIpCheck w) as [[result|err] w']; reflexivity.
Qed.

Lemma force_reply_not_busy r :
  IpMonitor.fr_message (IpMonitor.force_reply r) <> "Check already in progress".
Proof.
  destruct r as [result|err]; simpl.
  - destruct (IpMonitor.ipChanged result); discriminate.
  - discriminate.
Qed.

Lemma scheduleNextCheck_keeps_flag w :
  isChecking (monitor (IpMonitor.scheduleNextCheck w).2) = isChecking (monitor w).
Proof.
  unfold IpMonitor.scheduleNextCheck, mbind, M_bind, bind,
    StorageService.readConfig.
  destruct (config_file w); reflexivity.
Qed.

Lemma reschedule_keeps_flag r w :
  isChecking (monitor (IpMonitor.reschedule r w).2) = isChecking (monitor w).
Proof.
  destruct r as [result|err]; simpl; [|apply scheduleNextCheck_keeps_flag].
  unfold try_catch.
  pose proof (scheduleNextCheck_keeps_flag w) as H1.
  destruct (IpMonitor.scheduleNextCheck w) as [[[]|e] w1]; simpl in *; [exact H1|].
  now rewrite scheduleNextCheck_keeps_flag.
Qed.

Lemma stop_keeps_flag w :
  isChecking (monitor (IpMonitor.stop w).2) = isChecking (monitor w).
Proof.
  unfold IpMonitor.stop, mbind, M_bind, bind, gets.
  destruct (interval (monitor w)); reflexivity.
Qed.

Lemma step_idle_means_clear l t :
  idle_means_clear l -> idle_means_clear (step l t).
Proof.
  unfold idle_means_clear. intros IH.
  destruct t as [| | |handle|k]; simpl.
  - intros H. now apply app_nil in H as [_ H].
  - intros H. rewrite stop_keeps_flag. auto.
  - destruct (isChecking (monitor (world l))) eqn:Hflag; simpl.
    + intros H. specialize (IH H). congruence.
    + intros H. now apply app_nil in H as [_ H].
  - destruct (timers (world l) !! handle); simpl; [|exact IH].
    intros H. now apply app_nil in H as [_ H].
  - destruct (inflight l !! k) as [o|] eqn:Hk; [|exact IH].
    pose proof (performIpCheck_settle_clears_flag (world l)) as Hclear.
    destruct (IpMonitor.performIpCheck_settle (world l)) as [r w'].
    simpl in Hclear.
    destruct o; simpl; intros _;
      rewrite ?unhandled_monitor, ?reschedule_keeps_flag; exact Hclear.
Qed.

Lemma run_idle_means_clear tasks : forall l,
  idle_means_clear l -> idle_means_clear (run l tasks).
Proof.
  induction tasks as [|t tasks IH]; intros l Hl; [exact Hl|].
  simpl. apply IH, step_idle_means_clear, Hl.
Qed.

(** The guard of [forceCheck].  Whenever the single-flight flag is set,
    [forceCheck] returns the rejection 'Check already in progress' at once
    and changes nothing: no field of the engine, no file, no request, no
    timer.  In the event loop the call leaves the cycles in flight as they
    are and adds the rejection to the replies. *)
Lemma forceCheck_rejects_when_checking (l : Loop) :
  isChecking (monitor (world l)) = true ->
  IpMonitor.forceCheck (world l) = (Normal IpMonitor.busy_reply, world l) /\
  IpMonitor.busy_reply =
    IpMonitor.mkForceResult false false None "Check already in progress" /\
  step l CallForceCheck =
    mkLoop (world l) (inflight l) (replies l ++ [IpMonitor.busy_reply]).
Proof.
  intros Hflag. split; [|split; [reflexivity|]].
  - now rewrite forceCheck_unfold, Hflag.
  - simpl. now rewrite Hflag.
Qed.

(** Two cycles can overlap: the timer callback does not look at the flag.
    A cycle started by the timer while a forced one is in flight leaves, once
    the forced one has settled, a cycle in flight with the flag clear. *)
Lemma timer_cycle_overlaps_forced_cycle :
  let l0 := mkLoop Scenario.steady_world [] [] in
  let l1 := run l0 [CallStart; CycleSettles 0] in
  let l2 := run l1 [CallForceCheck; TimerFires 0; CycleSettles 0] in
  inflight l1 = [] /\
  inflight l2 = [FromTimer] /\
  isChecking (monitor (world l2)) = false.
Proof. vm_compute. repeat split. Qed.

(** C3, on the code: the flag does not tell that a cycle is running.  The
    engine is started and its first cycle settles, arming timer 0.  A
    force-check begins a cycle; the timer fires while it is in flight, and
    its callback, which does not look at the flag, begins a second cycle.
    The forced cycle settles: its [finally] clears the flag, the timer's
    cycle still running.  A force-check called now is not rejected: it
    begins a cycle beside the one in flight. *)
Theorem forceCheck_starts_second_cycle :
  let l0 := mkLoop Scenario.steady_world [] [] in
  let l1 := run l0 [CallStart; CycleSettles 0] in
  let l2 := run l1 [CallForceCheck; TimerFires 0] in
  let l3 := step l2 (CycleSettles 0) in
  let l4 := step l3 CallForceCheck in
  (inflight l1 = [] /\ timers (world l1) !! 0%nat = Some 300000) /\
  (inflight l2 = [FromForce; FromTimer] /\
   isChecking (monitor (world l2)) = true) /\
  (inflight l3 = [FromTimer] /\
   isChecking (monitor (world l3)) = false /\
   IpMonitor.fr_message <$> replies l3 = ["No change detected"]) /\
  (inflight l4 = [FromTimer; FromForce] /\
   replies l4 = replies l3 /\
   mon_status (monitor (world l4)) = checking).
Proof. vm_compute. repeat split. Qed.

(** C10.  Called when the flag is clear, [forceCheck] runs one cycle and
    returns a reply, never an exception: the cycle's outcome when it
    returns, and [{success: false, ipChanged: false, currentIp: null,
    message: 'Check failed: ...'}] when the cycle throws, whatever it throws.
    The flag is clear again when the call is over, on either path, so the
    next call is not rejected with 'Check already in progress'.  In the
    event loop: from a state in which no cycle in flight means a clear flag,
    after any tasks, a force-check issued while no cycle is in flight begins
    a cycle and is not rejected. *)
Theorem forceCheck_total_and_clears_flag (w : World) :
  isChecking (monitor w) = false ->
  let cycle := IpMonitor.performIpCheck w in
  let call := IpMonitor.forceCheck w in
  call.1 = Normal (IpMonitor.force_reply cycle.1) /\
  call.2 = cycle.2 /\
  (forall err,
     cycle.1 = Throw err ->
     call.1 = Normal (IpMonitor.mkForceResult false false None
                        ("Check failed: " +:+ thrown_to_string err))) /\
  isChecking (monitor call.2) = false /\
  (exists reply,
     (IpMonitor.forceCheck call.2).1 = Normal reply /\
     IpMonitor.fr_message reply <> "Check already in progress") /\
  (forall l tasks,
     idle_means_clear l ->
     inflight (run l tasks) = [] ->
     let l' := step (run l tasks) CallForceCheck in
     inflight l' = [FromForce] /\ replies l' = replies (run l tasks)).
Proof.
  intros Hflag cycle call. subst call cycle.
  rewrite forceCheck_unfold, Hflag. simpl.
  split; [reflexivity|]. split; [reflexivity|]. split; [|split; [|split]].
  - intros err ->. reflexivity.
  - apply performIpCheck_clears_flag.
  - rewrite forceCheck_unfold, performIpCheck_clears_flag. simpl.
    eexists. split; [reflexivity|]. apply force_reply_not_busy.
  - intros l tasks Hl Hidle. cbv zeta. simpl.
    rewrite (run_idle_means_clear tasks l Hl Hidle). simpl.
    now rewrite Hidle.
Qed.

Lemma forceCheck_total_and_clears_flag_witness :
  let call := IpMonitor.forceCheck Scenario.write_failure_world in
  call.1 = Normal (IpMonitor.mkForceResult false false None
                     "Check failed: Error: DNS update failed: ") /\
  isChecking (monitor call.2) = false.
Proof.
  destruct (forceCheck_total_and_clears_flag Scenario.write_failure_world
              eq_refl) as (_ & _ & Hthrow & Hclear & _).
  split; [|exact Hclear].
  apply (Hthrow (JsError "DNS update failed: ")). reflexivity.
Defined.

(** ** Scheduling *)

Lemma scheduleNextCheck_arms w cfg :
  config_file w = Some cfg ->
  1 <= checkIntervalMinutes cfg <= 60 ->
  exists w',
    IpMonitor.scheduleNextCheck w = (Normal tt, w') /\
    timers w' =
      <[next_timer w := checkIntervalMinutes cfg * 60 * 1000]> (timers w) /\
    interval (monitor w') = Some (next_timer w) /\
    next_timer w' = S (next_timer w) /\
    config_file w' = config_file w /\
    isChecking (monitor w') = isChecking (monitor w) /\
    mon_status (monitor w') = mon_status (monitor w).
Proof.
  intros Hcfg Hrange.
  unfold IpMonitor.scheduleNextCheck, mbind, M_bind, bind,
    StorageService.readConfig, setTimeout, IpMonitor.set_interval, modify.
  rewrite Hcfg. eexists. split; [reflexivity|]. simpl.
  replace (checkIntervalMinutes cfg * 60 * 1000 <? 1) with false
    by (symmetry; apply Z.ltb_ge; lia).
  replace (TIMEOUT_MAX <? checkIntervalMinutes cfg * 60 * 1000) with false
    by (symmetry; apply Z.ltb_ge; unfold TIMEOUT_MAX; lia).
  repeat split; auto.
Qed.

Lemma reschedule_arms r w cfg :
  config_file w = Some cfg ->
  1 <= checkIntervalMinutes cfg <= 60 ->
  let w' := (IpMonitor.reschedule r w).2 in
  timers w' = <[next_timer w := checkIntervalMinutes cfg * 60 * 1000]> (timers w)
  /\ interval (monitor w') = Some (next_timer w)
  /\ next_timer w' = S (next_timer w).
Proof.
  intros Hcfg Hrange.
  destruct (scheduleNextCheck_arms w cfg Hcfg Hrange)
    as (w' & Hrun & Ht & Hi & Hn & _).
  destruct r as [result|err]; simpl; unfold try_catch; rewrite Hrun; auto.
Qed.

(** C7.  When a cycle started by [start] or by the timer settles, whether it
    returned or threw, the engine reads the configuration as it is then and
    arms one one-shot timer with [checkIntervalMinutes * 60 * 1000] ms, for
    every interval from 1 to 60 minutes; the handle is kept in [interval].
    The value is the one in the configuration at the end of that cycle. *)
Theorem reschedule_reads_current_interval
    (l : Loop) (k : nat) (o : Origin) (cfg : Config) :
  inflight l !! k = Some o ->
  o <> FromForce ->
  let settled := IpMonitor.performIpCheck_settle (world l) in
  config_file settled.2 = Some cfg ->
  1 <= checkIntervalMinutes cfg <= 60 ->
  let l' := step l (CycleSettles k) in
  let handle := next_timer settled.2 in
  timers (world l') =
    <[handle := checkIntervalMinutes cfg * 60 * 1000]> (timers settled.2) /\
  interval (monitor (world l')) = Some handle /\
  inflight l' = delete k (inflight l).
Proof.
  intros Hk Ho settled Hcfg Hrange l' handle. subst l' handle settled.
  simpl. rewrite Hk.
  destruct (IpMonitor.performIpCheck_settle (world l)) as [r w1].
  simpl in Hcfg |- *.
  destruct (reschedule_arms r w1 cfg Hcfg Hrange) as (Ht & Hi & _).
  destruct o; simpl; rewrite ?unhandled_timers, ?unhandled_monitor; auto.
  congruence.
Qed.

Lemma reschedule_reads_current_interval_witness :
  let l := step (mkLoop Scenario.update_world [] []) CallStart in
  let l' := step l (CycleSettles 0) in
  timers (world l') !! 0%nat = Some 300000 /\
  interval (monitor (world l')) = Some 0%nat.
Proof.
  cbv zeta.
  destruct (reschedule_reads_current_interval
              (step (mkLoop Scenario.update_world [] []) CallStart) 0 FromStart
              (mkConfig 5 light (Some "198.51.100.2") 0%nat 1000%nat None)
              eq_refl) as (Ht & Hi & _).
  - discriminate.
  - reflexivity.
  - simpl. lia.
  - split; [|exact Hi]. rewrite Ht. reflexivity.
Defined.

(** A change of the interval between two cycles: the first cycle is
    rescheduled with the 5 minutes of the configuration at its end; the
    settings are then changed to 10 minutes; the second cycle is rescheduled
    with 10 minutes. *)
Example interval_change_takes_effect :
  let l1 := run (mkLoop Scenario.steady_world [] []) [CallStart; CycleSettles 0] in
  let settings := with_config_file
                    (Some (Scenario.config_with (Some "198.51.100.1") 10)) in
  let l2 := run (mkLoop (settings (world l1)) (inflight l1) (replies l1))
              [TimerFires 0; CycleSettles 0] in
  timers (world l1) !! 0%nat = Some 300000 /\
  timers (world l2) !! 0%nat = None /\
  timers (world l2) !! 1%nat = Some 600000 /\
  interval (monitor (world l2)) = Some 1%nat.
Proof. vm_compute. repeat split. Qed.

(** ** Stopping *)

(** [stop] cancels the timer [interval] points to and forgets it. *)
Lemma stop_cancels_pending_timer w handle :
  interval (monitor w) = Some handle ->
  let w' := (IpMonitor.stop w).2 in
  timers w' = delete handle (timers w) /\
  interval (monitor w') = None.
Proof.
  intros H. unfold IpMonitor.stop, mbind, M_bind, bind, gets.
  rewrite H. repeat split.
Qed.

(** With no cycle in flight, no timer armed and none remembered, nothing
    runs any more unless the engine is started again. *)
Lemma stopped_idle_stays l tasks :
  inflight l = [] ->
  timers (world l) = ∅ ->
  interval (monitor (world l)) = None ->
  Forall no_new_call tasks ->
  run l tasks = l.
Proof.
  intros Hin Ht Hi Htasks. induction Htasks as [|t tasks Hcall _ IH];
    [reflexivity|].
  simpl. replace (step l t) with l; [exact IH|].
  destruct l as [w fl rs]. simpl in *.
  destruct t as [| | |handle|k]; simpl in *; try contradiction.
  - unfold IpMonitor.stop, mbind, M_bind, bind, gets. now rewrite Hi.
  - now rewrite Ht, lookup_empty.
  - now rewrite Hin.
Qed.

(** C8, on the code: [stop] is called while the first cycle is in flight.
    No timer is armed at that moment and [interval] is still null, so [stop]
    cancels nothing; when the cycle settles, its [then] handler arms a timer
    all the same, and when that timer fires another cycle begins, after
    [stop]. *)
Theorem stop_during_cycle_rearms_timer :
  let l1 := run (mkLoop Scenario.steady_world [] []) [CallStart; CallStop] in
  let l2 := step l1 (CycleSettles 0) in
  let l3 := step l2 (TimerFires 0) in
  inflight l1 = [FromStart] /\
  timers (world l1) = ∅ /\
  interval (monitor (world l1)) = None /\
  inflight l2 = [] /\
  timers (world l2) !! 0%nat = Some 300000 /\
  inflight l3 = [FromTimer] /\
  mon_status (monitor (world l3)) = checking.
Proof. vm_compute. repeat split. Qed.

(** C2, on the code: a changed cycle whose provider write fails under real
    credentials.  The cycle writes its entry, then throws inside [try]; the
    [catch] block writes a second entry, [check_failed].  The history, empty
    before, has two entries after this one cycle. *)
Theorem failed_write_appends_two_entries :
  let w := Scenario.write_failure_world in
  let run := IpMonitor.performIpCheck w in
  (updates <$> history_file w) = Some [] /\
  ip_changed (Some "198.51.100.1") "198.51.100.2"
    (CloudflareService.getDnsRecord w).1 = true /\
  exists first second,
    (updates <$> history_file run.2) = Some [second; first] /\
    newIp first = "198.51.100.2" /\ status first = failed_status /\
    newIp second = "check_failed" /\ status second = failed_status.
Proof.
  vm_compute. split; [reflexivity|]. split; [reflexivity|].
  do 2 eexists. repeat split.
Qed.

(** ** The history as a log

    Whatever the engine does, the history file is the log it was with the
    entries written since in front, cut to the ten newest. *)

Lemma take_app_take {A} (n : nat) (l1 l2 : list A) :
  take n (l1 ++ take n l2) = take n (l1 ++ l2).
Proof.
  rewrite !take_app, take_take. do 2 f_equal. lia.
Qed.

Lemma entries_added_app evs1 evs2 :
  entries_added (evs1 ++ evs2) = entries_added evs2 ++ entries_added evs1.
Proof. unfold entries_added. now rewrite omap_app, rev_app_distr. Qed.

Lemma log_after_app new2 new1 old :
  log_after new2 (log_after new1 old) = log_after (new2 ++ new1) old.
Proof.
  destruct new2 as [|e2 new2]; [reflexivity|].
  destruct new1 as [|e1 new1].
  - now rewrite app_nil_r.
  - change (take 10 ((e2 :: new2) ++ take 10 ((e1 :: new1) ++ old)) =
            take 10 (((e2 :: new2) ++ e1 :: new1) ++ old)).
    now rewrite take_app_take, app_assoc.
Qed.

Lemma detection_adds_no_entries evs :
  Forall detection_event evs -> entries_added evs = [].
Proof.
  unfold entries_added. induction 1 as [|e evs He _ IH]; [reflexivity|].
  destruct e; simpl in *; try contradiction; exact IH.
Qed.

Lemma provider_adds_no_entries evs :
  Forall provider_event evs -> entries_added evs = [].
Proof.
  unfold entries_added. induction 1 as [|e evs He _ IH]; [reflexivity|].
  destruct e; simpl in *; try contradiction; exact IH.
Qed.

(** A stretch that writes no history leaves the file as it is. *)
Lemma history_frame_quiet w w' evs :
  trace w' = trace w ++ evs ->
  entries_added evs = [] ->
  history_file w' = history_file w ->
  history_frame w w'.
Proof.
  intros Ht Ha Hh. exists evs. split; [exact Ht|].
  unfold log_step. rewrite Hh, Ha. destruct (history_file w); auto.
Qed.

Lemma history_frame_silent w w' :
  trace w' = trace w -> history_file w' = history_file w -> history_frame w w'.
Proof.
  intros Ht Hh. apply (history_frame_quiet w w' []); auto.
  now rewrite app_nil_r.
Qed.

#[export] Instance history_frame_preorder : PreOrder history_frame.
Proof.
  split.
  - intros w. now apply history_frame_silent.
  - intros w1 w2 w3 (evs1 & Ht1 & H1) (evs2 & Ht2 & H2).
    exists (evs1 ++ evs2).
    split; [now rewrite Ht2, Ht1, app_assoc|].
    unfold log_step in *. rewrite entries_added_app.
    destruct (history_file w1) as [old|].
    + destruct (history_file w2) as [old2|]; [|discriminate].
      injection H1 as H1. simpl in H2. rewrite H1 in H2.
      now rewrite <- log_after_app.
    + destruct H1 as [E1 A1]. rewrite E1 in H2. destruct H2 as [E2 A2].
      rewrite A1, A2. auto.
Qed.

#[export] Hint Resolve history_frame_preorder : frame.

Lemma stays_weaken (R R' : relation World) {A} (c : M A) :
  (forall w w', R w w' -> R' w w') -> stays R c -> stays R' c.
Proof. intros Hsub Hc w. apply Hsub, Hc. Qed.

Lemma detection_in_history_frame w w' :
  detection_frame w w' -> history_frame w w'.
Proof.
  intros F. destruct (detection_frame_same _ _ F) as ([] & _).
  destruct F as [_ (evs & Ht & He)].
  apply (history_frame_quiet w w' evs); auto using detection_adds_no_entries.
Qed.

Lemma provider_in_history_frame w w' :
  provider_frame w w' -> history_frame w w'.
Proof.
  intros F. destruct (provider_frame_same _ _ F) as ([] & _).
  destruct F as [_ (evs & Ht & He)].
  apply (history_frame_quiet w w' evs); auto using provider_adds_no_entries.
Qed.

Lemma addUpdateEntry_history_frame entry :
  stays history_frame (StorageService.addUpdateEntry entry).
Proof.
  intros w. destruct (history_file w) as [h|] eqn:Hh.
  - destruct (history_writable w) eqn:Hw.
    + rewrite (addUpdateEntry_ok entry w h Hh Hw).
      exists [EvWriteHistory (history_after entry h)].
      split; [reflexivity|]. unfold log_step. now rewrite Hh.
    + rewrite addUpdateEntry_fails by auto. reflexivity.
  - rewrite addUpdateEntry_fails by auto. reflexivity.
Qed.

Lemma updateLastKnownIp_history_frame ip :
  stays history_frame (StorageService.updateLastKnownIp ip).
Proof.
  intros w. destruct (config_file w) as [c|] eqn:Hc.
  - destruct (config_writable w) eqn:Hw.
    + rewrite (updateLastKnownIp_ok ip w c Hc Hw).
      now apply (history_frame_quiet _ _
                   [EvWriteConfig (config_with_ip ip (clock w) c)]).
    + rewrite updateLastKnownIp_fails by auto. reflexivity.
  - rewrite updateLastKnownIp_fails by auto. reflexivity.
Qed.

Lemma readConfig_history_frame : stays history_frame StorageService.readConfig.
Proof.
  intros w. unfold StorageService.readConfig.
  destruct (config_file w); reflexivity.
Qed.

Lemma randomUUID_history_frame : stays history_frame randomUUID.
Proof. intros w. now apply history_frame_silent. Qed.

Lemma set_status_history_frame s : stays history_frame (IpMonitor.set_status s).
Proof. intros w. now apply history_frame_silent. Qed.

Lemma getCurrentIp_history_frame : stays history_frame IpDetector.getCurrentIp.
Proof.
  eapply stays_weaken;
    [apply detection_in_history_frame | apply IpDetector_getCurrentIp_frame].
Qed.

Lemma getDnsRecord_history_frame :
  stays history_frame CloudflareService.getDnsRecord.
Proof.
  eapply stays_weaken;
    [apply provider_in_history_frame | apply getDnsRecord_frame].
Qed.

Lemma updateDnsRecord_history_frame ip :
  stays history_frame (CloudflareService.updateDnsRecord ip).
Proof.
  eapply stays_weaken;
    [apply provider_in_history_frame | apply updateDnsRecord_frame].
Qed.

#[export] Hint Resolve addUpdateEntry_history_frame
  updateLastKnownIp_history_frame readConfig_history_frame
  randomUUID_history_frame set_status_history_frame
  getCurrentIp_history_frame getDnsRecord_history_frame
  updateDnsRecord_history_frame : frame.

Ltac framing :=
  repeat
    match goal with
    | |- stays _ (_ ≫= _) => apply stays_bind; [apply _ | | intro]
    | |- stays _ (try_catch _ _) => apply stays_try_catch; [apply _ | | intro]
    | |- stays _ (if _ then _ else _) => apply stays_if
    | |- stays _ (match ?x with (_, _) => _ end) => destruct x
    | |- stays _ _ => solve [auto with frame]
    end.

Lemma check_body_history_frame : stays history_frame IpMonitor.check_body.
Proof. unfold IpMonitor.check_body, now. framing. Qed.

Lemma check_failed_history_frame err :
  stays history_frame (IpMonitor.check_failed err).
Proof. unfold IpMonitor.check_failed, now. framing. Qed.

Lemma performIpCheck_settle_history_frame :
  stays history_frame IpMonitor.performIpCheck_settle.
Proof.
  unfold IpMonitor.performIpCheck_settle.
  apply stays_try_finally;
    [apply _ | | intros w; now apply history_frame_silent].
  apply stays_try_catch; [apply _ | apply check_body_history_frame |].
  apply check_failed_history_frame.
Qed.

Lemma scheduleNextCheck_history w :
  history_file (IpMonitor.scheduleNextCheck w).2 = history_file w /\
  trace (IpMonitor.scheduleNextCheck w).2 = trace w.
Proof.
  unfold IpMonitor.scheduleNextCheck, mbind, M_bind, bind,
    StorageService.readConfig.
  destruct (config_file w); split; reflexivity.
Qed.

Lemma reschedule_history r w :
  history_file (IpMonitor.reschedule r w).2 = history_file w /\
  trace (IpMonitor.reschedule r w).2 = trace w.
Proof.
  destruct r as [result|err]; simpl; [|apply scheduleNextCheck_history].
  unfold try_catch.
  pose proof (scheduleNextCheck_history w) as [H1 T1].
  destruct (IpMonitor.scheduleNextCheck w) as [[[]|e] w1]; simpl in *;
    [auto|].
  destruct (scheduleNextCheck_history w1) as [H2 T2]. split; congruence.
Qed.

Lemma stop_history w :
  history_file (IpMonitor.stop w).2 = history_file w /\
  trace (IpMonitor.stop w).2 = trace w.
Proof.
  unfold IpMonitor.stop, mbind, M_bind, bind, gets.
  destruct (interval (monitor w)); split; reflexivity.
Qed.

Lemma unhandled_history_frame {A} (settled : Completion A * World) :
  history_frame settled.2 (unhandled settled).
Proof.
  destruct settled as [[a|e] w]; [reflexivity|].
  now apply (history_frame_quiet _ _ [EvUnhandledRejection e]).
Qed.

Lemma step_history_frame l t : history_frame (world l) (world (step l t)).
Proof.
  destruct t as [| | |handle|k]; simpl.
  - now apply history_frame_silent.
  - apply history_frame_silent; apply stop_history.
  - destruct (isChecking (monitor (world l)));
      now apply history_frame_silent.
  - destruct (timers (world l) !! handle); now apply history_frame_silent.
  - destruct (inflight l !! k) as [o|]; [|reflexivity].
    pose proof (performIpCheck_settle_history_frame (world l)) as F.
    destruct (IpMonitor.performIpCheck_settle (world l)) as [r w']. simpl in F.
    destruct o; simpl; try exact F;
      (etransitivity; [exact F|]);
      (etransitivity; [|apply unhandled_history_frame]);
      apply history_frame_silent; apply reschedule_history.
Qed.

Lemma run_history_frame tasks : forall l,
  history_frame (world l) (world (run l tasks)).
Proof.
  induction tasks as [|t tasks IH]; intros l; [reflexivity|].
  simpl. etransitivity; [apply step_history_frame | apply IH].
Qed.

(** X15.  The history is a log that is added to in front and cut behind.
    After any calls, timers and cycles, a history of at most ten entries
    holds the entries written since, one for each write of the history on
    the trace and the newest first, then the entries it held, in their
    order and as they were, the whole cut to the ten newest. *)
Lemma history_bounded_newest_first l tasks h :
  history_file (world l) = Some h ->
  (length (updates h) <= 10)%nat ->
  exists evs h',
    trace (world (run l tasks)) = trace (world l) ++ evs /\
    history_file (world (run l tasks)) = Some h' /\
    updates h' = take 10 (entries_added evs ++ updates h) /\
    (length (updates h') <= 10)%nat.
Proof.
  intros Hh Hlen.
  destruct (run_history_frame tasks l) as (evs & Ht & Hstep).
  unfold log_step in Hstep. rewrite Hh in Hstep.
  destruct (history_file (world (run l tasks))) as [h'|]; [|discriminate].
  injection Hstep as Hu. exists evs, h'.
  split; [exact Ht|]. split; [reflexivity|].
  assert (Hlog : log_after (entries_added evs) (updates h) =
                 take 10 (entries_added evs ++ updates h)).
  { destruct (entries_added evs); [|reflexivity].
    simpl. now rewrite take_ge by lia. }
  rewrite Hu, Hlog. split; [reflexivity|]. rewrite length_take. lia.
Qed.

(** ** The four-source detector *)

Lemma try_services_scans base : forall svcs urls,
  Forall2 (fun s u =>
             IpDetectorMulti.func s =
               IpDetectorMulti.retryOperation (IpDetectorMulti.httpRequest u))
    svcs urls ->
  forall index total w i0,
    ip_net w = ip_net base ->
    ip_requests w = (ip_requests base + i0)%nat ->
    let run := IpDetectorMulti.try_services svcs index total w in
    scans IpDetectorMulti.settle_response base i0 (schedule_of urls) w
      run.1 run.2 /\
    (first_success IpDetectorMulti.settle_response base (schedule_of urls) i0
       = None ->
     run.1 = Throw (JsError "Failed to detect IP address from all services")).
Proof.
  induction 1 as [|s u svcs urls Hfunc _ IH]; intros index total w i0 Hnet Hreq.
  - simpl. split; [|reflexivity]. exists []. rewrite app_nil_r.
    repeat split; eauto. simpl. lia.
  - cbv zeta.
    destruct (IpDetectorMulti.try_services (s :: svcs) index total w)
      as [r w'] eqn:Hrun.
    cbn [fst snd schedule_of flat_map]. fold (schedule_of urls).
    cbn [IpDetectorMulti.try_services] in Hrun.
    set (n := S IpDetectorMulti.MAX_RETRIES) in *.
    rewrite Hfunc in Hrun.
    unfold IpDetectorMulti.retryOperation, retryOperation_with, try_catch
      in Hrun.
    pose proof (retry_loop_scans IpDetectorMulti.settle_response
                  IpDetectorMulti.MAX_RETRIES IpDetectorMulti.RETRY_DELAYS
                  u base n 0%nat JsUndefined w i0 Hnet Hreq (Nat.lt_0_succ _))
      as H1.
    cbv zeta in H1. unfold scans in H1 |- *.
    change (request IpDetectorMulti.settle_response)
      with IpDetectorMulti.httpRequest in H1.
    fold n in Hrun. rewrite first_success_app, length_replicate.
    destruct (retry_loop _ _ (IpDetectorMulti.httpRequest u) n 0%nat JsUndefined w)
      as [r1 w1].
    cbn [fst snd] in H1. destruct H1 as (evs1 & Ht1 & Hn1 & Hm1).
    destruct (first_success _ base (replicate n u) i0) as [[k ip]|] eqn:Hf1.
    + destruct Hm1 as (-> & Hu1 & Hq1). injection Hrun as <- <-.
      split; [|intros Hnone; discriminate].
      exists evs1. repeat split; auto.
      rewrite Hu1. symmetry. apply take_app_le.
      apply first_success_lt in Hf1. lia.
    + destruct Hm1 as ([e1 ->] & Hu1 & Hq1). rewrite length_replicate in Hq1.
      (* the pause between services *)
      set (pause := if Z.of_nat index <? Z.of_nat total - 1
                    then sleep 1000 else ret tt) in Hrun.
      assert (Hpause : exists evs,
                 pause w1 = (Normal tt, with_trace (trace w1 ++ evs) w1) /\
                 urls_requested evs = []).
      { subst pause. destruct (Z.of_nat index <? Z.of_nat total - 1).
        - eexists [_]. split; reflexivity.
        - exists []. split; [|reflexivity]. destruct w1. simpl.
          now rewrite app_nil_r. }
      destruct Hpause as (evsp & Hp & Hup).
      unfold mbind, M_bind, bind in Hrun. rewrite Hp in Hrun.
      set (w1' := with_trace (trace w1 ++ evsp) w1) in *.
      specialize (IH (S index) total w1' (i0 + n)%nat Hn1).
      destruct IH as [(evs2 & Ht2 & Hn2 & Hm2) Hnone2];
        [simpl; lia|].
      rewrite Hrun in Ht2, Hn2, Hm2, Hnone2.
      cbn [fst snd] in *.
      destruct (first_success _ base (schedule_of urls) (i0 + n))
        as [[k ip]|] eqn:Hf2.
      * destruct Hm2 as (-> & Hu2 & Hq2).
        split; [|intros Hnone; discriminate].
        exists (evs1 ++ evsp ++ evs2).
        split; [rewrite Ht2; simpl; now rewrite Ht1, <- !app_assoc|].
        split; [exact Hn2|]. split; [reflexivity|]. split.
        -- rewrite !urls_requested_app, Hu1, Hup, Hu2, app_nil_l.
           rewrite take_app_ge by (rewrite length_replicate; lia).
           rewrite length_replicate.
           replace (S (n + k) - n)%nat with (S k) by lia. reflexivity.
        -- lia.
      * destruct Hm2 as ([e2 He2] & Hu2 & Hq2).
        split; [|intros _; now apply Hnone2].
        exists (evs1 ++ evsp ++ evs2).
        split; [rewrite Ht2; simpl; now rewrite Ht1, <- !app_assoc|].
        split; [exact Hn2|]. split; [eauto|]. split.
        -- now rewrite !urls_requested_app, Hu1, Hup, Hu2.
        -- rewrite length_app, length_replicate. lia.
Qed.

(** X16.  The same behaviour in the four-source detector: first success in
    the schedule wins, the error only after sixteen failed requests, and a
    failing first service is asked [MAX_RETRIES + 1] times before the
    second one answers. *)
Lemma multi_detection_first_success_and_fallback (w : World) :
  let run := IpDetectorMulti.getCurrentIp w in
  let schedule := schedule_of IpDetectorMulti_urls in
  exists evs,
    trace run.2 = trace w ++ evs /\
    match first_success IpDetectorMulti.settle_response w schedule 0 with
    | Some (failed, ip) =>
        run.1 = Normal ip /\ urls_requested evs = take (S failed) schedule
    | None =>
        run.1 = Throw (JsError "Failed to detect IP address from all services")
        /\ urls_requested evs = schedule
    end /\
    forall ip,
      (forall n, exists e,
         IpDetectorMulti.settle_response IpDetectorMulti.ipify_url
           (ip_net w n IpDetectorMulti.ipify_url) = Throw e) ->
      (forall n,
         IpDetectorMulti.settle_response IpDetectorMulti.icanhazip_url
           (ip_net w n IpDetectorMulti.icanhazip_url) = Normal ip) ->
      run.1 = Normal ip /\
      urls_requested evs =
        replicate (S IpDetectorMulti.MAX_RETRIES) IpDetectorMulti.ipify_url
        ++ [IpDetectorMulti.icanhazip_url].
Proof.
  cbv zeta. unfold IpDetectorMulti.getCurrentIp.
  destruct (try_services_scans w IpDetectorMulti.services IpDetectorMulti_urls)
    with (index := 0%nat) (total := length IpDetectorMulti.services)
         (w := w) (i0 := 0%nat)
    as [(evs & Ht & _ & Hm) Hnone]; [repeat constructor | reflexivity | lia |].
  exists evs. split; [exact Ht|]. split.
  - destruct (first_success _ w (schedule_of IpDetectorMulti_urls) 0)
      as [[k ip]|].
    + destruct Hm as (Hr & Hu & _). auto.
    + destruct Hm as (_ & Hu & _). auto.
  - intros ip Hfail Hok.
    assert (Hf : first_success IpDetectorMulti.settle_response w
                   (schedule_of IpDetectorMulti_urls) 0 = Some (4%nat, ip)).
    { unfold schedule_of, IpDetectorMulti_urls.
      cbn [flat_map]. rewrite first_success_app.
      rewrite (first_success_all_fail _ _ _ _ _ Hfail).
      rewrite length_replicate. simpl. unfold answer. now rewrite Hok. }
    rewrite Hf in Hm. destruct Hm as (Hr & Hu & _).
    split; [exact Hr | exact Hu].
Qed.

(** * Further properties of the services *)

(** ** More frames *)

#[export] Instance keeps_preorder {B} (f : World -> B) : PreOrder (keeps f).
Proof.
  split.
  - intros w. reflexivity.
  - intros w1 w2 w3 H1 H2. unfold keeps in *. congruence.
Qed.

#[export] Instance settings_frame_preorder : PreOrder settings_frame.
Proof.
  split.
  - intros w. split; reflexivity.
  - intros w1 w2 w3 [A1 B1] [A2 B2]. split; congruence.
Qed.

#[export] Hint Resolve keeps_preorder settings_frame_preorder : frame.

Lemma detection_in_settings_frame w w' :
  detection_frame w w' -> settings_frame w w'.
Proof.
  intros F. destruct (detection_frame_same _ _ F) as ([] & _).
  split; congruence.
Qed.

Lemma provider_in_settings_frame w w' :
  provider_frame w w' -> settings_frame w w'.
Proof.
  intros F. destruct (provider_frame_same _ _ F) as ([] & _).
  split; congruence.
Qed.

Lemma updateLastKnownIp_settings_frame ip :
  stays settings_frame (StorageService.updateLastKnownIp ip).
Proof.
  intros w. destruct (config_file w) as [c|] eqn:Hc.
  - destruct (config_writable w) eqn:Hw.
    + rewrite (updateLastKnownIp_ok ip w c Hc Hw). split; simpl; [reflexivity|].
      now rewrite Hc.
    + rewrite updateLastKnownIp_fails by auto. reflexivity.
  - rewrite updateLastKnownIp_fails by auto. reflexivity.
Qed.

Lemma addUpdateEntry_settings_frame entry :
  stays settings_frame (StorageService.addUpdateEntry entry).
Proof.
  intros w. destruct (history_file w) as [h|] eqn:Hh.
  - destruct (history_writable w) eqn:Hw.
    + rewrite (addUpdateEntry_ok entry w h Hh Hw). split; reflexivity.
    + rewrite addUpdateEntry_fails by auto. reflexivity.
  - rewrite addUpdateEntry_fails by auto. reflexivity.
Qed.

Lemma readConfig_settings_frame : stays settings_frame StorageService.readConfig.
Proof.
  intros w. unfold StorageService.readConfig.
  destruct (config_file w); reflexivity.
Qed.

Lemma randomUUID_settings_frame : stays settings_frame randomUUID.
Proof. intros w. split; reflexivity. Qed.

Lemma set_status_settings_frame s :
  stays settings_frame (IpMonitor.set_status s).
Proof. intros w. split; reflexivity. Qed.

Lemma getCurrentIp_settings_frame : stays settings_frame IpDetector.getCurrentIp.
Proof.
  eapply stays_weaken;
    [apply detection_in_settings_frame | apply IpDetector_getCurrentIp_frame].
Qed.

Lemma getDnsRecord_settings_frame :
  stays settings_frame CloudflareService.getDnsRecord.
Proof.
  eapply stays_weaken;
    [apply provider_in_settings_frame | apply getDnsRecord_frame].
Qed.

Lemma updateDnsRecord_settings_frame ip :
  stays settings_frame (CloudflareService.updateDnsRecord ip).
Proof.
  eapply stays_weaken;
    [apply provider_in_settings_frame | apply updateDnsRecord_frame].
Qed.

#[export] Hint Resolve updateLastKnownIp_settings_frame
  addUpdateEntry_settings_frame readConfig_settings_frame
  randomUUID_settings_frame set_status_settings_frame
  getCurrentIp_settings_frame getDnsRecord_settings_frame
  updateDnsRecord_settings_frame : frame.

Lemma performIpCheck_settle_settings_frame :
  stays settings_frame IpMonitor.performIpCheck_settle.
Proof.
  unfold IpMonitor.performIpCheck_settle.
  apply stays_try_finally; [apply _ | | intros w; split; reflexivity].
  apply stays_try_catch; [apply _ | |].
  - unfold IpMonitor.check_body, now. framing.
  - intros e. unfold IpMonitor.check_failed, now. framing.
Qed.

Lemma scheduleNextCheck_config w :
  config_file (IpMonitor.scheduleNextCheck w).2 = config_file w /\
  config_writable (IpMonitor.scheduleNextCheck w).2 = config_writable w.
Proof.
  unfold IpMonitor.scheduleNextCheck, mbind, M_bind, bind,
    StorageService.readConfig.
  destruct (config_file w) eqn:E; simpl; auto.
Qed.

Lemma reschedule_settings_frame r w :
  settings_frame w (IpMonitor.reschedule r w).2.
Proof.
  assert (H : forall w, settings_frame w (IpMonitor.scheduleNextCheck w).2).
  { intros w0. destruct (scheduleNextCheck_config w0) as [A B].
    split; congruence. }
  destruct r as [result|err]; simpl; [|apply H].
  unfold try_catch. pose proof (H w) as H1.
  destruct (IpMonitor.scheduleNextCheck w) as [[[]|e] w1]; simpl in *;
    [exact H1|].
  etransitivity; [exact H1 | apply H].
Qed.

Lemma step_settings_frame l t : settings_frame (world l) (world (step l t)).
Proof.
  destruct t as [| | |handle|k]; simpl.
  - split; reflexivity.
  - unfold IpMonitor.stop, mbind, M_bind, bind, gets.
    destruct (interval (monitor (world l))); split; reflexivity.
  - destruct (isChecking (monitor (world l))); split; reflexivity.
  - destruct (timers (world l) !! handle); split; reflexivity.
  - destruct (inflight l !! k) as [o|]; [|reflexivity].
    pose proof (performIpCheck_settle_settings_frame (world l)) as F.
    destruct (IpMonitor.performIpCheck_settle (world l)) as [r w']. simpl in F.
    destruct o; simpl; try exact F;
      (etransitivity; [exact F|]);
      (etransitivity; [apply reschedule_settings_frame|]);
      (split; [apply unhandled_config_writable|]);
      now rewrite unhandled_config_file.
Qed.

(** X1.  The engine never touches the settings: whatever is called, whichever
    timers fire and cycles settle, the poll interval, the theme, the creation
    date and the force-update time in the config file are what they were, and
    a readable, writable file stays so. *)
Theorem engine_keeps_settings (l : Loop) (tasks : list Task) :
  (settings <$> config_file (world (run l tasks)))
    = (settings <$> config_file (world l)) /\
  config_writable (world (run l tasks)) = config_writable (world l).
Proof.
  revert l. induction tasks as [|t tasks IH]; intros l; [split; reflexivity|].
  simpl. destruct (IH (step l t)) as [A B].
  destruct (step_settings_frame l t) as [C D]. split; congruence.
Qed.

(** ** The cycle when something fails *)

Lemma check_body_detection_fails w0 e w1 :
  IpDetector.getCurrentIp w0 = (Throw e, w1) ->
  IpMonitor.check_body w0 = (Throw e, w1).
Proof.
  intros Hdet. unfold IpMonitor.check_body.
  now rewrite (bind_throw _ _ _ _ _ Hdet).
Qed.

Lemma check_body_config_unreadable w0 ip w1 :
  IpDetector.getCurrentIp w0 = (Normal ip, w1) ->
  config_file w1 = None ->
  IpMonitor.check_body w0 =
    (Throw (JsError "Failed to read configuration"), w1).
Proof.
  intros Hdet Hcfg. unfold IpMonitor.check_body.
  rewrite (bind_normal _ _ _ _ _ Hdet).
  assert (Hrc : StorageService.readConfig w1 =
                  (Throw (JsError "Failed to read configuration"), w1))
    by (unfold StorageService.readConfig; now rewrite Hcfg).
  now rewrite (bind_throw _ _ _ _ _ Hrc).
Qed.

Lemma check_body_config_unwritable w0 ip w1 cfg rd w2 :
  IpDetector.getCurrentIp w0 = (Normal ip, w1) ->
  config_file w1 = Some cfg ->
  CloudflareService.getDnsRecord w1 = (rd, w2) ->
  ip_changed (lastKnownIp cfg) ip rd = true ->
  config_file w2 = None \/ config_writable w2 = false ->
  IpMonitor.check_body w0 =
    (Throw (JsError "Failed to update last known IP"), w2).
Proof.
  intros Hdet Hcfg Hdns Hch Hbad.
  unfold IpMonitor.check_body.
  rewrite (bind_normal _ _ _ _ _ Hdet).
  assert (Hrc : StorageService.readConfig w1 = (Normal cfg, w1))
    by (unfold StorageService.readConfig; now rewrite Hcfg).
  rewrite (bind_normal _ _ _ _ _ Hrc).
  rewrite (bind_normal _ _ _ _ _ (dns_read_step _ _ _ Hdns)).
  unfold ip_changed in Hch. rewrite Hch.
  unfold mbind, M_bind, bind.
  now rewrite (updateLastKnownIp_fails ip w2 Hbad).
Qed.

Lemma check_body_history_unwritable w0 ip w1 cfg rd w2 ok w4 :
  IpDetector.getCurrentIp w0 = (Normal ip, w1) ->
  config_file w1 = Some cfg ->
  CloudflareService.getDnsRecord w1 = (rd, w2) ->
  ip_changed (lastKnownIp cfg) ip rd = true ->
  config_file w2 = Some cfg -> config_writable w2 = true ->
  CloudflareService.updateDnsRecord ip (persisted ip cfg w2) = (Normal ok, w4) ->
  history_file w4 = None \/ history_writable w4 = false ->
  IpMonitor.check_body w0 =
    (Throw (JsError "Failed to add update entry"),
     with_uuids (S (uuids w4)) w4).
Proof.
  intros Hdet Hcfg Hdns Hch Hcfg2 Hcw Hupd Hbad.
  unfold IpMonitor.check_body.
  rewrite (bind_normal _ _ _ _ _ Hdet).
  assert (Hrc : StorageService.readConfig w1 = (Normal cfg, w1))
    by (unfold StorageService.readConfig; now rewrite Hcfg).
  rewrite (bind_normal _ _ _ _ _ Hrc).
  rewrite (bind_normal _ _ _ _ _ (dns_read_step _ _ _ Hdns)).
  unfold ip_changed in Hch. rewrite Hch.
  unfold mbind, M_bind, bind, try_catch.
  rewrite (updateLastKnownIp_ok ip w2 cfg Hcfg2 Hcw).
  unfold persisted in Hupd. rewrite Hupd.
  cbv beta iota zeta delta [randomUUID now gets mret M_ret ret].
  now rewrite addUpdateEntry_fails by (simpl; exact Hbad).
Qed.

Lemma failure_recorded_status w :
  monitor (failure_recorded w) =
    mkMonitor (interval (monitor w)) (isChecking (monitor w)) error.
Proof.
  unfold failure_recorded.
  destruct (history_file w), (history_writable w); reflexivity.
Qed.

(** What a body that returns leaves as the status. *)
Lemma check_body_returns_active w0 r w' :
  IpMonitor.check_body w0 = (Normal r, w') ->
  mon_status (monitor w') = active.
Proof.
  intros H.
  destruct (IpDetector.getCurrentIp w0) as [[ip|e] w1] eqn:Hdet;
    [|rewrite (check_body_detection_fails _ _ _ Hdet) in H; discriminate].
  destruct (config_file w1) as [cfg|] eqn:Hcfg;
    [|rewrite (check_body_config_unreadable _ _ _ Hdet Hcfg) in H;
      discriminate].
  destruct (CloudflareService.getDnsRecord w1) as [rd w2] eqn:Hdns.
  destruct (ip_changed (lastKnownIp cfg) ip rd) eqn:Hch;
    [|rewrite (check_body_no_change _ _ _ _ _ _ Hdet Hcfg Hdns Hch) in H;
      injection H as <- <-; reflexivity].
  pose proof (getDnsRecord_frame w1) as F2. rewrite Hdns in F2. simpl in F2.
  destruct (provider_frame_same _ _ F2) as ([] & _).
  assert (Hcfg2 : config_file w2 = Some cfg) by congruence.
  destruct (config_writable w2) eqn:Hcw;
    [|rewrite (check_body_config_unwritable _ _ _ _ _ _ Hdet Hcfg Hdns Hch
                 (or_intror Hcw)) in H; discriminate].
  destruct (updateDnsRecord_returns ip (persisted ip cfg w2))
    as (ok & w4 & Hupd).
  destruct (history_file w4) as [h|] eqn:Hh;
    [|rewrite (check_body_history_unwritable _ _ _ _ _ _ _ _ Hdet Hcfg Hdns
                 Hch Hcfg2 Hcw Hupd (or_introl Hh)) in H; discriminate].
  destruct (history_writable w4) eqn:Hhw;
    [|rewrite (check_body_history_unwritable _ _ _ _ _ _ _ _ Hdet Hcfg Hdns
                 Hch Hcfg2 Hcw Hupd (or_intror Hhw)) in H; discriminate].
  rewrite (check_body_change _ _ _ _ _ _ _ _ _ Hdet Hcfg Hdns Hch Hcfg2 Hcw
             Hupd Hh Hhw) in H.
  destruct (is_test_mode (env w4) rd || ok); [|discriminate].
  injection H as <- <-. reflexivity.
Qed.

(** X2.  Whatever a cycle meets, it ends with the flag clear and with a
    status that tells how it ended: [active] when it returned, [error] when
    it threw; never [checking]. *)
Theorem cycle_status_reflects_outcome (w : World) :
  let run := IpMonitor.performIpCheck w in
  isChecking (monitor run.2) = false /\
  mon_status (monitor run.2) =
    match run.1 with
    | Normal _ => active
    | Throw _ => error
    end.
Proof.
  cbv zeta. rewrite performIpCheck_from_entered.
  destruct (IpMonitor.check_body (entered w)) as [[r|e] w'] eqn:Hbody.
  - rewrite (performIpCheck_settle_normal _ _ _ Hbody). simpl.
    split; [reflexivity|]. exact (check_body_returns_active _ _ _ Hbody).
  - rewrite (performIpCheck_settle_throw _ _ _ Hbody). simpl.
    split; [reflexivity|]. now rewrite failure_recorded_status.
Qed.

Lemma provider_writes_app evs1 evs2 :
  provider_writes (evs1 ++ evs2) = provider_writes evs1 ++ provider_writes evs2.
Proof. apply omap_app. Qed.

Lemma detection_no_provider_writes evs :
  Forall detection_event evs -> provider_writes evs = [].
Proof.
  induction 1 as [|e evs He _ IH]; [reflexivity|].
  destruct e; simpl in *; try contradiction; exact IH.
Qed.

Lemma failure_recorded_keeps w :
  config_file (failure_recorded w) = config_file w /\
  cf_requests (failure_recorded w) = cf_requests w /\
  ip_requests (failure_recorded w) = ip_requests w /\
  history_file (failure_recorded w) = failure_logged w /\
  provider_writes (trace (failure_recorded w)) = provider_writes (trace w).
Proof.
  unfold failure_recorded, failure_logged.
  destruct (history_file w) as [h|] eqn:Hh;
    [destruct (history_writable w) eqn:Hw|]; simpl; rewrite ?Hh;
    repeat split; try reflexivity.
  rewrite provider_writes_app. simpl. apply app_nil_r.
Qed.

Lemma first_success_entered settle w urls : forall i,
  first_success settle (entered w) urls i = first_success settle w urls i.
Proof.
  induction urls as [|url urls IH]; intros i; [reflexivity|].
  simpl. rewrite IH. reflexivity.
Qed.

(** X3.  When every request of the detection schedule fails, the cycle
    throws the detector's error after the eight requests, sets the status
    [error] and logs a [check_failed] entry if the history can be written; it
    sends nothing to the provider and leaves the config file alone. *)
Theorem detection_failure_cycle (w : World) :
  first_success IpDetector.settle_response w IpDetector_schedule 0 = None ->
  let run := IpMonitor.performIpCheck w in
  run.1 = Throw (JsError "Failed to detect IP address") /\
  mon_status (monitor run.2) = error /\
  ip_requests run.2 = (ip_requests w + 8)%nat /\
  cf_requests run.2 = cf_requests w /\
  config_file run.2 = config_file w /\
  history_file run.2 = failure_logged w.
Proof.
  intros Hnone. cbv zeta.
  destruct (IpDetector_getCurrentIp_scans (entered w)) as [Hscan Hthrow].
  unfold scans in Hscan. rewrite first_success_entered in Hscan, Hthrow.
  specialize (Hthrow Hnone).
  destruct (IpDetector.getCurrentIp (entered w)) as [r1 w1] eqn:Hdet.
  cbn [fst snd] in *. subst r1.
  destruct Hscan as (evs & _ & _ & Hm). rewrite Hnone in Hm.
  destruct Hm as (_ & _ & Hreq).
  pose proof (IpDetector_getCurrentIp_frame (entered w)) as F1.
  rewrite Hdet in F1. cbn [snd] in F1.
  destruct (detection_frame_same _ _ F1) as ([] & _ & Hcf & _).
  rewrite (failed_detection_cycle _ _ _ Hdet). cbn [fst snd].
  destruct (failure_recorded_keeps w1) as (Hc & Hq & Hi & Hh & _).
  split; [reflexivity|].
  split; [simpl; now rewrite failure_recorded_status|].
  split; [simpl; rewrite Hi, Hreq; simpl; lia|].
  split; [simpl; rewrite Hq; exact Hcf|].
  split; [simpl; rewrite Hc; assumption|].
  simpl. rewrite Hh. unfold failure_logged, failure_entry.
  simpl in *.
  now rewrite same_history_file0, same_history_writable0, same_uuids0,
    same_clock0.
Qed.

Lemma detection_failure_cycle_witness :
  let run := IpMonitor.performIpCheck Faults.silent_world in
  run.1 = Throw (JsError "Failed to detect IP address") /\
  mon_status (monitor run.2) = error /\
  ip_requests run.2 = 8%nat /\
  cf_requests run.2 = 0%nat.
Proof.
  destruct (detection_failure_cycle Faults.silent_world eq_refl)
    as (Hr & Hs & Hi & Hc & _).
  cbv zeta. auto.
Defined.

(** X4.  With an unreadable config file, a cycle whose detection succeeded
    throws [Failed to read configuration] before anything is asked of the
    provider; the status is [error] and the failure is logged. *)
Theorem unreadable_config_cycle (w w1 : World) (ip : string) :
  IpDetector.getCurrentIp (entered w) = (Normal ip, w1) ->
  config_file w = None ->
  let run := IpMonitor.performIpCheck w in
  run.1 = Throw (JsError "Failed to read configuration") /\
  mon_status (monitor run.2) = error /\
  cf_requests run.2 = cf_requests w /\
  config_file run.2 = None /\
  history_file run.2 = failure_logged w.
Proof.
  intros Hdet Hcfg. cbv zeta.
  pose proof (IpDetector_getCurrentIp_frame (entered w)) as F1.
  rewrite Hdet in F1. cbn [snd] in F1.
  destruct (detection_frame_same _ _ F1) as ([] & _ & Hcf & _).
  simpl in *.
  rewrite performIpCheck_from_entered.
  rewrite (performIpCheck_settle_throw _ _ _
             (check_body_config_unreadable (entered w) ip w1 Hdet
                ltac:(congruence))).
  destruct (failure_recorded_keeps w1) as (Hc & Hq & _ & Hh & _).
  cbn [fst snd]. split; [reflexivity|].
  split; [simpl; now rewrite failure_recorded_status|].
  split; [simpl; congruence|].
  split; [simpl; congruence|].
  simpl. rewrite Hh. unfold failure_logged, failure_entry.
  now rewrite same_history_file0, same_history_writable0, same_uuids0,
    same_clock0.
Qed.

Lemma unreadable_config_cycle_witness :
  let run := IpMonitor.performIpCheck Faults.unreadable_config_world in
  run.1 = Throw (JsError "Failed to read configuration") /\
  cf_requests run.2 = 0%nat.
Proof.
  destruct (unreadable_config_cycle Faults.unreadable_config_world
              (IpDetector.getCurrentIp
                 (entered Faults.unreadable_config_world)).2
              "198.51.100.2" eq_refl eq_refl)
    as (Hr & _ & Hc & _).
  cbv zeta. auto.
Defined.

(** X5.  The stored IP is written before the provider is: when a changed
    cycle cannot write the config file, it throws [Failed to update last
    known IP] after the one read of the DNS record, and no write reaches the
    provider. *)
Theorem unwritable_config_blocks_dns_write
    (w w1 w2 : World) (ip : string) (cfg : Config)
    (rd : Completion (option CloudflareRecord)) :
  IpDetector.getCurrentIp (entered w) = (Normal ip, w1) ->
  config_file w = Some cfg -> config_writable w = false ->
  CloudflareService.getDnsRecord w1 = (rd, w2) ->
  ip_changed (lastKnownIp cfg) ip rd = true ->
  let run := IpMonitor.performIpCheck w in
  run.1 = Throw (JsError "Failed to update last known IP") /\
  mon_status (monitor run.2) = error /\
  config_file run.2 = Some cfg /\
  cf_requests run.2 = S (cf_requests w) /\
  provider_writes (trace run.2) = provider_writes (trace w) /\
  history_file run.2 = failure_logged w.
Proof.
  intros Hdet Hcfg Hcw Hdns Hch. cbv zeta.
  destruct (cycle_reads_frame _ _ _ _ _ Hdet Hdns)
    as (S1 & S2 & evs1 & evs2 & Ht1 & He1 & Ht2 & He2).
  pose proof (IpDetector_getCurrentIp_frame (entered w)) as F1.
  rewrite Hdet in F1. cbn [snd] in F1.
  destruct (detection_frame_same _ _ F1) as (_ & _ & Hcf1 & _).
  destruct (getDnsRecord_one_request w1) as (url & Hw2 & _).
  rewrite Hdns in Hw2. cbn [snd] in Hw2.
  destruct S1, S2. simpl in *.
  rewrite performIpCheck_from_entered.
  rewrite (performIpCheck_settle_throw _ _ _
             (check_body_config_unwritable (entered w) ip w1 cfg rd w2 Hdet
                ltac:(simpl; congruence) Hdns Hch
                ltac:(right; congruence))).
  destruct (failure_recorded_keeps w2) as (Hc & Hq & _ & Hh & Hp).
  cbn [fst snd]. split; [reflexivity|].
  split; [simpl; now rewrite failure_recorded_status|].
  split; [simpl; congruence|].
  split; [simpl; rewrite Hq, Hw2; simpl; congruence|].
  split.
  - simpl. rewrite Hp, Hw2. unfold requested, emit. simpl.
    rewrite Ht1, !provider_writes_app, (detection_no_provider_writes _ He1).
    simpl. now rewrite !app_nil_r.
  - simpl. rewrite Hh. unfold failure_logged, failure_entry.
    now rewrite same_history_file1, same_history_writable1, same_uuids1,
      same_clock1.
Qed.

Lemma unwritable_config_blocks_dns_write_witness :
  let run := IpMonitor.performIpCheck Faults.read_only_config_world in
  run.1 = Throw (JsError "Failed to update last known IP") /\
  cf_requests run.2 = 1%nat /\
  provider_writes (trace run.2) = [].
Proof.
  set (w := Faults.read_only_config_world).
  set (w1 := (IpDetector.getCurrentIp (entered w)).2).
  destruct (unwritable_config_blocks_dns_write w w1
              (CloudflareService.getDnsRecord w1).2 "198.51.100.2"
              Faults.stored
              (Normal (Some (Scenario.record_with "198.51.100.1")))
              eq_refl eq_refl eq_refl eq_refl eq_refl)
    as (Hr & _ & _ & Hc & Hp & _).
  cbv zeta. auto.
Defined.

(** X6.  When a changed cycle cannot write the history file, it throws
    [Failed to add update entry] and ends in status [error] whatever the
    provider write returned, also when the DNS record was updated; the new
    IP stays persisted and the history stays as it was. *)
Theorem unwritable_history_fails_cycle
    (w w1 w2 : World) (ip : string) (cfg : Config)
    (rd : Completion (option CloudflareRecord)) :
  IpDetector.getCurrentIp (entered w) = (Normal ip, w1) ->
  config_file w = Some cfg -> config_writable w = true ->
  history_file w = None \/ history_writable w = false ->
  CloudflareService.getDnsRecord w1 = (rd, w2) ->
  ip_changed (lastKnownIp cfg) ip rd = true ->
  let run := IpMonitor.performIpCheck w in
  exists ok w4,
    CloudflareService.updateDnsRecord ip (persisted ip cfg w2) = (Normal ok, w4)
    /\ run.1 = Throw (JsError "Failed to add update entry")
    /\ mon_status (monitor run.2) = error
    /\ config_file run.2 = Some (config_with_ip ip (clock w) cfg)
    /\ history_file run.2 = history_file w
    /\ trace run.2 = trace w4.
Proof.
  intros Hdet Hcfg Hcw Hbad Hdns Hch. cbv zeta.
  destruct (cycle_reads_frame _ _ _ _ _ Hdet Hdns) as (S1 & S2 & _).
  destruct (updateDnsRecord_returns ip (persisted ip cfg w2))
    as (ok & w4 & Hupd).
  pose proof (updateDnsRecord_frame ip (persisted ip cfg w2)) as F4.
  rewrite Hupd in F4. cbn [snd] in F4.
  destruct (provider_frame_same _ _ F4) as (S4 & _).
  exists ok, w4. split; [exact Hupd|].
  destruct S1, S2, S4. simpl in *.
  assert (Hbad4 : history_file w4 = None \/ history_writable w4 = false)
    by (destruct Hbad; [left | right]; congruence).
  rewrite performIpCheck_from_entered.
  rewrite (performIpCheck_settle_throw _ _ _
             (check_body_history_unwritable (entered w) ip w1 cfg rd w2 ok w4
                Hdet ltac:(simpl; congruence) Hdns Hch ltac:(congruence)
                ltac:(congruence) Hupd Hbad4)).
  cbn [fst snd]. split; [reflexivity|].
  split; [simpl; now rewrite failure_recorded_status|].
  unfold failure_recorded. simpl.
  assert (Hfile :
    match history_file w4, history_writable w4 with
    | Some h, true => false
    | _, _ => true
    end = true).
  { destruct Hbad4 as [-> | ->]; [reflexivity|].
    destruct (history_file w4); reflexivity. }
  destruct (history_file w4) as [h|] eqn:Hh4;
    [destruct (history_writable w4) eqn:Hw4; [discriminate|]|];
    simpl; (split; [congruence|]); (split; [congruence|]); reflexivity.
Qed.

Lemma unwritable_history_fails_cycle_witness :
  let run := IpMonitor.performIpCheck Faults.read_only_history_world in
  run.1 = Throw (JsError "Failed to add update entry") /\
  mon_status (monitor run.2) = error /\
  (lastKnownIp <$> config_file run.2) = Some (Some "198.51.100.2") /\
  length (provider_writes (trace run.2)) = 1%nat.
Proof.
  set (w := Faults.read_only_history_world).
  set (w1 := (IpDetector.getCurrentIp (entered w)).2).
  destruct (unwritable_history_fails_cycle w w1
              (CloudflareService.getDnsRecord w1).2 "198.51.100.2"
              Faults.stored
              (Normal (Some (Scenario.record_with "198.51.100.1")))
              eq_refl eq_refl eq_refl (or_intror eq_refl) eq_refl eq_refl)
    as (ok & w4 & Hupd & Hr & Hs & Hc & _ & Ht).
  vm_compute in Hupd. injection Hupd as <- <-.
  cbv zeta. split; [exact Hr|]. split; [exact Hs|].
  split; [now rewrite Hc|]. now rewrite Ht.
Defined.

(** ** The schedule: timers and the cycles that re-arm them *)

Lemma detection_keeps_armed w w' : detection_frame w w' -> keeps armed w w'.
Proof.
  intros F. destruct (detection_frame_same _ _ F) as ([] & _).
  unfold keeps, armed. congruence.
Qed.

Lemma provider_keeps_armed w w' : provider_frame w w' -> keeps armed w w'.
Proof.
  intros F. destruct (provider_frame_same _ _ F) as ([] & _).
  unfold keeps, armed. congruence.
Qed.

Lemma updateLastKnownIp_armed ip :
  stays (keeps armed) (StorageService.updateLastKnownIp ip).
Proof.
  intros w. destruct (config_file w) as [c|] eqn:Hc.
  - destruct (config_writable w) eqn:Hw.
    + now rewrite (updateLastKnownIp_ok ip w c Hc Hw).
    + now rewrite updateLastKnownIp_fails by auto.
  - now rewrite updateLastKnownIp_fails by auto.
Qed.

Lemma addUpdateEntry_armed entry :
  stays (keeps armed) (StorageService.addUpdateEntry entry).
Proof.
  intros w. destruct (history_file w) as [h|] eqn:Hh.
  - destruct (history_writable w) eqn:Hw.
    + now rewrite (addUpdateEntry_ok entry w h Hh Hw).
    + now rewrite addUpdateEntry_fails by auto.
  - now rewrite addUpdateEntry_fails by auto.
Qed.

Lemma readConfig_armed : stays (keeps armed) StorageService.readConfig.
Proof.
  intros w. unfold StorageService.readConfig.
  destruct (config_file w); reflexivity.
Qed.

Lemma randomUUID_armed : stays (keeps armed) randomUUID.
Proof. intros w. reflexivity. Qed.

Lemma set_status_armed s : stays (keeps armed) (IpMonitor.set_status s).
Proof. intros w. reflexivity. Qed.

Lemma getCurrentIp_armed : stays (keeps armed) IpDetector.getCurrentIp.
Proof.
  eapply stays_weaken;
    [apply detection_keeps_armed | apply IpDetector_getCurrentIp_frame].
Qed.

Lemma getDnsRecord_armed : stays (keeps armed) CloudflareService.getDnsRecord.
Proof.
  eapply stays_weaken; [apply provider_keeps_armed | apply getDnsRecord_frame].
Qed.

Lemma updateDnsRecord_armed ip :
  stays (keeps armed) (CloudflareService.updateDnsRecord ip).
Proof.
  eapply stays_weaken;
    [apply provider_keeps_armed | apply updateDnsRecord_frame].
Qed.

#[export] Hint Resolve updateLastKnownIp_armed addUpdateEntry_armed
  readConfig_armed randomUUID_armed set_status_armed getCurrentIp_armed
  getDnsRecord_armed updateDnsRecord_armed : frame.

(** A cycle arms and cancels nothing: timers are the business of what is
    chained on it. *)
Lemma performIpCheck_settle_armed :
  stays (keeps armed) IpMonitor.performIpCheck_settle.
Proof.
  unfold IpMonitor.performIpCheck_settle.
  apply stays_try_finally; [apply _ | | intros w; reflexivity].
  apply stays_try_catch; [apply _ | |].
  - unfold IpMonitor.check_body, now. framing.
  - intros e. unfold IpMonitor.check_failed, now. framing.
Qed.

Lemma scheduleNextCheck_cases w :
  (config_file w = None /\
   IpMonitor.scheduleNextCheck w =
     (Throw (JsError "Failed to read configuration"), w)) \/
  (exists delay w',
     IpMonitor.scheduleNextCheck w = (Normal tt, w') /\
     timers w' = <[next_timer w := delay]> (timers w) /\
     config_file w' = config_file w).
Proof.
  unfold IpMonitor.scheduleNextCheck, mbind, M_bind, bind,
    StorageService.readConfig.
  destruct (config_file w) as [cfg|] eqn:Hc; [right | left; auto].
  do 2 eexists. split; [reflexivity|]. simpl. split; [reflexivity|].
  exact Hc.
Qed.

Lemma reschedule_arms_at_most_one r w :
  (size (timers (IpMonitor.reschedule r w).2) <= S (size (timers w)))%nat.
Proof.
  assert (H : forall w,
    (size (timers (IpMonitor.scheduleNextCheck w).2) <= S (size (timers w)))%nat).
  { intros w0.
    destruct (scheduleNextCheck_cases w0) as [[_ E]|(d & w' & E & Ht & _)];
      rewrite E; simpl; [lia|].
    rewrite Ht, map_size_insert. destruct (timers w0 !! next_timer w0); simpl; lia. }
  destruct r as [result|err]; simpl; [|apply H].
  unfold try_catch.
  destruct (scheduleNextCheck_cases w) as [[_ E]|(d & w' & E & Ht & _)].
  - rewrite E. apply H.
  - specialize (H w). rewrite E in H |- *. exact H.
Qed.

Lemma filter_delete_reschedules (inflight : list Origin) : forall k o,
  inflight !! k = Some o ->
  (length (List.filter reschedules (delete k inflight))
   + (if reschedules o then 1 else 0)
   = length (List.filter reschedules inflight))%nat.
Proof.
  induction inflight as [|o' rest IH]; intros k o Hk; [discriminate|].
  destruct k as [|k]; simpl in Hk.
  - injection Hk as ->. simpl. destruct (reschedules o); simpl; lia.
  - specialize (IH k o Hk). simpl.
    destruct (reschedules o'); simpl; lia.
Qed.

Lemma step_chains l t :
  (chains (step l t) <= chains l + (if is_start t then 1 else 0))%nat.
Proof.
  unfold chains. destruct t as [| | |handle|k]; simpl.
  - rewrite List.filter_app, length_app. simpl. lia.
  - unfold IpMonitor.stop, mbind, M_bind, bind, gets.
    destruct (interval (monitor (world l))) as [handle|]; simpl; [|lia].
    rewrite map_size_delete.
    destruct (timers (world l) !! handle); simpl; lia.
  - destruct (isChecking (monitor (world l))); simpl; [lia|].
    rewrite List.filter_app, length_app. simpl. lia.
  - destruct (timers (world l) !! handle) as [delay|] eqn:Hh; simpl; [|lia].
    rewrite List.filter_app, length_app. simpl.
    rewrite <- (insert_delete_id (timers (world l)) handle delay Hh) at 2.
    rewrite map_size_insert, lookup_delete_eq. simpl. lia.
  - destruct (inflight l !! k) as [o|] eqn:Hk; simpl; [|lia].
    pose proof (performIpCheck_settle_armed (world l)) as F.
    pose proof (filter_delete_reschedules _ _ _ Hk) as Hd.
    destruct (IpMonitor.performIpCheck_settle (world l)) as [r w'].
    unfold keeps, armed in F. simpl in F. injection F as _ Ht _.
    pose proof (reschedule_arms_at_most_one r w') as Hr. rewrite Ht in Hr.
    destruct o; simpl in *; rewrite ?unhandled_timers;
      try (rewrite Ht; lia); lia.
Qed.

(** X7.  Only [start] begins a chain of scheduled checks.  The timers armed
    plus the cycles in flight that will re-arm one never become more than
    they were, plus one for each call of [start]: a timer that fires is
    replaced by its cycle, a cycle that settles by at most one timer, and
    [forceCheck] and [stop] add none. *)
Theorem schedule_chains_bounded (l : Loop) (tasks : list Task) :
  (chains (run l tasks) <= chains l + length (List.filter is_start tasks))%nat.
Proof.
  revert l. induction tasks as [|t tasks IH]; intros l; simpl; [lia|].
  specialize (IH (step l t)). pose proof (step_chains l t).
  destruct (is_start t); simpl; lia.
Qed.

Lemma run_no_call_idle l tasks :
  inflight l = [] -> timers (world l) = ∅ -> Forall no_call tasks ->
  run l tasks = l.
Proof.
  intros Hin Ht. induction 1 as [|t tasks Hn _ IH]; [reflexivity|].
  simpl. destruct t as [| | |handle|k]; simpl in Hn; try contradiction; simpl.
  - rewrite Ht, lookup_empty. exact IH.
  - rewrite Hin. simpl. exact IH.
Qed.

Lemma reschedule_unreadable_throws r w :
  config_file w = None ->
  IpMonitor.reschedule r w =
    (Throw (JsError "Failed to read configuration"), w).
Proof.
  intros Hcfg.
  destruct (scheduleNextCheck_cases w) as [[_ E]|(d & w' & E & _ & _)].
  - destruct r; simpl; unfold try_catch; now rewrite ?E, ?E.
  - unfold IpMonitor.scheduleNextCheck, mbind, M_bind, bind,
      StorageService.readConfig in E.
    rewrite Hcfg in E. discriminate.
Qed.

(** X8.  Rescheduling reads the config file.  When the file is unreadable as
    a cycle begun by [start] or by the timer settles, the last handler on
    its promise throws [Failed to read configuration]: the rejection is
    unhandled, the last thing on the trace, and by Node's default the end of
    the process; no timer has been armed.  If that cycle was the only thing
    pending, nothing is left that could run, the process kept alive or
    not. *)
Theorem unreadable_config_ends_schedule
    (l : Loop) (k : nat) (o : Origin) (tasks : list Task) :
  config_file (world l) = None ->
  inflight l !! k = Some o ->
  o <> FromForce ->
  let l' := step l (CycleSettles k) in
  last (trace (world l')) =
    Some (EvUnhandledRejection (JsError "Failed to read configuration")) /\
  timers (world l') = timers (world l) /\
  config_file (world l') = None /\
  (timers (world l) = ∅ -> length (inflight l) = 1%nat ->
   Forall no_call tasks ->
   inflight l' = [] /\ run l' tasks = l').
Proof.
  intros Hcfg Hk Ho. cbv zeta.
  assert (Hstep : exists w',
    step l (CycleSettles k) =
      mkLoop (emit (EvUnhandledRejection
                      (JsError "Failed to read configuration")) w')
        (delete k (inflight l)) (replies l) /\
    timers w' = timers (world l) /\ config_file w' = None).
  { simpl. rewrite Hk.
    pose proof (performIpCheck_settle_armed (world l)) as F.
    pose proof (performIpCheck_settle_settings_frame (world l)) as [_ G].
    destruct (IpMonitor.performIpCheck_settle (world l)) as [r w'].
    unfold keeps, armed in F. simpl in F, G. injection F as _ Ht _.
    rewrite Hcfg in G.
    assert (Hcfg' : config_file w' = None)
      by (destruct (config_file w'); [discriminate | reflexivity]).
    exists w'.
    destruct o; try congruence;
      now rewrite (reschedule_unreadable_throws r w' Hcfg'). }
  destruct Hstep as (w' & -> & Ht & Hc). cbn [world inflight].
  split; [apply last_snoc|]. split; [exact Ht|]. split; [exact Hc|].
  intros Hempty Hlen Hcalls.
  assert (Hin : delete k (inflight l) = []).
  { destruct (inflight l) as [|o' [|]]; try discriminate.
    destruct k; [reflexivity | discriminate]. }
  split; [exact Hin|].
  apply run_no_call_idle; [exact Hin | simpl; congruence | exact Hcalls].
Qed.

Lemma unreadable_config_ends_schedule_witness :
  let l := step (mkLoop Faults.unreadable_config_world [] []) CallStart in
  let l' := step l (CycleSettles 0) in
  inflight l = [FromStart] /\
  last (trace (world l')) =
    Some (EvUnhandledRejection (JsError "Failed to read configuration")) /\
  timers (world l') = ∅ /\
  inflight l' = [].
Proof.
  cbv zeta.
  destruct (unreadable_config_ends_schedule
              (step (mkLoop Faults.unreadable_config_world [] []) CallStart)
              0 FromStart [TimerFires 0; CycleSettles 0; TimerFires 1]
              eq_refl eq_refl)
    as (Hlast & Ht & _ & Hdead); [discriminate|].
  split; [reflexivity|]. split; [exact Hlast|].
  split; [rewrite Ht; reflexivity|].
  apply Hdead; [reflexivity | reflexivity | repeat constructor].
Defined.

(** X9.  [stop] called while nothing is in flight and the one armed timer is
    the one the engine remembers does end the checks: the timer is
    cancelled, and until [start] or [forceCheck] is called nothing runs. *)
Theorem stop_when_idle_ends_schedule
    (l : Loop) (handle : nat) (delay : Z) (tasks : list Task) :
  inflight l = [] ->
  interval (monitor (world l)) = Some handle ->
  timers (world l) = {[handle := delay]} ->
  Forall no_new_call tasks ->
  let l' := step l CallStop in
  timers (world l') = ∅ /\
  interval (monitor (world l')) = None /\
  run l' tasks = l'.
Proof.
  intros Hin Hi Ht Hcalls. cbv zeta.
  destruct (stop_cancels_pending_timer (world l) handle Hi) as [Ht' Hi'].
  rewrite Ht, delete_singleton_eq in Ht'.
  simpl. split; [exact Ht'|]. split; [exact Hi'|].
  apply stopped_idle_stays; auto.
Qed.

Lemma stop_when_idle_ends_schedule_witness :
  let l := run (mkLoop Scenario.steady_world [] []) [CallStart; CycleSettles 0] in
  let l' := step l CallStop in
  timers (world l) = {[0%nat := 300000]} /\
  timers (world l') = ∅ /\
  run l' [TimerFires 0; CycleSettles 0; CallStop] = l'.
Proof.
  cbv zeta.
  destruct (stop_when_idle_ends_schedule
              (run (mkLoop Scenario.steady_world [] [])
                 [CallStart; CycleSettles 0])
              0 300000 [TimerFires 0; CycleSettles 0; CallStop]
              eq_refl eq_refl eq_refl)
    as (Ht & _ & Hdead).
  - repeat constructor.
  - split; [reflexivity|]. split; [exact Ht | exact Hdead].
Defined.

(** ** Detection: the pauses between attempts, and what an address is *)

Lemma retry_loop_all_fail settle max delays url :
  forall iterations attempt lastError w,
    (forall i, (i < iterations)%nat ->
       exists e, answer settle w i url = Throw e) ->
    let run :=
      retry_loop max delays (request settle url) iterations attempt lastError w
    in
    run.1 = match iterations with
            | O => Throw lastError
            | S last => answer settle w last url
            end /\
    trace run.2 = trace w ++ backoff max delays url iterations attempt /\
    ip_requests run.2 = (ip_requests w + iterations)%nat.
Proof.
  induction iterations as [|n IH]; intros attempt lastError w Hfail.
  - simpl. rewrite app_nil_r. auto.
  - cbv zeta. rewrite retry_loop_step.
    destruct (Hfail 0%nat) as [e He]; [lia|].
    unfold answer in He. rewrite Nat.add_0_r in He. rewrite He.
    set (w1 := paused max delays attempt (asked url w)).
    assert (Hw1 : ip_net w1 = ip_net w /\
                  ip_requests w1 = S (ip_requests w) /\
                  trace w1 = trace w ++ EvHttpGet url ::
                    (if (attempt <? max)%nat
                     then [EvSleep (default 1 (delays !! attempt))] else [])).
    { subst w1. unfold paused. destruct (attempt <? max)%nat; simpl.
      - rewrite <- app_assoc. auto.
      - auto. }
    destruct Hw1 as (Hnet & Hreq & Htr).
    destruct (IH (S attempt) e w1) as (Hr & Ht & Hq).
    { intros i Hi. destruct (Hfail (S i)) as [e' He']; [lia|].
      exists e'. unfold answer in *. rewrite Hnet, Hreq.
      now replace (S (ip_requests w) + i)%nat with (ip_requests w + S i)%nat
        by lia. }
    split; [|split].
    + rewrite Hr. destruct n as [|last].
      * unfold answer. now rewrite Nat.add_0_r, He.
      * unfold answer. rewrite Hnet, Hreq. do 2 f_equal. lia.
    + rewrite Ht, Htr. simpl. now rewrite <- app_assoc.
    + rewrite Hq, Hreq. lia.
Qed.

(** X10.  [retryOperation] on a source of which four answers in a row fail:
    it asks four times, pauses 1, 2 and 4 seconds between the attempts and
    not after the last, and throws what the last attempt threw. *)
Theorem retryOperation_backoff (url : string) (w : World) :
  (forall i, (i < 4)%nat ->
     exists e, answer IpDetector.settle_response w i url = Throw e) ->
  let run := IpDetector.retryOperation (IpDetector.httpRequest url) w in
  run.1 = answer IpDetector.settle_response w 3 url /\
  trace run.2 =
    trace w ++ [ EvHttpGet url; EvSleep 1000; EvHttpGet url; EvSleep 2000;
                 EvHttpGet url; EvSleep 4000; EvHttpGet url ] /\
  ip_requests run.2 = (ip_requests w + 4)%nat.
Proof.
  intros Hfail.
  exact (retry_loop_all_fail IpDetector.settle_response IpDetector.MAX_RETRIES
           IpDetector.RETRY_DELAYS url 4 0 JsUndefined w Hfail).
Qed.

Lemma retryOperation_backoff_witness :
  let run :=
    IpDetector.retryOperation (IpDetector.httpRequest IpDetector.ipify_url)
      Scenario.fallback_world in
  run.1 = Throw (JsError "Request timeout after 5000ms") /\
  length (trace run.2) = 7%nat.
Proof.
  destruct (retryOperation_backoff IpDetector.ipify_url Scenario.fallback_world)
    as (Hr & Ht & _).
  - intros i _. eexists. reflexivity.
  - cbv zeta. rewrite Hr, Ht. split; reflexivity.
Defined.

Lemma list_ascii_of_string_app a b :
  String.list_ascii_of_string (a +:+ b) =
    String.list_ascii_of_string a ++ String.list_ascii_of_string b.
Proof. induction a as [|c a IH]; simpl; [reflexivity | now rewrite IH]. Qed.

Lemma string_of_list_ascii_app l1 l2 :
  String.string_of_list_ascii (l1 ++ l2) =
    String.string_of_list_ascii l1 +:+ String.string_of_list_ascii l2.
Proof. induction l1 as [|c l1 IH]; simpl; [reflexivity | now rewrite IH]. Qed.

Lemma reverse_string_involutive s : reverse_string (reverse_string s) = s.
Proof.
  unfold reverse_string.
  rewrite String.list_ascii_of_string_of_list_ascii, rev_involutive.
  apply String.string_of_list_ascii_of_string.
Qed.

Lemma reverse_string_app a b :
  reverse_string (a +:+ b) = reverse_string b +:+ reverse_string a.
Proof.
  unfold reverse_string.
  now rewrite list_ascii_of_string_app, rev_app_distr, string_of_list_ascii_app.
Qed.

Lemma append_assoc (a b c : string) : (a +:+ b) +:+ c = a +:+ (b +:+ c).
Proof.
  induction a as [|x a IH]; [reflexivity|].
  change (String x ((a +:+ b) +:+ c) = String x (a +:+ (b +:+ c))).
  now f_equal.
Qed.

Lemma append_empty_r (a : string) : a +:+ "" = a.
Proof.
  induction a as [|x a IH]; [reflexivity|].
  change (String x (a +:+ "") = String x a). now f_equal.
Qed.

Lemma append_cons c (a b : string) : String c a +:+ b = String c (a +:+ b).
Proof. reflexivity. Qed.

Lemma length_append (a b : string) :
  String.length (a +:+ b) = (String.length a + String.length b)%nat.
Proof.
  induction a as [|x a IH]; [reflexivity|].
  rewrite append_cons. cbn [String.length]. now rewrite IH.
Qed.

(** One round of [strip]: nothing to remove, or a character removed. *)
Lemma strip_cases backwards s :
  strip backwards s = s \/
  exists p rest,
    p <> "" /\ s = p +:+ rest /\ strip backwards s = strip backwards rest.
Proof.
  destruct s as [|c1 rest1]; [now left|]. cbn [strip].
  destruct (is_white_space c1).
  { right. exists (String c1 ""), rest1. now repeat split. }
  destruct rest1 as [|c2 rest2]; [now left|].
  destruct (if backwards then is_white_space2 c2 c1 else is_white_space2 c1 c2).
  { right. exists (String c1 (String c2 "")), rest2. now repeat split. }
  destruct rest2 as [|c3 rest3]; [now left|].
  destruct (if backwards then is_white_space3 c3 c2 c1
            else is_white_space3 c1 c2 c3).
  { right. exists (String c1 (String c2 (String c3 ""))), rest3.
    now repeat split. }
  now left.
Qed.

Lemma strip_suffix_bounded backwards : forall n s,
  (String.length s <= n)%nat -> exists p, s = p +:+ strip backwards s.
Proof.
  induction n as [|n IH]; intros s Hn.
  - destruct s; [now exists "" | simpl in Hn; lia].
  - destruct (strip_cases backwards s) as [E|(p & rest & Hp & Hs & E)].
    + exists "". now rewrite E.
    + destruct (IH rest) as [q Hq].
      { subst s. rewrite length_append in Hn.
        destruct p; [congruence | simpl in Hn; lia]. }
      exists (p +:+ q). now rewrite E, append_assoc, <- Hq.
Qed.

Lemma strip_suffix backwards s : exists p, s = p +:+ strip backwards s.
Proof. exact (strip_suffix_bounded backwards _ s (le_n _)). Qed.

Lemma strip_length backwards s :
  (String.length (strip backwards s) <= String.length s)%nat.
Proof.
  destruct (strip_suffix backwards s) as [p Hp].
  rewrite Hp at 2. rewrite length_append. lia.
Qed.

Lemma strip_clean_bounded backwards : forall n s,
  (String.length s <= n)%nat -> starts_clean backwards (strip backwards s).
Proof.
  unfold starts_clean. induction n as [|n IH]; intros s Hn.
  - destruct s; [reflexivity | simpl in Hn; lia].
  - destruct (strip_cases backwards s) as [E|(p & rest & Hp & Hs & E)].
    + now rewrite !E.
    + rewrite E. apply IH. subst s. rewrite length_append in Hn.
      destruct p; [congruence | simpl in Hn; lia].
Qed.

Lemma strip_clean backwards s : starts_clean backwards (strip backwards s).
Proof. exact (strip_clean_bounded backwards _ s (le_n _)). Qed.

(** What is left after removing more than nothing is shorter. *)
Lemma strip_shorter backwards (rest whole : string) :
  (String.length rest < String.length whole)%nat ->
  strip backwards rest <> whole.
Proof.
  intros Hlt E. pose proof (strip_length backwards rest) as H.
  rewrite E in H. lia.
Qed.

Lemma starts_clean_prefix backwards a b :
  starts_clean backwards (a +:+ b) -> starts_clean backwards a.
Proof.
  unfold starts_clean.
  destruct a as [|c1 a1]; [reflexivity|].
  rewrite append_cons. cbn [strip].
  destruct (is_white_space c1).
  { intros H. exfalso. revert H. apply strip_shorter. simpl. lia. }
  destruct a1 as [|c2 a2]; [reflexivity|].
  rewrite append_cons.
  destruct (if backwards then is_white_space2 c2 c1 else is_white_space2 c1 c2).
  { intros H. exfalso. revert H. apply strip_shorter. simpl. lia. }
  destruct a2 as [|c3 a3]; [reflexivity|].
  rewrite append_cons.
  destruct (if backwards then is_white_space3 c3 c2 c1
            else is_white_space3 c1 c2 c3).
  { intros H. exfalso. revert H. apply strip_shorter. simpl. lia. }
  reflexivity.
Qed.

(** [trim] leaves nothing to trim, at either end. *)
Lemma trim_idempotent s : trim (trim s) = trim s.
Proof.
  unfold trim at 2 3. unfold trimEnd, trimStart.
  set (t := strip false s).
  destruct (strip_suffix true (reverse_string t)) as [p Hp].
  set (u := strip true (reverse_string t)) in *.
  assert (Hu : strip true u = u) by apply strip_clean.
  assert (Hr : strip false (reverse_string u) = reverse_string u).
  { apply (starts_clean_prefix false _ (reverse_string p)).
    unfold starts_clean.
    rewrite <- reverse_string_app, <- Hp, reverse_string_involutive.
    apply strip_clean. }
  unfold trim, trimEnd, trimStart.
  now rewrite Hr, reverse_string_involutive, Hu.
Qed.

Lemma truthy_nonempty s : truthy (Some s) = true -> s <> "".
Proof. intros H ->. discriminate. Qed.

Lemma IpDetector_settle_response_trimmed url outcome ip :
  IpDetector.settle_response url outcome = Normal ip ->
  ip <> "" /\ trim ip = ip.
Proof.
  destruct outcome as [| m | statusCode statusMessage body];
    cbn [IpDetector.settle_response]; try discriminate.
  destruct (negb (statusCode =? 200)); [discriminate|].
  intros H.
  assert (Hip : exists s, ip = trim s /\ truthy (Some ip) = true).
  { destruct (includes "ipify" url).
    - destruct (json_field body "ip") as [s| |e];
        cbv beta iota delta [catch_completion] in H; try discriminate.
      destruct (truthy (Some (trim s))) eqn:Ht; [|discriminate].
      injection H as <-. eauto.
    - destruct (truthy (Some (trim (data body)))) eqn:Ht;
        cbv beta iota delta [catch_completion] in H; [|discriminate].
      injection H as <-. eauto. }
  destruct Hip as (s & -> & Ht).
  split; [now apply truthy_nonempty | apply trim_idempotent].
Qed.

Lemma IpDetectorMulti_settle_response_trimmed url outcome ip :
  IpDetectorMulti.settle_response url outcome = Normal ip ->
  ip <> "" /\ trim ip = ip.
Proof.
  destruct outcome as [| m | statusCode statusMessage body];
    cbn [IpDetectorMulti.settle_response]; try discriminate.
  destruct (negb (statusCode =? 200)); [discriminate|].
  intros H.
  assert (Hip : exists s, ip = trim s /\ truthy (Some ip) = true).
  { destruct (includes "ipify" url); [|destruct (includes "httpbin" url)].
    - destruct (json_field body "ip") as [s| |e];
        cbv beta iota delta [catch_completion] in H; try discriminate.
      destruct (truthy (Some (trim s))) eqn:Ht; [|discriminate].
      injection H as <-. eauto.
    - destruct (json_field body "origin") as [s| |e];
        cbv beta iota delta [catch_completion] in H; try discriminate.
      destruct (truthy (Some (trim s))) eqn:Ht; [|discriminate].
      injection H as <-. eauto.
    - destruct (truthy (Some (trim (data body)))) eqn:Ht;
        cbv beta iota delta [catch_completion] in H; [|discriminate].
      injection H as <-. eauto. }
  destruct Hip as (s & -> & Ht).
  split; [now apply truthy_nonempty | apply trim_idempotent].
Qed.

Lemma first_success_answer settle w urls : forall i k ip,
  first_success settle w urls i = Some (k, ip) ->
  exists url outcome, settle url outcome = Normal ip.
Proof.
  induction urls as [|url urls IH]; intros i k ip; [discriminate|].
  simpl. unfold answer at 1.
  destruct (settle url (ip_net w (ip_requests w + i) url)) as [ip'|e] eqn:E.
  - intros [= _ <-]. eauto.
  - destruct (first_success settle w urls (S i)) as [[k' ip']|] eqn:F;
      [|discriminate].
    intros [= _ <-]. eauto.
Qed.

(** X11.  An address that either detector returns has been trimmed and is
    not empty: no white space at its ends, whatever the services sent. *)
Theorem detected_address_is_trimmed (w : World) (ip : string) :
  (IpDetector.getCurrentIp w).1 = Normal ip \/
  (IpDetectorMulti.getCurrentIp w).1 = Normal ip ->
  ip <> "" /\ trim ip = ip.
Proof.
  intros [H|H].
  - destruct (IpDetector_getCurrentIp_scans w) as [(evs & _ & _ & Hm) _].
    destruct (first_success _ w IpDetector_schedule 0) as [[k ip']|] eqn:Hf.
    + destruct Hm as (Hr & _). rewrite Hr in H. injection H as ->.
      destruct (first_success_answer _ _ _ _ _ _ Hf) as (url & outcome & Hs).
      exact (IpDetector_settle_response_trimmed _ _ _ Hs).
    + destruct Hm as ([e Hr] & _). rewrite Hr in H. discriminate.
  - destruct (try_services_scans w IpDetectorMulti.services IpDetectorMulti_urls)
      with (index := 0%nat) (total := length IpDetectorMulti.services)
           (w := w) (i0 := 0%nat)
      as [(evs & _ & _ & Hm) _]; [repeat constructor | reflexivity | lia |].
    fold IpDetectorMulti.getCurrentIp in Hm.
    destruct (first_success _ w (schedule_of IpDetectorMulti_urls) 0)
      as [[k ip']|] eqn:Hf.
    + destruct Hm as (Hr & _).
      change (IpDetectorMulti.try_services IpDetectorMulti.services 0
                (length IpDetectorMulti.services) w)
        with (IpDetectorMulti.getCurrentIp w) in Hr.
      rewrite Hr in H. injection H as ->.
      destruct (first_success_answer _ _ _ _ _ _ Hf) as (url & outcome & Hs).
      exact (IpDetectorMulti_settle_response_trimmed _ _ _ Hs).
    + destruct Hm as ([e Hr] & _).
      change (IpDetectorMulti.try_services IpDetectorMulti.services 0
                (length IpDetectorMulti.services) w)
        with (IpDetectorMulti.getCurrentIp w) in Hr.
      rewrite Hr in H. discriminate.
Qed.

Lemma detected_address_is_trimmed_witness :
  (IpDetector.getCurrentIp padded_world).1 = Normal "203.0.113.7" /\
  trim "203.0.113.7" = "203.0.113.7".
Proof.
  split; [reflexivity|].
  apply (detected_address_is_trimmed padded_world "203.0.113.7").
  left. reflexivity.
Defined.

(** ** A DNS read that finds no record *)

(** X12.  A DNS read that returns without a record, or with a record of
    empty content, makes the cycle a changed one even when the detected IP
    is the persisted one: the config file is written again and the history
    gets an entry whose old and new IP are the same. *)
Theorem recordless_read_counts_as_change
    (w w1 w2 : World) (ip : string) (cfg : Config) (h : UpdateHistory)
    (record : option CloudflareRecord) :
  IpDetector.getCurrentIp (entered w) = (Normal ip, w1) ->
  config_file w = Some cfg -> config_writable w = true ->
  history_file w = Some h -> history_writable w = true ->
  CloudflareService.getDnsRecord w1 = (Normal record, w2) ->
  (rec_content <$> record) = None \/ (rec_content <$> record) = Some "" ->
  lastKnownIp cfg = Some ip ->
  let run := IpMonitor.performIpCheck w in
  ip_changed (lastKnownIp cfg) ip (Normal record) = true /\
  exists entry,
    oldIp entry = Some ip /\ newIp entry = ip /\
    EvWriteConfig (config_with_ip ip (clock w) cfg) ∈ trace run.2 /\
    EvWriteHistory (history_after entry h) ∈ trace run.2 /\
    forall result, run.1 = Normal result -> IpMonitor.ipChanged result = true.
Proof.
  intros Hdet Hcfg Hcw Hh Hhw Hdns Hrec Hlast. cbv zeta.
  assert (Hread : dns_read_ip (Normal record) = None)
    by (unfold dns_read_ip; destruct Hrec as [-> | ->]; reflexivity).
  assert (Hch : ip_changed (lastKnownIp cfg) ip (Normal record) = true).
  { unfold ip_changed. rewrite Hread. simpl. apply orb_true_r. }
  split; [exact Hch|].
  destruct (changed_cycle_run w ip w1 cfg (Normal record) w2 h
              Hdet Hcfg Hcw Hh Hhw Hdns Hch)
    as (ok & w4 & Hupd & F4 & Hclock & Hrun).
  cbv zeta in Hrun.
  exists (change_entry w cfg ip (Normal record) ok).
  split; [unfold change_entry; cbn [oldIp]; now rewrite Hread, Hlast|].
  split; [reflexivity|].
  destruct (provider_frame_same _ _ F4) as (S4 & _).
  destruct F4 as [_ (evs4 & Ht4 & _)].
  assert (Htrace : exists tail,
    trace (IpMonitor.performIpCheck w).2 =
      trace w2 ++ EvWriteConfig (config_with_ip ip (clock w) cfg) :: evs4
        ++ EvWriteHistory
             (history_after (change_entry w cfg ip (Normal record) ok) h)
           :: tail).
  { rewrite Hrun.
    destruct (is_test_mode (env w) (Normal record) || ok); cbn [snd].
    - exists []. simpl. rewrite Ht4. unfold persisted, emit. simpl.
      rewrite Hclock. now rewrite <- !app_assoc.
    - destruct S4. simpl in *.
      pose proof (cycle_reads_frame _ _ _ _ _ Hdet Hdns) as (_ & [] & _).
      simpl in *.
      rewrite failure_after_recorded by congruence. cbv zeta.
      eexists [_]. simpl. rewrite Ht4. unfold persisted, emit. simpl.
      rewrite Hclock. now rewrite <- !app_assoc. }
  destruct Htrace as (tail & Htr).
  split; [rewrite Htr; apply elem_of_app; right; apply list_elem_of_here|].
  split.
  { rewrite Htr. apply elem_of_app. right. apply list_elem_of_further.
    apply elem_of_app. right. apply list_elem_of_here. }
  intros result Hres. rewrite Hrun in Hres.
  destruct (is_test_mode (env w) (Normal record) || ok); cbn [fst] in Hres;
    [now injection Hres as <- | discriminate].
Qed.

Lemma recordless_read_counts_as_change_witness :
  let run := IpMonitor.performIpCheck recordless_world in
  (lastKnownIp <$> config_file recordless_world) = Some (Some "198.51.100.1") /\
  exists entry,
    oldIp entry = Some "198.51.100.1" /\ newIp entry = "198.51.100.1" /\
    EvWriteHistory (history_after entry (mkUpdateHistory [])) ∈ trace run.2.
Proof.
  set (w := recordless_world).
  set (w1 := (IpDetector.getCurrentIp (entered w)).2).
  destruct (recordless_read_counts_as_change w w1
              (CloudflareService.getDnsRecord w1).2 "198.51.100.1"
              (Scenario.config_with (Some "198.51.100.1") 5)
              (mkUpdateHistory []) None
              eq_refl eq_refl eq_refl eq_refl eq_refl eq_refl
              (or_introl eq_refl) eq_refl)
    as (_ & entry & Ho & Hn & _ & Hin & _).
  cbv zeta. split; [reflexivity|]. exists entry. auto.
Defined.

(** ** The storage service: what is written is what is read back *)

(** X13.  [updateLastKnownIp] either returns, and then the config file reads
    back with the new IP, the time of the write as [updatedAt] and every
    setting as it was; or it throws [Failed to update last known IP],
    whether the file could not be read or not be written, and has changed
    nothing. *)
Theorem updateLastKnownIp_reads_back (ip : string) (w : World) :
  let run := StorageService.updateLastKnownIp ip w in
  match run.1 with
  | Normal _ =>
      exists c,
        config_file w = Some c /\ config_writable w = true /\
        StorageService.readConfig run.2 =
          (Normal (config_with_ip ip (clock w) c), run.2) /\
        lastKnownIp (config_with_ip ip (clock w) c) = Some ip /\
        updatedAt (config_with_ip ip (clock w) c) = clock w /\
        settings (config_with_ip ip (clock w) c) = settings c
  | Throw e =>
      e = JsError "Failed to update last known IP" /\ run.2 = w /\
      (config_file w = None \/ config_writable w = false)
  end.
Proof.
  cbv zeta. destruct (config_file w) as [c|] eqn:Hc.
  - destruct (config_writable w) eqn:Hw.
    + rewrite (updateLastKnownIp_ok ip w c Hc Hw). cbn [fst snd].
      exists c. repeat split; reflexivity.
    + rewrite updateLastKnownIp_fails by auto. cbn [fst snd]. auto.
  - rewrite updateLastKnownIp_fails by auto. cbn [fst snd]. auto.
Qed.

(** X14.  [addUpdateEntry] either returns, and then the history reads back
    with the new entry first, followed by the nine newest of the entries
    there were, at most ten in all; or it throws [Failed to add update
    entry] and has changed nothing. *)
Theorem addUpdateEntry_reads_back (entry : UpdateEntry) (w : World) :
  let run := StorageService.addUpdateEntry entry w in
  match run.1 with
  | Normal _ =>
      exists h h',
        history_file w = Some h /\ history_writable w = true /\
        StorageService.readHistory run.2 = (Normal h', run.2) /\
        updates h' = entry :: take 9 (updates h) /\
        (length (updates h') <= 10)%nat
  | Throw e =>
      e = JsError "Failed to add update entry" /\ run.2 = w /\
      (history_file w = None \/ history_writable w = false)
  end.
Proof.
  cbv zeta. destruct (history_file w) as [h|] eqn:Hh.
  - destruct (history_writable w) eqn:Hw.
    + rewrite (addUpdateEntry_ok entry w h Hh Hw). cbn [fst snd].
      exists h, (history_after entry h). repeat split; try reflexivity.
      simpl. rewrite length_take. lia.
    + rewrite addUpdateEntry_fails by auto. cbn [fst snd]. auto.
  - rewrite addUpdateEntry_fails by auto. cbn [fst snd]. auto.
Qed.

Lemma history_bounded_newest_first_witness :
  let l := mkLoop full_history_world [] [] in
  exists entry,
    (updates <$> history_file (world (run l [CallStart; CycleSettles 0])))
      = Some (entry :: (logged_entry <$> seq 0 9)) /\
    newIp entry = "198.51.100.2".
Proof.
  cbv zeta.
  destruct (history_bounded_newest_first (mkLoop full_history_world [] [])
              [CallStart; CycleSettles 0]
              (mkUpdateHistory (logged_entry <$> seq 0 10)) eq_refl)
    as (evs & h' & Ht & Hh & Hu & _); [simpl; lia|].
  vm_compute in Ht. subst evs. rewrite Hh. cbn [fmap option_fmap option_map].
  rewrite Hu. vm_compute. eexists. split; reflexivity.
Defined.

Lemma multi_detection_first_success_and_fallback_witness :
  let run := IpDetectorMulti.getCurrentIp Scenario.fallback_world in
  run.1 = Normal "203.0.113.7" /\
  exists evs,
    trace run.2 = trace Scenario.fallback_world ++ evs /\
    urls_requested evs =
      replicate 4 IpDetectorMulti.ipify_url ++ [IpDetectorMulti.icanhazip_url].
Proof.
  cbv zeta.
  destruct (multi_detection_first_success_and_fallback Scenario.fallback_world)
    as (evs & Ht & _ & Hfallback).
  destruct (Hfallback "203.0.113.7") as (Hr & Hu).
  - intros n. eexists. reflexivity.
  - intros n. reflexivity.
  - split; [exact Hr|]. exists evs. split; [exact Ht | exact Hu].
Defined.

(** ** [SecurityService]: the rate limiter *)

Lemma rateLimiter_cleans production now req store :
  let store1 :=
    filter (fun kv : string * SecurityService.RateEntry =>
              ~ (SecurityService.resetTime kv.2 < now)) store in
  forall client,
    client <> SecurityService.clientIp req ->
    (SecurityService.rateLimiter production now req store).2 !! client
      = store1 !! client.
Proof.
  intros store1 client Hne. unfold SecurityService.rateLimiter. fold store1.
  destruct (store1 !! SecurityService.clientIp req) as [clientData|];
    [destruct (SecurityService.resetTime clientData <? now);
       [|destruct (SecurityService.maxRequests production
                   <=? SecurityService.count clientData)]|];
    simpl; rewrite ?lookup_insert_ne by congruence; reflexivity.
Qed.

Lemma maxRequests_positive production :
  1 <= SecurityService.maxRequests production.
Proof. destruct production; simpl; lia. Qed.

Lemma rateLimiter_counts_bounded production now req store :
  counts_bounded production store ->
  counts_bounded production
    (SecurityService.rateLimiter production now req store).2.
Proof.
  intros Hb. unfold SecurityService.rateLimiter.
  set (store1 := filter _ store).
  assert (Hb1 : counts_bounded production store1).
  { intros client entry Hl. apply map_lookup_filter_Some in Hl as [Hl _].
    exact (Hb client entry Hl). }
  pose proof (maxRequests_positive production) as Hmax.
  destruct (store1 !! SecurityService.clientIp req) as [clientData|] eqn:Hc.
  - pose proof (Hb1 _ _ Hc) as Hcd. simpl in Hcd.
    destruct (SecurityService.resetTime clientData <? now); simpl.
    + apply map_Forall_insert_2; [simpl; lia | exact Hb1].
    + destruct (SecurityService.maxRequests production
                <=? SecurityService.count clientData) eqn:Hfull; simpl.
      * exact Hb1.
      * apply Z.leb_gt in Hfull.
        apply map_Forall_insert_2; [simpl; lia | exact Hb1].
  - simpl. apply map_Forall_insert_2; [simpl; lia | exact Hb1].
Qed.

(** X17.  The limiter's store, empty when the server starts, holds after any
    requests from any clients at any times only counts between 1 and the
    limit (100 in production, 1000 otherwise). *)
Theorem rateLimiter_counts_within_limit
    (production : bool) (requests : list (Z * SecurityService.Request)) :
  counts_bounded production (serve production requests ∅).2.
Proof.
  assert (H : forall store,
             counts_bounded production store ->
             counts_bounded production (serve production requests store).2).
  { induction requests as [|[now req] rest IH]; intros store Hb; [exact Hb|].
    simpl.
    pose proof (rateLimiter_counts_bounded production now req store Hb) as H1.
    destruct (SecurityService.rateLimiter production now req store)
      as [answer store'].
    specialize (IH store' H1).
    destruct (serve production rest store') as [answers store'']. exact IH. }
  apply H. apply map_Forall_empty.
Qed.

Lemma rateLimiter_window production t0 client n now req store :
  t0 <= now <= t0 + SecurityService.windowMs ->
  window_state production t0 client n store ->
  let run := SecurityService.rateLimiter production now req store in
  window_state production t0 client
    (n + admitted client [(SecurityService.clientIp req, run.1)]) run.2.
Proof.
  intros Hnow Hst. cbv zeta.
  set (store1 := filter (fun kv : string * SecurityService.RateEntry =>
                           ~ (SecurityService.resetTime kv.2 < now)) store).
  assert (Hst1 : window_state production t0 client n store1).
  { unfold window_state in *.
    destruct (store !! client) as [entry|] eqn:Hl.
    - destruct Hst as (Hc & Hm & Hr).
      assert (Hl1 : store1 !! client = Some entry).
      { apply map_lookup_filter_Some. split; [exact Hl | simpl; lia]. }
      now rewrite Hl1.
    - assert (Hl1 : store1 !! client = None).
      { apply map_lookup_filter_None. left. exact Hl. }
      now rewrite Hl1. }
  destruct (String.eqb_spec (SecurityService.clientIp req) client) as [E|Hne].
  - unfold admitted, let_through. cbn [List.filter fst snd].
    rewrite E, String.eqb_refl. cbn [andb].
    unfold SecurityService.rateLimiter. fold store1. rewrite E.
    unfold window_state in Hst1 |- *.
    pose proof (maxRequests_positive production) as Hmax.
    destruct (store1 !! client) as [clientData|] eqn:Hc.
    + destruct Hst1 as (Hcnt & Hm & Hr).
      destruct (SecurityService.resetTime clientData <? now) eqn:Hexp;
        [apply Z.ltb_lt in Hexp; unfold SecurityService.windowMs in *; lia|].
      destruct (SecurityService.maxRequests production
                <=? SecurityService.count clientData) eqn:Hfull;
        cbn [fst snd length].
      * rewrite Hc, Nat.add_0_r. auto.
      * apply Z.leb_gt in Hfull. rewrite lookup_insert_eq. cbn.
        repeat split; lia.
    + cbn [fst snd length]. rewrite lookup_insert_eq. cbn. subst n.
      repeat split; lia.
  - assert (Hnot : admitted client
                     [(SecurityService.clientIp req,
                       (SecurityService.rateLimiter production now req store).1)]
                   = 0%nat).
    { unfold admitted, let_through. cbn [List.filter fst snd].
      apply String.eqb_neq in Hne. now rewrite Hne. }
    rewrite Hnot, Nat.add_0_r. unfold window_state.
    rewrite (rateLimiter_cleans production now req store client)
      by congruence.
    exact Hst1.
Qed.

Lemma admitted_cons client answered answers :
  admitted client (answered :: answers) =
    (admitted client [answered] + admitted client answers)%nat.
Proof.
  unfold admitted. cbn [List.filter].
  destruct (let_through client answered); reflexivity.
Qed.

Lemma serve_window production t0 client requests : forall n store,
  Forall (fun r => t0 <= r.1 <= t0 + SecurityService.windowMs) requests ->
  window_state production t0 client n store ->
  let run := serve production requests store in
  window_state production t0 client (n + admitted client run.1) run.2.
Proof.
  induction requests as [|[now req] rest IH]; intros n store Hall Hst.
  - simpl. now rewrite Nat.add_0_r.
  - apply Forall_cons in Hall as [Hnow Hall]. cbn [fst] in Hnow.
    pose proof (rateLimiter_window production t0 client n now req store
                  Hnow Hst) as H1.
    cbv zeta in H1 |- *. cbn [serve].
    destruct (SecurityService.rateLimiter production now req store)
      as [answer store'].
    cbn [fst snd] in H1.
    specialize (IH _ store' Hall H1). cbv zeta in IH.
    destruct (serve production rest store') as [answers store''].
    cbn [fst snd] in *.
    rewrite admitted_cons, Nat.add_assoc. exact IH.
Qed.

(** X18.  The quota holds: of the requests made in a span of fifteen minutes
    by a client the limiter has no entry for when the span begins, no more
    than the limit are let through, whatever other clients do in between. *)
Theorem rateLimiter_quota
    (production : bool) (t0 : Z) (client : string)
    (requests : list (Z * SecurityService.Request))
    (store : gmap string SecurityService.RateEntry) :
  store !! client = None ->
  Forall (fun r => t0 <= r.1 <= t0 + SecurityService.windowMs) requests ->
  Z.of_nat (admitted client (serve production requests store).1)
    <= SecurityService.maxRequests production.
Proof.
  intros Hnone Hall.
  assert (Hst : window_state production t0 client 0 store)
    by (unfold window_state; now rewrite Hnone).
  pose proof (serve_window production t0 client requests 0 store Hall Hst)
    as H.
  cbv zeta in H. unfold window_state in H. simpl in H.
  pose proof (maxRequests_positive production).
  destruct ((serve production requests store).2 !! client) as [entry|]; lia.
Qed.

Lemma rateLimiter_quota_witness :
  let visit := (0, SecurityService.mkRequest (Some "192.0.2.1") None) in
  admitted "192.0.2.1" (serve true (replicate 3 visit) ∅).1 = 3%nat /\
  Z.of_nat (admitted "192.0.2.1" (serve true (replicate 3 visit) ∅).1) <= 100.
Proof.
  cbv zeta. split; [vm_compute; reflexivity|].
  apply (rateLimiter_quota true 0 "192.0.2.1"
           (replicate 3 (0, SecurityService.mkRequest (Some "192.0.2.1") None))
           ∅).
  - reflexivity.
  - apply Forall_replicate. unfold SecurityService.windowMs. simpl. lia.
Defined.

(** ** [SecurityService]: what is shown of an address *)

Lemma includes_char_cons sep c s :
  includes (String sep "") (String c s) =
    Ascii.eqb c sep || includes (String sep "") s.
Proof.
  cbn [includes String.prefix].
  destruct (Ascii.ascii_dec sep c) as [<-|Hne].
  - rewrite Ascii.eqb_refl. now destruct s.
  - assert (E : Ascii.eqb c sep = false)
      by (apply Ascii.eqb_neq; congruence).
    now rewrite E.
Qed.

Lemma split_free sep s :
  includes (String sep "") s = false -> split sep s = [s].
Proof.
  induction s as [|c s IH]; [reflexivity|].
  rewrite includes_char_cons. intros [E H]%orb_false_elim.
  cbn [split]. now rewrite E, (IH H).
Qed.

Lemma split_app sep a rest :
  includes (String sep "") a = false ->
  split sep (a +:+ String sep rest) = a :: split sep rest.
Proof.
  induction a as [|c a IH].
  - intros _. change ("" +:+ String sep rest) with (String sep rest).
    cbn [split]. now rewrite Ascii.eqb_refl.
  - rewrite includes_char_cons. intros [E H]%orb_false_elim.
    change (String c a +:+ String sep rest)
      with (String c (a +:+ String sep rest)).
    cbn [split]. now rewrite E, (IH H).
Qed.

Lemma includes_app_char sep a rest :
  includes (String sep "") (a +:+ String sep rest) = true.
Proof.
  induction a as [|c a IH].
  - change ("" +:+ String sep rest) with (String sep rest).
    now rewrite includes_char_cons, Ascii.eqb_refl.
  - change (String c a +:+ String sep rest)
      with (String c (a +:+ String sep rest)).
    rewrite includes_char_cons, IH. apply orb_true_r.
Qed.

(** X19.  Of an address of four dot-separated parts, [obfuscateIp] shows the
    first and the last part and masks the two in the middle, whatever they
    are. *)
Theorem obfuscateIp_masks_middle (a b c d : string) :
  includes "." a = false -> includes "." b = false ->
  includes "." c = false -> includes "." d = false ->
  SecurityService.obfuscateIp (Some (a +:+ "." +:+ b +:+ "." +:+ c +:+ "." +:+ d))
    = a +:+ ".xxx.xxx." +:+ d.
Proof.
  intros Ha Hb Hc Hd.
  set (ip := a +:+ "." +:+ b +:+ "." +:+ c +:+ "." +:+ d).
  assert (Hdot : includes "." ip = true) by apply (includes_app_char dot).
  assert (Hsplit : split dot ip = [a; b; c; d]).
  { subst ip.
    change "."%string with (String dot "").
    change (String dot "" +:+ b +:+ String dot "" +:+ c +:+ String dot "" +:+ d)
      with (String dot (b +:+ String dot (c +:+ String dot d))).
    rewrite (split_app dot a _ Ha), (split_app dot b _ Hb),
      (split_app dot c _ Hc), (split_free dot d Hd). reflexivity. }
  assert (Htruthy : truthy (Some ip) = true).
  { unfold truthy. destruct (String.eqb_spec ip "") as [E|_]; [|reflexivity].
    rewrite E in Hdot. discriminate. }
  assert (Hneq : strict_neq (Some ip) (Some "check_failed") = true).
  { unfold strict_neq.
    destruct (String.eqb_spec ip "check_failed") as [E|_]; [|reflexivity].
    rewrite E in Hdot. discriminate. }
  unfold SecurityService.obfuscateIp. rewrite Htruthy, Hneq.
  cbv beta iota zeta delta [negb orb default from_option id Datatypes.id].
  rewrite Hdot, Hsplit. reflexivity.
Qed.

Lemma obfuscateIp_masks_middle_witness :
  SecurityService.obfuscateIp (Some "203.0.113.7") = "203.xxx.xxx.7".
Proof.
  apply (obfuscateIp_masks_middle "203" "0" "113" "7"); reflexivity.
Defined.

(** ** [SecurityService]: what a settings body may hold *)

Lemma has_unexpected_key_false bodyKeys :
  SecurityService.has_unexpected_key bodyKeys = false <->
  forall key, key ∈ bodyKeys -> key = "checkIntervalMinutes" \/ key = "theme".
Proof.
  induction bodyKeys as [|key rest IH]; cbn [SecurityService.has_unexpected_key].
  - split; [intros _ key Hin; inversion Hin | reflexivity].
  - cbn [SecurityService.allowedKeys existsb].
    destruct (String.eqb_spec key "checkIntervalMinutes") as [E1|N1];
      [|destruct (String.eqb_spec key "theme") as [E2|N2]]; cbn [orb negb].
    + rewrite IH. split.
      * intros H k [->|Hin]%elem_of_cons; auto.
      * intros H k Hin. apply H. now right.
    + rewrite IH. split.
      * intros H k [->|Hin]%elem_of_cons; auto.
      * intros H k Hin. apply H. now right.
    + split; [discriminate|]. intros H.
      destruct (H key) as [E|E]; [now left | contradiction | contradiction].
Qed.

Lemma typed_or_undefined v type :
  negb (SecurityService.is_undefined v) && negb (String.eqb (typeof v) type)
    = false <->
  v = JsUndefinedValue \/ typeof v = type.
Proof.
  destruct (String.eqb_spec (typeof v) type) as [E|N].
  - rewrite andb_false_r. split; auto.
  - rewrite andb_true_r. destruct v; simpl; split; auto;
      try discriminate; intros [H|H]; try discriminate; contradiction.
Qed.

(** X20.  [validateSettingsInput] accepts exactly the objects (arrays
    included) with no key besides [checkIntervalMinutes] and [theme], the
    first a number if there, the second a string if there: it looks at the
    types only, so every number and every string pass. *)
Theorem validateSettingsInput_checks_types_only (body : JsValue) :
  SecurityService.validateSettingsInput body = true <->
  typeof body = "object" /\ body <> JsNull /\
  (forall key, key ∈ object_keys body ->
     key = "checkIntervalMinutes" \/ key = "theme") /\
  (property body "checkIntervalMinutes" = JsUndefinedValue \/
   typeof (property body "checkIntervalMinutes") = "number") /\
  (property body "theme" = JsUndefinedValue \/
   typeof (property body "theme") = "string").
Proof.
  unfold SecurityService.validateSettingsInput.
  rewrite <- has_unexpected_key_false, <- !typed_or_undefined.
  destruct (String.eqb_spec (typeof body) "object") as [E|N]; cbn [negb orb].
  - destruct (SecurityService.has_unexpected_key (object_keys body)).
    + destruct body; split; try discriminate; intros (_ & _ & H & _);
        discriminate.
    + destruct (negb (SecurityService.is_undefined
                        (property body "checkIntervalMinutes"))
                && negb (String.eqb
                           (typeof (property body "checkIntervalMinutes"))
                           "number")).
      * destruct body; split; try discriminate;
          intros (_ & _ & _ & H & _); discriminate.
      * destruct (negb (SecurityService.is_undefined (property body "theme"))
                  && negb (String.eqb (typeof (property body "theme"))
                             "string")).
        -- destruct body; split; try discriminate;
             intros (_ & _ & _ & _ & H); discriminate.
        -- destruct body; split; try discriminate; intros H;
             try (destruct H as (_ & H & _); contradiction);
             repeat split; auto; discriminate.
  - split; [discriminate|]. intros (H & _). contradiction.
Qed.

(** ** [SecurityService]: which files may be served *)

Lemma lower_ascii_dot c : Ascii.eqb (lower_ascii c) dot = Ascii.eqb c dot.
Proof. destruct c as [[] [] [] [] [] [] [] []]; vm_compute; reflexivity. Qed.

Lemma lastIndexOf_toLowerCase s :
  lastIndexOf dot (toLowerCase s) = lastIndexOf dot s.
Proof.
  induction s as [|c s IH]; [reflexivity|].
  cbn [toLowerCase lastIndexOf]. now rewrite IH, lower_ascii_dot.
Qed.

Lemma lastIndexOf_free s :
  includes "." s = false -> lastIndexOf dot s = -1.
Proof.
  induction s as [|c s IH]; [reflexivity|].
  change "."%string with (String dot "") in *.
  rewrite includes_char_cons. intros [E H]%orb_false_elim.
  cbn [lastIndexOf]. rewrite (IH H), E. reflexivity.
Qed.

Lemma lastIndexOf_app stem rest :
  includes "." rest = false ->
  lastIndexOf dot (stem +:+ String dot rest) = Z.of_nat (String.length stem).
Proof.
  intros Hfree. induction stem as [|c stem IH].
  - change ("" +:+ String dot rest) with (String dot rest).
    cbn [lastIndexOf]. rewrite (lastIndexOf_free _ Hfree). reflexivity.
  - change (String c stem +:+ String dot rest)
      with (String c (stem +:+ String dot rest)).
    cbn [lastIndexOf String.length]. rewrite IH.
    destruct (0 <=? Z.of_nat (String.length stem)) eqn:E; [lia|].
    apply Z.leb_gt in E. lia.
Qed.

Lemma drop_string_app stem rest :
  drop_string (String.length stem) (stem +:+ rest) = rest.
Proof.
  induction stem as [|c stem IH]; [now destruct rest|].
  change (String c stem +:+ rest) with (String c (stem +:+ rest)).
  exact IH.
Qed.

Lemma drop_string_suffix n s : exists stem, s = stem +:+ drop_string n s.
Proof.
  revert s. induction n as [|n IH]; intros s; [now exists ""|].
  destruct s as [|c s]; [now exists ""|].
  destruct (IH s) as [stem Hs]. exists (String c stem).
  change (String c s = String c (stem +:+ drop_string n s)). now f_equal.
Qed.

Lemma allowed_extension_shape extension :
  extension ∈ SecurityService.allowedExtensions ->
  exists letters, extension = String dot letters /\ includes "." letters = false.
Proof.
  unfold SecurityService.allowedExtensions. intros H.
  repeat (apply elem_of_cons in H as [->|H]; [eexists; split; reflexivity|]).
  inversion H.
Qed.

(** X21.  [isValidFilePath] accepts exactly the paths that hold neither [..]
    nor [~] and that end, whatever the case of their letters, with one of
    the nine extensions. *)
Theorem isValidFilePath_accepts_iff (filePath : string) :
  SecurityService.isValidFilePath filePath = true <->
  includes ".." filePath = false /\ includes "~" filePath = false /\
  exists stem extension,
    extension ∈ SecurityService.allowedExtensions /\
    toLowerCase filePath = stem +:+ extension.
Proof.
  unfold SecurityService.isValidFilePath.
  destruct (includes ".." filePath); cbn [orb];
    [split; [discriminate | intros (H & _); discriminate]|].
  destruct (includes "~" filePath);
    [split; [discriminate | intros (_ & H & _); discriminate]|].
  split.
  - intros H. split; [reflexivity|]. split; [reflexivity|].
    apply existsb_exists in H as (extension & Hin & Heq).
    apply String.eqb_eq in Heq. subst extension.
    destruct (drop_string_suffix
                (Z.to_nat (Z.max (lastIndexOf dot filePath) 0))
                (toLowerCase filePath)) as [stem Hstem].
    exists stem. eexists. split; [|exact Hstem].
    apply list_elem_of_In. exact Hin.
  - intros (_ & _ & stem & extension & Hin & Hlower).
    destruct (allowed_extension_shape _ Hin) as (letters & -> & Hfree).
    apply existsb_exists. exists (String dot letters).
    split; [now apply list_elem_of_In|].
    apply String.eqb_eq.
    rewrite <- lastIndexOf_toLowerCase, Hlower, (lastIndexOf_app _ _ Hfree).
    unfold substring. rewrite Z.max_l by lia. rewrite Nat2Z.id.
    apply drop_string_app.
Qed.

(** ** [Logger]: what is written where, and what is shown of it *)

Lemma concat_empty_cons (x : string) (xs : list string) :
  String.concat "" (x :: xs) = x +:+ String.concat "" xs.
Proof. destruct xs; [symmetry; apply append_empty_r | reflexivity]. Qed.

Lemma log_call_appends files call :
  Logger.appendable (Logger.errorLog files) = true ->
  Logger.appendable (Logger.appLog files) = true ->
  let files' := log_call files call in
  Logger.appendable (Logger.errorLog files') = true /\
  Logger.appendable (Logger.appLog files') = true /\
  text_of (Logger.appLog files') =
    text_of (Logger.appLog files) +:+ line_of call /\
  text_of (Logger.errorLog files') =
    text_of (Logger.errorLog files)
      +:+ (if is_error_call call then line_of call else "").
Proof.
  intros He Ha.
  destruct call; cbn; unfold Logger.appendFileSync; rewrite ?He, ?Ha; cbn;
    unfold text_of; rewrite ?append_empty_r; auto.
Qed.

(** X22.  With both log files writable, the app log gets the line of every
    call of the logger, in order, and the error log the lines of the
    [error] calls and no others: every line of the error log is in the app
    log too. *)
Theorem error_log_is_part_of_app_log
    (calls : list LogCall) (files : Logger.LogFiles) :
  Logger.appendable (Logger.errorLog files) = true ->
  Logger.appendable (Logger.appLog files) = true ->
  let files' := foldl log_call files calls in
  text_of (Logger.appLog files') =
    text_of (Logger.appLog files) +:+ String.concat "" (line_of <$> calls) /\
  text_of (Logger.errorLog files') =
    text_of (Logger.errorLog files)
      +:+ String.concat "" (line_of <$> List.filter is_error_call calls).
Proof.
  revert files. induction calls as [|call calls IH]; intros files He Ha.
  - cbn. now rewrite !append_empty_r.
  - destruct (log_call_appends files call He Ha) as (He' & Ha' & Hta & Hte).
    destruct (IH (log_call files call) He' Ha') as [Happ Herr].
    cbv zeta in *. cbn [foldl]. rewrite Happ, Herr, Hta, Hte.
    cbn [fmap list_fmap List.filter].
    destruct (is_error_call call); cbn [fmap list_fmap];
      rewrite ?concat_empty_cons, ?append_assoc, ?append_empty_r;
      split; reflexivity.
Qed.

Lemma error_log_is_part_of_app_log_witness :
  let files :=
    foldl log_call
      (Logger.mkLogFiles (Logger.mkLogFile None true None)
         (Logger.mkLogFile None true None))
      [ LogInfo "T1" "Starting IP check" None;
        LogError "T2" "IP check failed" None None ] in
  text_of (Logger.appLog files) =
    "[T1] INFO: Starting IP check" +:+ Logger.line_break
      +:+ "[T2] ERROR: IP check failed" +:+ Logger.line_break /\
  text_of (Logger.errorLog files) =
    "[T2] ERROR: IP check failed" +:+ Logger.line_break.
Proof.
  cbv zeta.
  destruct (error_log_is_part_of_app_log
              [ LogInfo "T1" "Starting IP check" None;
                LogError "T2" "IP check failed" None None ]
              (Logger.mkLogFiles (Logger.mkLogFile None true None)
                 (Logger.mkLogFile None true None)) eq_refl eq_refl)
    as [Happ Herr].
  split; [rewrite Happ | rewrite Herr]; reflexivity.
Defined.

Lemma split_parts_free sep s :
  Forall (fun part => includes (String sep "") part = false) (split sep s).
Proof.
  induction s as [|c s IH]; [repeat constructor|].
  cbn [split]. destruct (Ascii.eqb c sep) eqn:E.
  - constructor; [reflexivity | exact IH].
  - destruct (split sep s) as [|part parts].
    + constructor; [|constructor].
      now rewrite includes_char_cons, E.
    + apply Forall_cons in IH as [Hpart Hparts].
      constructor; [|exact Hparts].
      now rewrite includes_char_cons, E, Hpart.
Qed.

Lemma split_join sep parts :
  parts <> [] ->
  Forall (fun part => includes (String sep "") part = false) parts ->
  split sep (join (String sep "") parts) = parts.
Proof.
  unfold join. induction parts as [|part parts IH]; [congruence|].
  intros _ [Hpart Hparts]%Forall_cons.
  destruct parts as [|part' parts].
  - cbn [String.concat]. now apply split_free.
  - change (String.concat (String sep "") (part :: part' :: parts))
      with (part +:+ String sep (String.concat (String sep "") (part' :: parts))).
    rewrite (split_app sep part _ Hpart). f_equal.
    apply IH; [discriminate | exact Hparts].
Qed.

Lemma Forall_list_filter {A} (P : A -> Prop) (f : A -> bool) (l : list A) :
  Forall P l -> Forall P (List.filter f l).
Proof.
  induction 1 as [|x l Hx _ IH]; [constructor|].
  cbn [List.filter]. destruct (f x); [constructor|]; assumption.
Qed.

(** X23.  Of a log that can be read, [getErrorLogContent] shows lines that
    are not blank: the last [lines] of them (50 when the caller names no
    number), and, asked for 0 lines, all of them. *)
Theorem getErrorLogContent_recent_lines
    (files : Logger.LogFiles) (content : string) (lines : option Z) :
  Logger.text (Logger.errorLog files) = Some content ->
  Logger.read_error (Logger.errorLog files) = None ->
  let kept := List.filter not_blank (lines_of content) in
  let n := default 50 lines in
  let shown := lines_of (Logger.getErrorLogContent lines files) in
  kept <> [] ->
  (1 <= n ->
   shown = drop (length kept - Z.to_nat n) kept /\
   (length shown <= Z.to_nat n)%nat) /\
  (n = 0 -> shown = kept).
Proof.
  intros Htext Hread kept n shown Hkept.
  assert (Hfree : Forall (fun part => includes (String line_feed "") part = false)
                    kept).
  { apply Forall_list_filter, split_parts_free. }
  assert (Hshown : forall k,
            drop k kept <> [] ->
            slice (- n) kept = drop k kept -> shown = drop k kept).
  { intros k Hne Hslice. subst shown.
    unfold Logger.getErrorLogContent, Logger.getLogContent.
    rewrite Htext, Hread. unfold Logger.recentLines, lines_of.
    fold not_blank. fold (lines_of content). fold kept. fold n.
    rewrite Hslice. apply split_join; [exact Hne|].
    now apply Forall_drop. }
  split.
  - intros Hn.
    assert (Hlen : (0 < length kept)%nat)
      by (destruct kept; [congruence | simpl; lia]).
    assert (Hslice : slice (- n) kept =
                       drop (length kept - Z.to_nat n) kept).
    { unfold slice. destruct (- n <? 0) eqn:E; [|apply Z.ltb_ge in E; lia].
      f_equal. lia. }
    assert (Hne : drop (length kept - Z.to_nat n) kept <> []).
    { intros Hnil. apply (f_equal length) in Hnil.
      rewrite length_drop in Hnil. simpl in Hnil. lia. }
    rewrite (Hshown _ Hne Hslice). split; [reflexivity|].
    rewrite length_drop. lia.
  - intros Hn. apply (Hshown 0%nat); [exact Hkept|].
    unfold slice. rewrite Hn. reflexivity.
Qed.

Lemma getErrorLogContent_recent_lines_witness :
  let content :=
    "first" +:+ Logger.line_break +:+ Logger.line_break
      +:+ "second" +:+ Logger.line_break in
  let files :=
    Logger.mkLogFiles (Logger.mkLogFile (Some content) true None)
      (Logger.mkLogFile None true None) in
  lines_of (Logger.getErrorLogContent (Some 1) files) = ["second"] /\
  lines_of (Logger.getErrorLogContent (Some 0) files) = ["first"; "second"].
Proof.
  cbv zeta.
  set (content := "first" +:+ Logger.line_break +:+ Logger.line_break
                    +:+ "second" +:+ Logger.line_break).
  set (files := Logger.mkLogFiles (Logger.mkLogFile (Some content) true None)
                  (Logger.mkLogFile None true None)).
  split.
  - destruct (getErrorLogContent_recent_lines files content (Some 1)
                eq_refl eq_refl) as [H _]; [discriminate|].
    destruct H as [H _]; [simpl; lia|]. exact H.
  - destruct (getErrorLogContent_recent_lines files content (Some 0)
                eq_refl eq_refl) as [_ H]; [discriminate|].
    exact (H eq_refl).
Defined.

(** ** [start] while a timer is armed *)

Lemma scheduleNextCheck_readable w cfg :
  config_file w = Some cfg ->
  exists delay,
    timers (IpMonitor.scheduleNextCheck w).2 =
      <[next_timer w := delay]> (timers w) /\
    (IpMonitor.scheduleNextCheck w).1 = Normal tt.
Proof.
  intros Hcfg.
  destruct (scheduleNextCheck_cases w) as [[E _]|(d & w' & E & Ht & _)];
    [congruence|].
  exists d. now rewrite E.
Qed.

Lemma reschedule_readable r w cfg :
  config_file w = Some cfg ->
  exists delay,
    timers (IpMonitor.reschedule r w).2 = <[next_timer w := delay]> (timers w).
Proof.
  intros Hcfg.
  destruct (scheduleNextCheck_readable w cfg Hcfg) as (d & Ht & Hr).
  exists d. destruct r; simpl; [|exact Ht].
  unfold try_catch.
  destruct (IpMonitor.scheduleNextCheck w) as [[[]|e] w']; simpl in *;
    [exact Ht | discriminate].
Qed.

(** X24.  [start] cancels nothing.  Called while timers are armed, with a
    readable config file, it leaves them armed, and once its cycle has
    settled one more timer is armed beside them: two calls of [start] give
    two schedules. *)
Theorem start_adds_a_timer (l : Loop) (cfg : Config) :
  config_file (world l) = Some cfg ->
  timers (world l) !! next_timer (world l) = None ->
  let l' := run l [CallStart; CycleSettles (length (inflight l))] in
  inflight l' = inflight l /\
  (exists delay,
     timers (world l') = <[next_timer (world l) := delay]> (timers (world l)))
  /\ size (timers (world l')) = S (size (timers (world l))).
Proof.
  intros Hcfg Hfresh. cbv zeta.
  change (run l [CallStart; CycleSettles (length (inflight l))])
    with (step (begin_cycle FromStart l) (CycleSettles (length (inflight l)))).
  unfold step.
  change (inflight (begin_cycle FromStart l)) with (inflight l ++ [FromStart]).
  change (world (begin_cycle FromStart l)) with (entered (world l)).
  change (replies (begin_cycle FromStart l)) with (replies l).
  assert (Hk : (inflight l ++ [FromStart]) !! length (inflight l)
               = Some FromStart) by apply list_lookup_middle, eq_refl.
  rewrite Hk.
  pose proof (performIpCheck_settle_armed (entered (world l))) as F.
  pose proof (performIpCheck_settle_settings_frame (entered (world l)))
    as [_ G].
  destruct (IpMonitor.performIpCheck_settle (entered (world l))) as [r w'].
  unfold keeps, armed in F. cbn [fst snd] in F, G.
  injection F as _ Ht Hn. simpl in Ht, Hn, G.
  rewrite Hcfg in G.
  destruct (config_file w') as [cfg'|] eqn:Hcfg'; [|discriminate].
  destruct (reschedule_readable r w' cfg' Hcfg') as (d & Hd).
  cbn [inflight world]. rewrite unhandled_timers, Hd, Ht, Hn.
  split; [|split].
  - rewrite delete_middle. apply app_nil_r.
  - eauto.
  - rewrite map_size_insert, Hfresh. reflexivity.
Qed.

Lemma start_adds_a_timer_witness :
  let l := run (mkLoop Scenario.steady_world [] []) [CallStart; CycleSettles 0] in
  let l' := run l [CallStart; CycleSettles 0] in
  size (timers (world l)) = 1%nat /\ size (timers (world l')) = 2%nat.
Proof.
  cbv zeta. split; [reflexivity|].
  destruct (start_adds_a_timer
              (run (mkLoop Scenario.steady_world [] [])
                 [CallStart; CycleSettles 0])
              (Scenario.config_with (Some "198.51.100.1") 5)
              eq_refl eq_refl) as (_ & _ & H).
  exact H.
Defined.

(** ** The DNS read: which failures are failures *)

(** X25.  [getDnsRecord] sends one GET and throws in two cases only: the
    request itself is rejected, or the answer says failure and the first of
    its errors has code 10001 or 7003.  Any other failure the provider
    reports comes back as no record. *)
Theorem getDnsRecord_throws_iff (w : World) :
  exists url,
    let request := mkCfRequest url GET None in
    (CloudflareService.getDnsRecord w).2 = requested request w /\
    ((exists e, (CloudflareService.getDnsRecord w).1 = Throw e) <->
     match cf_net w (cf_requests w) request with
     | CfReject _ => True
     | CfResolve response =>
         success response = false /\
         exists err rest,
           errors response = err :: rest /\
           (code err = 10001 \/ code err = 7003)
     end) /\
    (forall response,
       cf_net w (cf_requests w) request = CfResolve response ->
       success response = false ->
       (forall err rest,
          errors response = err :: rest ->
          code err <> 10001 /\ code err <> 7003) ->
       (CloudflareService.getDnsRecord w).1 = Normal None).
Proof.
  exists (CloudflareService.BASE_URL +:+ "/zones/"
            +:+ template (CLOUDFLARE_ZONE_ID (env w))
            +:+ "/dns_records?name=" +:+ template (DNS_RECORD_NAME (env w))
            +:+ "&type=A").
  cbv zeta.
  unfold CloudflareService.getDnsRecord, try_catch, mbind, M_bind, bind, gets,
    CloudflareService.makeRequest, requested.
  cbv beta iota zeta.
  match goal with
  | |- context [cf_net w (cf_requests w) ?q] =>
      destruct (cf_net w (cf_requests w) q) as [response|message] eqn:Hnet
  end.
  - cbv beta iota. destruct (success response) eqn:Hs; cbn [negb].
    + split; [destruct (result response) as [[|record records]|]; reflexivity|].
      split.
      * split; [|intros [H _]; discriminate].
        destruct (result response) as [[|record records]|];
          intros [e He]; discriminate.
      * intros response' [= <-] Hs'. congruence.
    + destruct (errors response) as [|err rest] eqn:He.
      * split; [reflexivity|]. split.
        -- split; [intros [e H]; discriminate|].
           intros (_ & err & rest & H & _). discriminate.
        -- reflexivity.
      * destruct (code err =? 10001) eqn:E1;
          [|destruct (code err =? 7003) eqn:E2].
        -- apply Z.eqb_eq in E1. split; [reflexivity|]. split.
           ++ split; [|eauto]. intros _. split; [reflexivity|]. eauto.
           ++ intros response' [= <-] _ H.
              destruct (H err rest He). contradiction.
        -- apply Z.eqb_eq in E2. split; [reflexivity|]. split.
           ++ split; [|eauto]. intros _. split; [reflexivity|]. eauto.
           ++ intros response' [= <-] _ H.
              destruct (H err rest He). contradiction.
        -- apply Z.eqb_neq in E1, E2. split; [reflexivity|]. split.
           ++ split; [intros [e H]; discriminate|].
              intros (_ & err' & rest' & [= <- <-] & [H|H]); contradiction.
           ++ reflexivity.
  - cbv beta iota. split; [reflexivity|]. split.
    + split; [auto | eauto].
    + intros response [=].
Qed.
